(** * obj2voxel: the triangle splitter, the per-voxel clipper, the subdivider,
      the per-triangle voxelizer, the command queue and the pipeline driver.

    Number model.  [real_type] values that the program obtains from its inputs
    by [+], [-], [*] and [/] are exact rationals ([Q]): every finite binary
    floating-point number is a rational, and the operations are taken without
    rounding.  Quantities that go through a square root (lengths, areas, unit
    normals) and the weights and colours accumulated from them live in [R].
    A division by a zero length, which the program evaluates to a NaN, is an
    explicit [None].  Unsigned integers are [N] with the 32-bit (or 64-bit)
    wrap-around written out. *)

From Stdlib Require Import ZArith QArith Qabs Qround Reals Qreals Psatz Lia List Bool.
From Stdlib Require String.
From stdpp Require Import base gmap.
Import ListNotations.

(** ** Geometry primitives *)

Record Vec3 := mkVec3 { v3x : Q; v3y : Q; v3z : Q }.
Record Vec2 := mkVec2 { v2x : Q; v2y : Q }.

(** [Vec3u]: a triple of [unsigned] voxel coordinates. *)
Abbreviation Vec3u := (N * N * N)%type.

Definition ux (p : Vec3u) : N := fst (fst p).
Definition uy (p : Vec3u) : N := snd (fst p).
Definition uz (p : Vec3u) : N := snd p.

(** Vectors whose components went through a square root or a weighted
    average: unit normals and the [Vec3f] colours. *)
Record Vec3r := mkVec3r { rx : R; ry : R; rz : R }.

(** [v[i]] for [i] in [0, 3). *)
Definition vidx (v : Vec3) (i : nat) : Q :=
  match i with O => v3x v | S O => v3y v | _ => v3z v end.

Definition uidx (v : Vec3u) (i : nat) : N :=
  match i with O => ux v | S O => uy v | _ => uz v end.

Definition vsub (a b : Vec3) : Vec3 :=
  mkVec3 (v3x a - v3x b) (v3y a - v3y b) (v3z a - v3z b).

(** Modelled from the spec: [mix(a, b, t)] of the absent util.hpp, "geometric
    and UV positions are linearly mixed by t", [(1 - t) * a + t * b]. *)
Definition mixq (a b t : Q) : Q := (1 - t) * a + t * b.

Definition mix3 (a b : Vec3) (t : Q) : Vec3 :=
  mkVec3 (mixq (v3x a) (v3x b) t) (mixq (v3y a) (v3y b) t) (mixq (v3z a) (v3z b) t).

Definition mix2 (a b : Vec2) (t : Q) : Vec2 :=
  mkVec2 (mixq (v2x a) (v2x b) t) (mixq (v2y a) (v2y b) t).

(** [TexturedTriangle]: the arrays [v[3]] and [t[3]] of triangle.hpp. *)
Record TexturedTriangle := mkTT {
  tv0 : Vec3; tv1 : Vec3; tv2 : Vec3;
  tt0 : Vec2; tt1 : Vec2; tt2 : Vec2 }.

Definition vertex (t : TexturedTriangle) (i : nat) : Vec3 :=
  match i with O => tv0 t | S O => tv1 t | _ => tv2 t end.

Definition texture (t : TexturedTriangle) (i : nat) : Vec2 :=
  match i with O => tt0 t | S O => tt1 t | _ => tt2 t end.

Definition UINT_MOD : N := 2 ^ 32.

(** [real_type(plane)] for an [unsigned] plane. *)
Definition real_of_unsigned (n : N) : Q := inject_Z (Z.of_N n).

(** ** The splitter (voxelization.cpp, lines 13 to 249) *)

Definition EPSILON : Q := 1 # 65536.

Definition Qltb (x y : Q) : bool := negb (Qle_bool y x).

Definition isZero (x : Q) : bool := Qltb (Qabs x) EPSILON.

(** [eq(x, plane)] of the source. *)
Definition eq_plane (x : Q) (plane : N) : bool :=
  isZero (x - real_of_unsigned plane).

Definition intersect_ray_axisPlane (org dir : Vec3) (axis : nat) (plane : N) : Q :=
  let d := - vidx dir axis in
  if isZero d then 0 else (vidx org axis - real_of_unsigned plane) / d.

Inductive DiscardMode := NONE | DISCARD_LO | DISCARD_HI.

(** The scratch vectors [buffers[3]] of [voxelize]; a [BufId] is a reference
    to one of them, so that two references may name the same vector. *)
Inductive BufId := Buf0 | Buf1 | Buf2.

Record Buffers := mkBuffers {
  buf0 : list TexturedTriangle;
  buf1 : list TexturedTriangle;
  buf2 : list TexturedTriangle }.

Definition buf_get (r : BufId) (s : Buffers) : list TexturedTriangle :=
  match r with Buf0 => buf0 s | Buf1 => buf1 s | Buf2 => buf2 s end.

Definition buf_set (r : BufId) (l : list TexturedTriangle) (s : Buffers) : Buffers :=
  match r with
  | Buf0 => mkBuffers l (buf1 s) (buf2 s)
  | Buf1 => mkBuffers (buf0 s) l (buf2 s)
  | Buf2 => mkBuffers (buf0 s) (buf1 s) l
  end.

Definition push_back (r : BufId) (t : TexturedTriangle) (s : Buffers) : Buffers :=
  buf_set r (buf_get r s ++ [t]) s.

(** The local lambda of [splitTriangle]. *)
Definition pushLoIfTrueElseHi (mode : DiscardMode) (outLo outHi : BufId)
    (t : TexturedTriangle) (lo : bool) (s : Buffers) : Buffers :=
  match mode with
  | NONE => push_back (if lo then outLo else outHi) t s
  | DISCARD_LO => if negb lo then push_back outHi t s else s
  | DISCARD_HI => if lo then push_back outLo t s else s
  end.

Definition b2n (b : bool) : nat := if b then 1%nat else 0%nat.

(** The body of [splitTriangle], over the push operation it is given. *)
Definition splitTriangle_body {S : Type} (push : TexturedTriangle -> bool -> S -> S)
    (axis : nat) (plane : N) (t : TexturedTriangle) (s : S) : S :=
  let planarVertices (i : nat) := eq_plane (vidx (vertex t i) axis) plane in
  let planarSum := (b2n (planarVertices 0) + b2n (planarVertices 1) + b2n (planarVertices 2))%nat in
  if (planarSum =? 3)%nat then push t true s else
  let loVertices (i : nat) := Qle_bool (vidx (vertex t i) axis) (real_of_unsigned plane) in
  let loSum := (b2n (loVertices 0) + b2n (loVertices 1) + b2n (loVertices 2))%nat in
  if (loSum =? 0)%nat then push t false s else
  if (loSum =? 3)%nat then push t true s else
  if (planarSum =? 2)%nat then
    let nonPlanarIndex :=
      if negb (planarVertices 0) then 0 else if negb (planarVertices 1) then 1 else 2 in
    let isNonPlanarLo :=
      Qle_bool (vidx (vertex t nonPlanarIndex) axis) (real_of_unsigned plane) in
    push t isNonPlanarLo s
  else if (planarSum =? 1)%nat then
    let planarIndex := if planarVertices 0 then 0 else if planarVertices 1 then 1 else 2 in
    let nonPlanarIndices0 := ((planarIndex + 1) mod 3)%nat in
    let nonPlanarIndices1 := ((planarIndex + 2) mod 3)%nat in
    let nonPlanarLoSum :=
      (b2n (loVertices nonPlanarIndices0) + b2n (loVertices nonPlanarIndices1))%nat in
    if negb (nonPlanarLoSum =? 1)%nat then
      let areNonPlanarsLo := (nonPlanarLoSum =? 2)%nat in
      push t areNonPlanarsLo s
    else
      let planarVertex := vertex t planarIndex in
      let planarTexture := texture t planarIndex in
      let nonPlanarVertices0 := vertex t nonPlanarIndices0 in
      let nonPlanarVertices1 := vertex t nonPlanarIndices1 in
      let nonPlanarTextures0 := texture t nonPlanarIndices0 in
      let nonPlanarTextures1 := texture t nonPlanarIndices1 in
      let nonPlanarEdge := vsub nonPlanarVertices1 nonPlanarVertices0 in
      let intersection := intersect_ray_axisPlane nonPlanarVertices0 nonPlanarEdge axis plane in
      let geoIntersection := mix3 nonPlanarVertices0 nonPlanarVertices1 intersection in
      let texIntersection := mix2 nonPlanarTextures0 nonPlanarTextures1 intersection in
      let triangles0 :=
        mkTT planarVertex nonPlanarVertices0 geoIntersection
             planarTexture nonPlanarTextures0 texIntersection in
      let triangles1 :=
        mkTT planarVertex geoIntersection nonPlanarVertices1
             planarTexture texIntersection nonPlanarTextures1 in
      let isFirstTriangleLo := loVertices nonPlanarIndices0 in
      push triangles1 (negb isFirstTriangleLo) (push triangles0 isFirstTriangleLo s)
  else
    let isIsolatedLo := (loSum =? 1)%nat in
    let isolatedIndex :=
      if isIsolatedLo
      then (if loVertices 0 then 0 else if loVertices 1 then 1 else 2)
      else (if negb (loVertices 0) then 0 else if negb (loVertices 1) then 1 else 2) in
    let otherIndices0 := ((isolatedIndex + 1) mod 3)%nat in
    let otherIndices1 := ((isolatedIndex + 2) mod 3)%nat in
    let isolatedVertex := vertex t isolatedIndex in
    let isolatedTexture := texture t isolatedIndex in
    let otherVertices0 := vertex t otherIndices0 in
    let otherVertices1 := vertex t otherIndices1 in
    let otherTextures0 := texture t otherIndices0 in
    let otherTextures1 := texture t otherIndices1 in
    let edgesToOtherVertices0 := vsub (vertex t otherIndices0) isolatedVertex in
    let edgesToOtherVertices1 := vsub (vertex t otherIndices1) isolatedVertex in
    let intersections0 := intersect_ray_axisPlane isolatedVertex edgesToOtherVertices0 axis plane in
    let intersections1 := intersect_ray_axisPlane isolatedVertex edgesToOtherVertices1 axis plane in
    let geoIsectPoints0 := mix3 isolatedVertex otherVertices0 intersections0 in
    let geoIsectPoints1 := mix3 isolatedVertex otherVertices1 intersections1 in
    let texIsectPoints0 := mix2 isolatedTexture otherTextures0 intersections0 in
    let texIsectPoints1 := mix2 isolatedTexture otherTextures1 intersections1 in
    let isolatedTriangle :=
      mkTT isolatedVertex geoIsectPoints0 geoIsectPoints1
           isolatedTexture texIsectPoints0 texIsectPoints1 in
    let otherTriangles0 :=
      mkTT geoIsectPoints0 otherVertices0 otherVertices1
           texIsectPoints0 otherTextures0 otherTextures1 in
    let otherTriangles1 :=
      mkTT geoIsectPoints0 geoIsectPoints1 otherVertices1
           texIsectPoints0 texIsectPoints1 otherTextures1 in
    push otherTriangles1 (negb isIsolatedLo)
      (push otherTriangles0 (negb isIsolatedLo)
        (push isolatedTriangle isIsolatedLo s)).

(** [splitTriangle<DISCARD_MODE>(axis, plane, t, outLo, outHi)]. *)
Definition splitTriangle (mode : DiscardMode) (axis : nat) (plane : N)
    (t : TexturedTriangle) (outLo outHi : BufId) (s : Buffers) : Buffers :=
  splitTriangle_body (pushLoIfTrueElseHi mode outLo outHi) axis plane t s.

(** The calls of [pushLoIfTrueElseHi] that one [splitTriangle] makes, in order. *)
Definition splitCalls (axis : nat) (plane : N) (t : TexturedTriangle)
  : list (TexturedTriangle * bool) :=
  splitTriangle_body (fun f lo l => l ++ [(f, lo)]) axis plane t [].

(** ** Triangle measures (triangle.hpp is not among the sources) *)

Definition cross (a b : Vec3) : Vec3 :=
  mkVec3 (v3y a * v3z b - v3z a * v3y b)
         (v3z a * v3x b - v3x a * v3z b)
         (v3x a * v3y b - v3y a * v3x b).

Definition dotq (a b : Vec3) : Q :=
  v3x a * v3x b + v3y a * v3y b + v3z a * v3z b.

Definition length3 (v : Vec3) : R := sqrt (Q2R (dotq v v)).

(** Modelled from the spec: [Triangle::normal()], the cross product of the two
    edges leaving vertex 0 (the spec's "unit normal" before normalisation). *)
Definition normal (t : TexturedTriangle) : Vec3 :=
  cross (vsub (tv1 t) (tv0 t)) (vsub (tv2 t) (tv0 t)).

(** Modelled from the spec: [Triangle::area()], the area of the triangle "in
    voxel-space units", half the length of the normal. *)
Definition area (t : TexturedTriangle) : R := (length3 (normal t) / 2)%R.

(** Modelled from the spec: [textureCenter()], the "centroid_UV" of a fragment. *)
Definition textureCenter (t : TexturedTriangle) : Vec2 :=
  mkVec2 ((v2x (tt0 t) + v2x (tt1 t) + v2x (tt2 t)) / 3)
         ((v2y (tt0 t) + v2y (tt1 t) + v2y (tt2 t)) / 3).

(** [abs(v)], component-wise. *)
Definition vabs (v : Vec3) : Vec3 :=
  mkVec3 (Qabs (v3x v)) (Qabs (v3y v)) (Qabs (v3z v)).

(** [normalize(v) = v / length(v)]; for the zero vector every component is
    [0 / 0], a NaN, which is [None] here. *)
Definition normalize (v : Vec3) : option Vec3r :=
  if Qeq_bool (dotq v v) 0 then None
  else Some (mkVec3r (Q2R (v3x v) / length3 v) (Q2R (v3y v) / length3 v)
                     (Q2R (v3z v) / length3 v)).

Definition dotr (a b : Vec3r) : R := (rx a * rx b + ry a * ry b + rz a * rz b)%R.

Definition vinj (v : Vec3) : Vec3r := mkVec3r (Q2R (v3x v)) (Q2R (v3y v)) (Q2R (v3z v)).

(** The cast of an integral [real_type] to [unsigned]. *)
Definition to_unsigned (z : Z) : N := Z.to_N (z mod Z.of_N UINT_MOD).

Definition qmin (a b : Q) : Q := if Qle_bool a b then a else b.
Definition qmax (a b : Q) : Q := if Qle_bool a b then b else a.

Definition tri_min (t : TexturedTriangle) (i : nat) : Q :=
  qmin (qmin (vidx (tv0 t) i) (vidx (tv1 t) i)) (vidx (tv2 t) i).
Definition tri_max (t : TexturedTriangle) (i : nat) : Q :=
  qmax (qmax (vidx (tv0 t) i) (vidx (tv1 t) i)) (vidx (tv2 t) i).

(** Modelled from the spec: [voxelMin()] and [voxelMax()], the corners of the
    "integer bounding box": the floor of the least and the ceiling of the
    greatest coordinate of the vertices on each axis ("integer-indexed by
    floor"). *)
Definition voxelMin (t : TexturedTriangle) : Vec3u :=
  (to_unsigned (Qfloor (tri_min t 0)), to_unsigned (Qfloor (tri_min t 1)),
   to_unsigned (Qfloor (tri_min t 2))).
Definition voxelMax (t : TexturedTriangle) : Vec3u :=
  (to_unsigned (Qceiling (tri_max t 0)), to_unsigned (Qceiling (tri_max t 1)),
   to_unsigned (Qceiling (tri_max t 2))).

(** [unsigned] subtraction and multiplication. *)
Definition usub (a b : N) : N := Z.to_N ((Z.of_N a - Z.of_N b) mod Z.of_N UINT_MOD).
Definition umul (a b : N) : N := ((a * b) mod UINT_MOD)%N.
Definition uadd (a b : N) : N := ((a + b) mod UINT_MOD)%N.

Definition mid3 (a b : Vec3) : Vec3 := mix3 a b (1 # 2).
Definition mid2 (a b : Vec2) : Vec2 := mix2 a b (1 # 2).

(** Modelled from the spec: [subdivide4], the "midpoint subdivision of a
    triangle [that] produces four sub-triangles by splitting each edge at its
    midpoint, with UVs interpolated correspondingly"; the centre piece comes
    first, then the three corner pieces. *)
Definition subdivide4 (t : TexturedTriangle) : list TexturedTriangle :=
  let m01 := mid3 (tv0 t) (tv1 t) in
  let m12 := mid3 (tv1 t) (tv2 t) in
  let m20 := mid3 (tv2 t) (tv0 t) in
  let n01 := mid2 (tt0 t) (tt1 t) in
  let n12 := mid2 (tt1 t) (tt2 t) in
  let n20 := mid2 (tt2 t) (tt0 t) in
  [ mkTT m01 m12 m20 n01 n12 n20;
    mkTT (tv0 t) m01 m20 (tt0 t) n01 n20;
    mkTT m01 (tv1 t) m12 n01 (tt1 t) n12;
    mkTT m20 m12 (tv2 t) n20 n12 (tt2 t) ].

(** ** The subdivider (voxelization.cpp, lines 256 to 300) *)

Definition volumeLimit : N := 512.

Definition sqrtThird : R := (/ sqrt 3)%R.

Definition diagonal3 : Vec3r := mkVec3r sqrtThird sqrtThird sqrtThird.

(** [size[0] * size[1] * size[2]] of the loop body, in [unsigned] arithmetic. *)
Definition volume (t : TexturedTriangle) : N :=
  let vmin := voxelMin t in
  let vmax := voxelMax t in
  umul (umul (usub (ux vmax) (ux vmin)) (usub (uy vmax) (uy vmin)))
       (usub (uz vmax) (uz vmin)).

(** [diagonality01] of the source; [None] when the normal is the zero vector. *)
Definition diagonality01 (t : TexturedTriangle) : option R :=
  match normalize (vabs (normal t)) with
  | None => None
  | Some n =>
      let diagonality := dotr n diagonal3 in
      Some ((diagonality - sqrtThird) / (1 - sqrtThird))%R
  end.

(** [diagonality01 < 1 / 2.f]; a comparison with a NaN is false. *)
Definition nearAxisAligned (t : TexturedTriangle) : bool :=
  match diagonality01 t with
  | None => false
  | Some d => if Rlt_dec d (1 / 2) then true else false
  end.

(** The [for (usize i = 0; i < out.size();)] loop; [fuel] bounds the number of
    iterations and [None] means that it ran out. *)
Fixpoint subdivide_loop (fuel : nat) (i : nat) (out : list TexturedTriangle)
  : option (list TexturedTriangle) :=
  match fuel with
  | O => None
  | S fuel' =>
      match out !! i with
      | None => Some out
      | Some triangle =>
          if (volume triangle <? volumeLimit)%N then subdivide_loop fuel' (S i) out
          else
            match subdivide4 triangle with
            | s0 :: rest => subdivide_loop fuel' i (<[i := s0]> out ++ rest)
            | [] => None
            end
      end
  end.

Definition subdivideLargeVolumeTriangles (fuel : nat) (inputTriangle : TexturedTriangle)
    (out : list TexturedTriangle) : option (list TexturedTriangle) :=
  let out := out ++ [inputTriangle] in
  if nearAxisAligned inputTriangle then Some out
  else subdivide_loop fuel 0 out.

(** ** Weighted colours and the voxel map *)

Record WeightedColor := mkWC { weight : R; value : Vec3r }.

(** [WeightedColor{}] and [{0, {}}]. *)
Definition WC_zero : WeightedColor := mkWC 0 (mkVec3r 0 0 0).

(** Modelled from the spec: [mix(WeightedColor, WeightedColor)] of the absent
    util.hpp, the BLEND combiner, "w' = w1 + w2; v' = (w1*v1 + w2*v2)/w'". *)
Definition mix (a b : WeightedColor) : WeightedColor :=
  let w := (weight a + weight b)%R in
  mkWC w (mkVec3r ((weight a * rx (value a) + weight b * rx (value b)) / w)
                  ((weight a * ry (value a) + weight b * ry (value b)) / w)
                  ((weight a * rz (value a) + weight b * rz (value b)) / w)).

(** voxelization.hpp *)
Inductive ColorStrategy := MAX | BLEND.

(** Modelled from the spec: the combiner of section 4.5; MAX keeps "the
    contribution with the strictly greater weight; ties broken by retaining
    the incumbent". *)
Definition combine (strategy : ColorStrategy) (incumbent c : WeightedColor)
  : WeightedColor :=
  match strategy with
  | BLEND => mix incumbent c
  | MAX => if Rlt_dec (weight incumbent) (weight c) then c else incumbent
  end.

(** Modelled from the spec: [insertColor<STRATEGY>(map, pos, color)] of the
    absent header; a write "into an initially-empty cell" stores the colour,
    "subsequent writes combine". *)
Definition insertColor (strategy : ColorStrategy) (map : gmap Vec3u WeightedColor)
    (pos : Vec3u) (color : WeightedColor) : gmap Vec3u WeightedColor :=
  match map !! pos with
  | None => <[pos := color]> map
  | Some incumbent => <[pos := combine strategy incumbent color]> map
  end.

(** [VisualTriangle]: a textured triangle with its shading source; the
    variant (materialless, untextured, textured) fixes [colorAt_f], which is
    all that the voxelizer asks of it. *)
Record VisualTriangle := mkVT {
  vt_triangle : TexturedTriangle;
  colorAt_f : Vec2 -> Vec3r }.

(** ** The per-voxel clipper (voxelization.cpp, lines 302 to 343) *)

(** [hi ? splitTriangle<DISCARD_HI> : splitTriangle<DISCARD_LO>] *)
Definition splittingFunction (hi : N) : DiscardMode :=
  if (hi =? 0)%N then DISCARD_LO else DISCARD_HI.

(** The iterations of the two nested [for] loops, [(hi, axis)] in order. *)
Definition clipRounds : list (N * nat) :=
  flat_map (fun hi => map (fun axis => (hi, axis)) [0; 1; 2]%nat) [0; 1]%N.

(** The loops of [voxelizeVoxel].  The result is [inl] of the buffers at the
    early [return {0, {}}], or [inr] of the two references, as they are after
    the last swap, and the buffers. *)
Fixpoint voxelizeVoxel_rounds (rounds : list (N * nat)) (pos : Vec3u)
    (preSplitBuffer postSplitBuffer : BufId) (s : Buffers)
  : Buffers + (BufId * BufId * Buffers) :=
  match rounds with
  | [] => inr (preSplitBuffer, postSplitBuffer, s)
  | (hi, axis) :: rounds' =>
      let plane := uadd (uidx pos axis) hi in
      let s1 :=
        fold_left (fun s' t =>
                     splitTriangle (splittingFunction hi) axis plane t
                                   postSplitBuffer postSplitBuffer s')
                  (buf_get preSplitBuffer s) s in
      let s2 := buf_set preSplitBuffer [] s1 in
      match buf_get postSplitBuffer s2 with
      | [] => inl s2
      | _ :: _ => voxelizeVoxel_rounds rounds' pos postSplitBuffer preSplitBuffer s2
      end
  end.

Definition voxelizeVoxel (inputTriangle : VisualTriangle) (pos : Vec3u)
    (preSplitBuffer postSplitBuffer : BufId) (s : Buffers)
  : WeightedColor * Buffers :=
  match voxelizeVoxel_rounds clipRounds pos preSplitBuffer postSplitBuffer s with
  | inl s' => (WC_zero, s')
  | inr (pre, post, s') =>
      (* std::swap(preSplitBuffer, postSplitBuffer) *)
      let postSplitBuffer' := pre in
      let result :=
        fold_left (fun result t =>
                     let color := colorAt_f inputTriangle (textureCenter t) in
                     let weight := area (vt_triangle inputTriangle) in
                     mix result (mkWC weight color))
                  (buf_get postSplitBuffer' s') WC_zero in
      (result, buf_set postSplitBuffer' [] s')
  end.

(** ** One sub-triangle and one input triangle (voxelization.cpp, 361 to 434) *)

Definition distanceLimit : R := 2.

Definition distance_point_plane (p org : Vec3) (normal : Vec3r) : R :=
  dotr normal (vinj (vsub p org)).

(** The values of an [unsigned] loop variable from [lo] while it is [< hi]. *)
Definition urange (lo hi : N) : list N :=
  map N.of_nat (seq (N.to_nat lo) (N.to_nat hi - N.to_nat lo)).

(** The positions [{x, y, z}] that the three nested loops visit, in order. *)
Definition voxelPositions (vmin vmax : Vec3u) : list Vec3u :=
  flat_map (fun z =>
    flat_map (fun y =>
      map (fun x => (x, y, z)) (urange (ux vmin) (ux vmax)))
      (urange (uy vmin) (uy vmax)))
    (urange (uz vmin) (uz vmax)).

(** [std::abs(signedDistance) > distanceLimit], false on a NaN. *)
Definition tooFar (subTriangle : TexturedTriangle) (pos : Vec3u) : bool :=
  let planeOrg := vertex subTriangle 0 in
  match normalize (normal subTriangle) with
  | None => false
  | Some planeNormal =>
      let center :=
        mkVec3 (real_of_unsigned (ux pos) + (1 # 2)) (real_of_unsigned (uy pos) + (1 # 2))
               (real_of_unsigned (uz pos) + (1 # 2)) in
      let signedDistance := distance_point_plane center planeOrg planeNormal in
      if Rlt_dec distanceLimit (Rabs signedDistance) then true else false
  end.

(** [eqExactly(a, b)] *)
Definition eqExactly (a b : R) : bool := if Req_dec_T a b then true else false.

(** The body of the innermost loop of [voxelizeSubTriangle]. *)
Definition voxelizeSubTriangle_step (inputTriangle : VisualTriangle)
    (subTriangle : TexturedTriangle) (preSplitBuffer postSplitBuffer : BufId)
    (st : Buffers * gmap Vec3u WeightedColor) (pos : Vec3u)
  : Buffers * gmap Vec3u WeightedColor :=
  let '(s, out) := st in
  if tooFar subTriangle pos then (s, out)
  else
    let s1 := push_back preSplitBuffer subTriangle s in
    let '(color, s2) := voxelizeVoxel inputTriangle pos preSplitBuffer postSplitBuffer s1 in
    if negb (eqExactly (weight color) 0) then (s2, insertColor BLEND out pos color)
    else (s2, out).

Definition voxelizeSubTriangle (inputTriangle : VisualTriangle)
    (subTriangle : TexturedTriangle) (preSplitBuffer postSplitBuffer : BufId)
    (s : Buffers) (out : gmap Vec3u WeightedColor)
  : Buffers * gmap Vec3u WeightedColor :=
  fold_left (voxelizeSubTriangle_step inputTriangle subTriangle preSplitBuffer postSplitBuffer)
            (voxelPositions (voxelMin subTriangle) (voxelMax subTriangle)) (s, out).

(** The free function [voxelize(inputTriangle, buffers, out)]. *)
Definition voxelize (fuel : nat) (inputTriangle : VisualTriangle)
    (buffers : Buffers) (out : gmap Vec3u WeightedColor)
  : option (Buffers * gmap Vec3u WeightedColor) :=
  let buffers := buf_set Buf2 [] (buf_set Buf1 [] (buf_set Buf0 [] buffers)) in
  let out : gmap Vec3u WeightedColor := ∅ in
  match subdivideLargeVolumeTriangles fuel (vt_triangle inputTriangle) (buf_get Buf0 buffers) with
  | None => None
  | Some subs =>
      let buffers := buf_set Buf0 subs buffers in
      Some (fold_left (fun st subTriangle =>
                         voxelizeSubTriangle inputTriangle subTriangle Buf1 Buf2 (fst st) (snd st))
                      (buf_get Buf0 buffers) (buffers, out))
  end.

(** ** The ring buffer and the counter (threading.hpp) *)

Definition UMAX_MOD : N := 2 ^ 64.

(** [RingBuffer<T, N>].  The fields [r], [w] and [avail] are [usize]; the
    asynchronous wrapper pops only when [avail] is not 0 and pushes only when
    it is not [N], so that they never wrap. *)
Section RingBuffer.
Context {T : Type}.
Variable capacity : nat.

Record RingBuffer := mkRing {
  content : list T;
  rb_r : nat;
  rb_w : nat;
  avail : nat }.

Definition rb_pop (d : T) (b : RingBuffer) : T * RingBuffer :=
  let r' := ((rb_r b + 1) mod capacity)%nat in
  (nth r' (content b) d, mkRing (content b) r' (rb_w b) (avail b - 1)).

Definition rb_push (x : T) (b : RingBuffer) : RingBuffer :=
  let w' := ((rb_w b + 1) mod capacity)%nat in
  mkRing (<[w' := x]> (content b)) (rb_r b) w' (avail b + 1).

Definition rb_empty (b : RingBuffer) : bool := (avail b =? 0)%nat.
Definition rb_full (b : RingBuffer) : bool := (avail b =? capacity)%nat.

End RingBuffer.

Arguments RingBuffer : clear implicits.

(** [++count] and [--count] of [Counter<uintmax_t>]. *)
Definition counter_incr (c : N) : N := ((c + 1) mod UMAX_MOD)%N.
Definition counter_decr (c : N) : N := ((c + UMAX_MOD - 1) mod UMAX_MOD)%N.

(** ** The command queue and the workers (filevoxelization.cpp, 15 to 136) *)

(** [WorkerCommand]; the two map pointers of a merge are the indices of the
    workers that own the maps. *)
Inductive WorkerCommand :=
| VOXELIZE_TRIANGLE (triangle : VisualTriangle)
| MERGE_MAPS (target source : nat)
| EXIT.

Definition QUEUE_CAPACITY : nat := 128.

Record CommandQueue := mkQueue {
  buffer : RingBuffer WorkerCommand;
  commandCounter : N }.

(** Where a worker is in [WorkerThread::run]. *)
Inductive WorkerPc :=
| AtReceive                       (* about to call queue.receive() *)
| AtSwitch (c : WorkerCommand)    (* holds a command, has not run it yet *)
| AtComplete (c : WorkerCommand)  (* ran the command, about to call queue.complete() *)
| Returned.                       (* left the loop *)

(** Where the main thread is with respect to the queue. *)
Inductive MainPc :=
| MainRunning
| InIssue (c : WorkerCommand)     (* inside issue(): counter incremented, push pending *)
| InWait.                         (* inside waitForCompletion() *)

(** The queue, the threads that use it, and two history counters: the calls
    of [issue] so far and the commands whose execution has finished. *)
Record System := mkSystem {
  queue : CommandQueue;
  mainpc : MainPc;
  workers : list WorkerPc;
  issued : nat;
  finished : nat }.

Definition initial_ring : RingBuffer WorkerCommand :=
  mkRing (repeat EXIT QUEUE_CAPACITY) 0 0 0.

Definition initial (threadCount : nat) : System :=
  mkSystem (mkQueue initial_ring 0) MainRunning (repeat AtReceive threadCount) 0 0.

(** The worker's state after [queue.complete()]: [looping] is false after EXIT. *)
Definition after_complete (c : WorkerCommand) : WorkerPc :=
  match c with EXIT => Returned | _ => AtReceive end.

(** One atomic action of one thread: each operation that the source performs
    while it holds the mutex of the counter or of the buffer is one step, and
    the steps of the threads interleave in any order.  The main thread may
    issue any command at any time; what a command does to the voxel maps is
    not part of the state. *)
Inductive step : System -> System -> Prop :=
| step_issue_incr q ws i f c :
    (* issue(): ++commandCounter *)
    step (mkSystem q MainRunning ws i f)
         (mkSystem (mkQueue (buffer q) (counter_incr (commandCounter q))) (InIssue c) ws (S i) f)
| step_issue_push q ws i f c :
    (* issue(): buffer.push(command), blocked while the buffer is full *)
    rb_full QUEUE_CAPACITY (buffer q) = false ->
    step (mkSystem q (InIssue c) ws i f)
         (mkSystem (mkQueue (rb_push QUEUE_CAPACITY c (buffer q)) (commandCounter q))
                   MainRunning ws i f)
| step_wait_enter q ws i f :
    step (mkSystem q MainRunning ws i f) (mkSystem q InWait ws i f)
| step_wait_return q ws i f :
    (* waitForCompletion() returns: the predicate count == 0 held *)
    commandCounter q = 0%N ->
    step (mkSystem q InWait ws i f) (mkSystem q MainRunning ws i f)
| step_receive q m ws i f k :
    (* receive(): buffer.pop(), blocked while the buffer is empty *)
    ws !! k = Some AtReceive ->
    rb_empty (buffer q) = false ->
    step (mkSystem q m ws i f)
         (mkSystem (mkQueue (snd (rb_pop QUEUE_CAPACITY EXIT (buffer q))) (commandCounter q))
                   m
                   (<[k := AtSwitch (fst (rb_pop QUEUE_CAPACITY EXIT (buffer q)))]> ws) i f)
| step_run q m ws i f k c :
    (* the switch over command.type *)
    ws !! k = Some (AtSwitch c) ->
    step (mkSystem q m ws i f) (mkSystem q m (<[k := AtComplete c]> ws) i f)
| step_complete q m ws i f k c :
    (* complete(): --commandCounter *)
    ws !! k = Some (AtComplete c) ->
    step (mkSystem q m ws i f)
         (mkSystem (mkQueue (buffer q) (counter_decr (commandCounter q))) m
                   (<[k := after_complete c]> ws) i (S f)).

Inductive reachable (threadCount : nat) : System -> Prop :=
| reachable_initial : reachable threadCount (initial threadCount)
| reachable_step s s' : reachable threadCount s -> step s s' -> reachable threadCount s'.

(** The commands that have been issued and have not finished: the one whose
    push is pending, those in the buffer, and those that a worker holds. *)
Definition holds_command (w : WorkerPc) : bool :=
  match w with AtSwitch _ | AtComplete _ => true | _ => false end.

Definition pending_push (m : MainPc) : nat :=
  match m with InIssue _ => 1%nat | _ => 0%nat end.

Definition unfinished (s : System) : nat :=
  (pending_push (mainpc s) + avail (buffer (queue s))
   + length (filter (fun w => holds_command w = true) (workers s)))%nat.

(** ** The pipeline driver (filevoxelization.cpp, lines 183 to 265) *)

Module FileVoxelization.

Record VoxelizationArgs := mkArgs {
  resolution : N;
  colorStrategy : ColorStrategy;
  permutation : Vec3u;
  downscale : bool }.

(** [ITriangleStream]: the flat vertex buffer and the triangles that
    [next()] yields while [hasNext()]. *)
Record ITriangleStream := mkStream {
  vertexCount : N;
  vertexBegin : list Q;
  triangles : list VisualTriangle }.

Definition vec_at (data : list Q) (i : nat) : Vec3 :=
  mkVec3 (nth i data 0%Q) (nth (i + 1) data 0%Q) (nth (i + 2) data 0%Q).

Definition vmin3 (a b : Vec3) : Vec3 :=
  mkVec3 (qmin (v3x a) (v3x b)) (qmin (v3y a) (v3y b)) (qmin (v3z a) (v3z b)).
Definition vmax3 (a b : Vec3) : Vec3 :=
  mkVec3 (qmax (v3x a) (v3x b)) (qmax (v3y a) (v3y b)) (qmax (v3z a) (v3z b)).

Definition findBoundaries (data : list Q) (vertexCount : N) : Vec3 * Vec3 :=
  fold_left (fun mm k => let p := vec_at data (3 * k) in (vmin3 (fst mm) p, vmax3 (snd mm) p))
            (seq 0 (N.to_nat vertexCount)) (vec_at data 0, vec_at data 0).

Section Driver.

(** Absent from the sources: the transform type and [computeTransform], the
    number of hardware threads, what the worker threads leave as the merged
    map once they are joined, the downscaler and the voxel sink. *)
Variable AffineTransform : Type.
Variable computeTransform : Vec3 -> Vec3 -> N -> Vec3u -> AffineTransform.
Variable hardware_concurrency : nat.
Variable Voxel32 : Type.
Variable run_workers :
  list (AffineTransform * ColorStrategy) -> list VisualTriangle -> list Voxel32.
Variable downscale_map : list Voxel32 -> ColorStrategy -> list Voxel32.
Variable VoxelSink : Type.
Variable canWrite : VoxelSink -> bool.
Variable write : Voxel32 -> VoxelSink -> VoxelSink.
Variable flush : VoxelSink -> VoxelSink.

(** What a call of the driver did: its return value, the worker threads it
    constructed (each with its transform and strategy), and the sink. *)
Record Outcome := mkOutcome {
  returned : bool;
  spawned : list (AffineTransform * ColorStrategy);
  sink_after : VoxelSink }.

(** The output loop, with its [return false] when the sink cannot write. *)
Fixpoint write_all (voxels : list Voxel32) (sink : VoxelSink) : bool * VoxelSink :=
  match voxels with
  | [] => (true, sink)
  | v :: rest => if canWrite sink then write_all rest (write v sink) else (false, sink)
  end.

Definition voxelize (args : VoxelizationArgs) (stream : ITriangleStream)
    (sink : VoxelSink) : Outcome :=
  if (vertexCount stream =? 0)%N then mkOutcome true [] (flush sink)
  else
    let threadCount := hardware_concurrency in
    let '(meshMin, meshMax) := findBoundaries (vertexBegin stream) (vertexCount stream) in
    let meshTransform :=
      computeTransform meshMin meshMax (resolution args) (permutation args) in
    let workers := repeat (meshTransform, colorStrategy args) threadCount in
    let result := run_workers workers (triangles stream) in
    let result := if downscale args then downscale_map result (colorStrategy args) else result in
    let '(ok, sink') := write_all result sink in
    mkOutcome ok workers sink'.

End Driver.

(** The precondition on the arguments that the spec names: a positive
    resolution and a permutation of (0, 1, 2). *)
Definition is_permutation (p : Vec3u) : bool :=
  match p with
  | (0, 1, 2) | (0, 2, 1) | (1, 0, 2) | (1, 2, 0) | (2, 0, 1) | (2, 1, 0) => true
  | _ => false
  end%N.

Definition valid_args (args : VoxelizationArgs) : bool :=
  negb (resolution args =? 0)%N && is_permutation (permutation args).

End FileVoxelization.

(** ** The spec's vocabulary for the splitter *)

(** "A vertex v is planar iff |v[a] - k| < eps; else lo iff v[a] <= k, else hi." *)
Inductive Side := Planar | Lo | Hi.

Definition classify (axis : nat) (plane : N) (v : Vec3) : Side :=
  if Qltb (Qabs (vidx v axis - real_of_unsigned plane)) EPSILON then Planar
  else if Qle_bool (vidx v axis) (real_of_unsigned plane) then Lo else Hi.



(** ** Vocabulary of the conservation property *)

(** The squared length of the normal of the triangle [a b c], and its area. *)
Definition n2 (a b c : Vec3) : Q :=
  dotq (cross (vsub b a) (vsub c a)) (cross (vsub b a) (vsub c a)).

Definition area3 (a b c : Vec3) : R := (sqrt (Q2R (n2 a b c)) / 2)%R.

Definition empty_buffers : Buffers := mkBuffers [] [] [].

Definition sum_area (l : list TexturedTriangle) : R :=
  fold_right (fun t acc => (area t + acc)%R) 0%R l.

(** The triangles that a sequence of calls of [pushLoIfTrueElseHi] sorts into
    lo and into hi. *)
Definition sorted_lo (calls : list (TexturedTriangle * bool)) : list TexturedTriangle :=
  map fst (List.filter snd calls).
Definition sorted_hi (calls : list (TexturedTriangle * bool)) : list TexturedTriangle :=
  map fst (List.filter (fun c => negb (snd c)) calls).

(** ** Vocabulary of the six-plane clip *)

(** What [splitTriangle<mode>] appends when [outLo] and [outHi] are one and
    the same, empty, vector. *)
Definition splitInto (mode : DiscardMode) (axis : nat) (plane : N)
    (t : TexturedTriangle) : list TexturedTriangle :=
  buf_get Buf0 (splitTriangle mode axis plane t Buf0 Buf0 empty_buffers).

(** Whether [pushLoIfTrueElseHi] appends at all, for a triangle sorted into
    lo ([true]) or hi ([false]). *)
Definition keeps (mode : DiscardMode) (lo : bool) : bool :=
  match mode with NONE => true | DISCARD_LO => negb lo | DISCARD_HI => lo end.

(** The six planes of the spec, "for each side in {low = 0, high = 1} and each
    axis a in {0, 1, 2}". *)
Definition sixPlanes : list (N * nat) :=
  [(0%N, 0%nat); (0%N, 1%nat); (0%N, 2%nat); (1%N, 0%nat); (1%N, 1%nat); (1%N, 2%nat)].

(** "Stream every triangle in A through the splitter into B; [...] if A ever
    becomes empty, return": [None] is that early return. *)
Fixpoint clip (select : N -> DiscardMode) (pos : Vec3u) (planes : list (N * nat))
    (A : list TexturedTriangle) : option (list TexturedTriangle) :=
  match planes with
  | [] => Some A
  | (side, a) :: planes' =>
      match flat_map (splitInto (select side) a (uadd (uidx pos a) side)) A with
      | [] => None
      | B => clip select pos planes' B
      end
  end.

(** The selection of the split routine as the claim words it, "DiscardLo when
    side = high, DiscardHi when side = low", and as the source has it. *)
Definition select_claimed (side : N) : DiscardMode :=
  if (side =? 0)%N then DISCARD_HI else DISCARD_LO.

Definition select_far_side (side : N) : DiscardMode :=
  if (side =? 0)%N then DISCARD_LO else DISCARD_HI.

(** The colour accumulation over the surviving fragments, as the source has it. *)
Definition accumulate (inputTriangle : VisualTriangle) (fragments : list TexturedTriangle)
  : WeightedColor :=
  fold_left (fun result t =>
               mix result (mkWC (area (vt_triangle inputTriangle))
                                (colorAt_f inputTriangle (textureCenter t))))
            fragments WC_zero.

Definition clipResult (select : N -> DiscardMode) (inputTriangle : VisualTriangle)
    (pos : Vec3u) (A : list TexturedTriangle) : WeightedColor :=
  match clip select pos sixPlanes A with
  | None => WC_zero
  | Some fragments => accumulate inputTriangle fragments
  end.

(** Both scratch vectors emptied. *)
Definition cleared (pre post : BufId) (s : Buffers) : Buffers :=
  buf_set post [] (buf_set pre [] s).

(** ** Concrete inputs *)

(** The right triangle with legs of length 2 in the plane [z = 1/2]. *)
Definition tri_2x2 : TexturedTriangle :=
  mkTT (mkVec3 0 0 (1 # 2)) (mkVec3 2 0 (1 # 2)) (mkVec3 0 2 (1 # 2))
       (mkVec2 0 0) (mkVec2 1 0) (mkVec2 0 1).

(** An untextured triangle: the colour does not depend on the UV. *)
Definition red : Vec3r := mkVec3r 1 0 0.
Definition red_2x2 : VisualTriangle := mkVT tri_2x2 (fun _ => red).

(** The part of [tri_2x2] in the voxel at the origin: the unit square, as the
    two triangles that the six cuts leave. *)
Definition square_fragments : list TexturedTriangle :=
  [ mkTT (mkVec3 (4 # 4) (4 # 4) (8 # 16)) (mkVec3 (0 # 4) (4 # 4) (8 # 16)) (mkVec3 0 0 (1 # 2))
         (mkVec2 (2 # 4) (2 # 4)) (mkVec2 (0 # 4) (2 # 4)) (mkVec2 0 0);
    mkTT (mkVec3 (4 # 4) (4 # 4) (8 # 16)) (mkVec3 (4 # 4) (0 # 4) (8 # 16)) (mkVec3 0 0 (1 # 2))
         (mkVec2 (2 # 4) (2 # 4)) (mkVec2 (2 # 4) (0 # 4)) (mkVec2 0 0) ].

(** The call of [voxelizeVoxel] for [tri_2x2] and the voxel at the origin. *)
Definition origin_call : WeightedColor * Buffers :=
  voxelizeVoxel red_2x2 (0, 0, 0)%N Buf1 Buf2 (push_back Buf1 tri_2x2 empty_buffers).

(** ** Vocabulary of the insertion into the voxel map *)

(** The contribution of the sub-triangle to one voxel: the result of the
    six-plane clip of the sub-triangle alone. *)
Definition voxelColor (inputTriangle : VisualTriangle) (subTriangle : TexturedTriangle)
    (pos : Vec3u) : WeightedColor :=
  clipResult select_far_side inputTriangle pos [subTriangle].

(** The voxel passes the plane-distance cull and its contribution has a
    weight other than zero. *)
Definition contributes (inputTriangle : VisualTriangle) (subTriangle : TexturedTriangle)
    (pos : Vec3u) : bool :=
  negb (tooFar subTriangle pos)
  && negb (eqExactly (weight (voxelColor inputTriangle subTriangle pos)) 0).

Definition contributing_positions (inputTriangle : VisualTriangle)
    (subTriangle : TexturedTriangle) : list Vec3u :=
  List.filter (contributes inputTriangle subTriangle)
              (voxelPositions (voxelMin subTriangle) (voxelMax subTriangle)).

(** "Fold each non-zero WeightedColor into the output map under the
    strategy": the contributions of one sub-triangle, inserted in the order
    in which the voxels are visited. *)
Definition insertContributions (strategy : ColorStrategy) (inputTriangle : VisualTriangle)
    (subTriangle : TexturedTriangle) (out : gmap Vec3u WeightedColor)
  : gmap Vec3u WeightedColor :=
  fold_left (fun m pos => insertColor strategy m pos (voxelColor inputTriangle subTriangle pos))
            (contributing_positions inputTriangle subTriangle) out.

(** A map that already holds a colour of weight 1 at the origin. *)
Definition out_with_origin : gmap Vec3u WeightedColor :=
  {[ (0, 0, 0)%N := mkWC 1 (mkVec3r 0 0 1) ]}.

(** ** Vocabulary of the termination of the subdivider *)

(** The extent of a triangle along an axis, and the greatest of the three. *)
Definition extent (t : TexturedTriangle) (i : nat) : Q := tri_max t i - tri_min t i.

Definition max_extent (t : TexturedTriangle) : Q :=
  qmax (qmax (extent t 0) (extent t 1)) (extent t 2).

(** The number of halvings after which no extent exceeds 6 (and the integer
    bounding box has at most 7 cells along every axis). *)
Definition level (t : TexturedTriangle) : nat :=
  Z.to_nat (Z.log2_up (Qceiling (max_extent t / 6))).

(** A bound on the iterations that a triangle of a given level causes. *)
Fixpoint cost (n : nat) : nat :=
  match n with
  | O => 1
  | S n' => S (4 * cost n')
  end.

Definition potential (i : nat) (out : list TexturedTriangle) : nat :=
  list_sum (map (fun t => cost (level t)) (drop i out)).

Definition small (t : TexturedTriangle) : Prop := (volume t < volumeLimit)%N.

(** ** Vocabulary of the early return and of the whole triangle *)

(** The diagonality as the claim words it, "the absolute dot product of the
    triangle's unit normal with (1/sqrt 3, 1/sqrt 3, 1/sqrt 3)", normalised
    in the same way. *)
Definition diagonality01_claimed (t : TexturedTriangle) : option R :=
  match normalize (normal t) with
  | None => None
  | Some n => Some ((Rabs (dotr n diagonal3) - sqrtThird) / (1 - sqrtThird))%R
  end.

(** A triangle that contains the diagonal of the x-y plane: its normal is
    (100, -100, 0) and its bounding box is 10 x 10 x 10. *)
Definition tri_skew : TexturedTriangle :=
  mkTT (mkVec3 0 0 0) (mkVec3 10 10 0) (mkVec3 0 0 10)
       (mkVec2 0 0) (mkVec2 1 0) (mkVec2 0 1).

(** The contributions of the sub-triangles of one input triangle, inserted
    into an empty map. *)
Definition contributions (inputTriangle : VisualTriangle) (subs : list TexturedTriangle)
  : gmap Vec3u WeightedColor :=
  fold_left (fun m sub => insertContributions BLEND inputTriangle sub m) subs ∅.

(** ** Vocabulary of the counter discipline *)

Definition busy (ws : list WorkerPc) : nat :=
  length (filter (fun w => holds_command w = true) ws).

(** The invariant: the threads are all there, the buffer is within its
    capacity, the counter is the number of unfinished commands, and so is
    the difference of the two history counters. *)
Definition counter_invariant (threadCount : nat) (s : System) : Prop :=
  length (workers s) = threadCount
  /\ (avail (buffer (queue s)) <= QUEUE_CAPACITY)%nat
  /\ commandCounter (queue s) = N.of_nat (unfinished s)
  /\ issued s = (finished s + unfinished s)%nat.

(** Two workers, and the main thread inside [issue(WorkerCommand::exit())]:
    the counter is incremented, the command is not in the buffer yet. *)
Definition exit_being_issued : System :=
  mkSystem (mkQueue initial_ring (counter_incr 0)) (InIssue EXIT) (repeat AtReceive 2) 1 0.

(** ** Concrete calls of the driver *)

(** Arguments that the spec calls invalid: resolution 0 and a triple that is
    not a permutation. *)
Definition invalid_args : FileVoxelization.VoxelizationArgs :=
  FileVoxelization.mkArgs 0 MAX (0, 0, 0)%N false.

Definition one_triangle_stream : FileVoxelization.ITriangleStream :=
  FileVoxelization.mkStream 3 [0; 0; 1 # 2; 2; 0; 1 # 2; 0; 2; 1 # 2]%Q [red_2x2].

Definition empty_stream : FileVoxelization.ITriangleStream :=
  FileVoxelization.mkStream 0 [] [].

(** The driver on a machine with four hardware threads, with a sink that
    counts the voxels written to it and is writable or not, and with workers
    that leave [result]. *)
Definition driver_on_4_threads (writable : bool) (result : list unit)
    (args : FileVoxelization.VoxelizationArgs) (stream : FileVoxelization.ITriangleStream)
  : FileVoxelization.Outcome unit (bool * nat) :=
  FileVoxelization.voxelize unit (fun _ _ _ _ => tt) 4 unit (fun _ _ => result)
    (fun l _ => l) (bool * nat) fst (fun _ sink => (fst sink, S (snd sink)))
    (fun sink => sink) args stream (writable, 0%nat).

(** ** Vocabulary of the interpolation *)

(** The point of a triangle with the barycentric weights [a], [b], [c], and
    the UV coordinates with the same weights. *)
Definition bary3 (t : TexturedTriangle) (a b c : Q) : Vec3 :=
  mkVec3 (a * v3x (tv0 t) + b * v3x (tv1 t) + c * v3x (tv2 t))
         (a * v3y (tv0 t) + b * v3y (tv1 t) + c * v3y (tv2 t))
         (a * v3z (tv0 t) + b * v3z (tv1 t) + c * v3z (tv2 t)).

Definition bary2 (t : TexturedTriangle) (a b c : Q) : Vec2 :=
  mkVec2 (a * v2x (tt0 t) + b * v2x (tt1 t) + c * v2x (tt2 t))
         (a * v2y (tt0 t) + b * v2y (tt1 t) + c * v2y (tt2 t)).

(** Equality of rational vectors, component by component. *)
Definition veq3 (p q : Vec3) : Prop :=
  (v3x p == v3x q /\ v3y p == v3y q /\ v3z p == v3z q)%Q.

Definition veq2 (p q : Vec2) : Prop :=
  (v2x p == v2x q /\ v2y p == v2y q)%Q.

(** [p] is a point of the triangle [t] and [uv] is the texture coordinate
    that the linear interpolation over [t] gives it. *)
Definition interpolated (t : TexturedTriangle) (p : Vec3) (uv : Vec2) : Prop :=
  exists a b c : Q,
    (0 <= a /\ 0 <= b /\ 0 <= c /\ a + b + c == 1)%Q
    /\ veq3 p (bary3 t a b c) /\ veq2 uv (bary2 t a b c).

(** Every corner of [f] is a point of [t] with its interpolated UV. *)
Definition fragment_of (t f : TexturedTriangle) : Prop :=
  forall i : nat, interpolated t (vertex f i) (texture f i).






(** ** Vocabulary of the voxel loops *)

(** [pos] is in the box that the three loops of [voxelizeSubTriangle] run
    over: from [vmin], inclusive, to [vmax], exclusive, on every axis. *)
Definition in_box (vmin vmax pos : Vec3u) : bool :=
  ((ux vmin <=? ux pos) && (ux pos <? ux vmax)
   && (uy vmin <=? uy pos) && (uy pos <? uy vmax)
   && (uz vmin <=? uz pos) && (uz pos <? uz vmax))%N.

(** What a cell of the map holds once a colour has been blended into it. *)
Definition blended (old : option WeightedColor) (c : WeightedColor) : WeightedColor :=
  match old with None => c | Some incumbent => mix incumbent c end.

(** Every weight that the map holds is positive and a whole multiple of [a]. *)
Definition whole_weights (a : R) (m : gmap Vec3u WeightedColor) : Prop :=
  forall pos c, m !! pos = Some c ->
    (0 < weight c)%R /\ exists n : nat, weight c = (INR n * a)%R.

(** ** The rest of the ring buffer (threading.hpp, lines 47 to 65 and 125 to 134) *)

Section RingBufferRest.
Context {T : Type}.
Variable capacity : nat.

(** [clear()]: [r = w = avail = 0]; the array keeps what it holds. *)
Definition rb_clear (b : RingBuffer T) : RingBuffer T := mkRing (content b) 0 0 0.

(** [peek()]: [content[r]]. *)
Definition rb_peek (d : T) (b : RingBuffer T) : T := nth (rb_r b) (content b) d.

(** [size()] *)
Definition rb_size (b : RingBuffer T) : nat := avail b.

(** [tryPop(out)] of the asynchronous wrapper: the flag it returns, [out]
    and the buffer after the call. *)
Definition rb_tryPop (out : T) (b : RingBuffer T) : bool * T * RingBuffer T :=
  if rb_empty b then (false, out, b)
  else (true, fst (rb_pop capacity out b), snd (rb_pop capacity out b)).

(** The slot of the [j]-th element in the order of arrival, and the elements
    that the buffer holds, the least recently pushed one first. *)
Definition rb_slot (b : RingBuffer T) (j : nat) : nat := ((rb_r b + 1 + j) mod capacity)%nat.

Definition rb_queue (d : T) (b : RingBuffer T) : list T :=
  map (fun j => nth (rb_slot b j) (content b) d) (seq 0 (avail b)).

(** The array has [capacity] slots, the indices are within it, and the write
    index is [avail] slots ahead of the read index. *)
Definition rb_wf (b : RingBuffer T) : Prop :=
  (0 < capacity)%nat /\ length (content b) = capacity /\ (avail b <= capacity)%nat
  /\ (rb_r b < capacity)%nat /\ rb_w b = ((rb_r b + avail b) mod capacity)%nat.

End RingBufferRest.

(** A buffer of capacity 4 that holds 7 and 8, after 5 and 6 were popped. *)
Definition ring_7_8 : RingBuffer nat := mkRing [8; 5; 6; 7]%nat 2 0 2.

(** ** The history of a run of the queue *)

(** What has gone through the buffer so far: the commands that the main
    thread has pushed, and those that the workers have popped, in order. *)
Record History := mkHistory {
  pushed : list WorkerCommand;
  received : list WorkerCommand }.

(** The command that a step pushes: the main thread leaves [issue]. *)
Definition pushed_by (s s' : System) : list WorkerCommand :=
  match mainpc s, mainpc s' with
  | InIssue c, MainRunning => [c]
  | _, _ => []
  end.

(** The command that a step pops: the buffer holds one element less. *)
Definition received_by (s s' : System) : list WorkerCommand :=
  if (avail (buffer (queue s')) <? avail (buffer (queue s)))%nat
  then [fst (rb_pop QUEUE_CAPACITY EXIT (buffer (queue s)))]
  else [].

(** The reachable states, each with the history of the steps that lead to it. *)
Inductive traced (threadCount : nat) : System -> History -> Prop :=
| traced_initial : traced threadCount (initial threadCount) (mkHistory [] [])
| traced_step s s' h :
    traced threadCount s h -> step s s' ->
    traced threadCount s'
      (mkHistory (pushed h ++ pushed_by s s') (received h ++ received_by s s')).






(** One worker, and the main thread has issued [c]: the counter is 1 and the
    command is in the buffer. *)
Definition one_issued (c : WorkerCommand) : System :=
  mkSystem (mkQueue (rb_push QUEUE_CAPACITY c initial_ring) (counter_incr 0))
           MainRunning (repeat AtReceive 1) 1 0.

(** ** Merging the maps of the workers (filevoxelization.cpp, lines 138 to 171) *)

Abbreviation VoxelMap := (gmap Vec3u WeightedColor).

(** [voxels().empty()] *)
Definition map_is_empty (m : VoxelMap) : bool := (size m =? 0)%nat.

(** The map that a pointer designates; a pointer to the map of a worker is
    the index of the worker in [threads]. *)
Definition map_at (maps : list VoxelMap) (i : nat) : VoxelMap := nth i maps ∅.

(** One iteration of the [for] loop over the threads.  The state is
    [mergeTarget] ([None] is [nullptr]) and the [MERGE_MAPS] commands issued
    so far, each as the pair of its target and its source; [mergeSource] is
    [nullptr] between two iterations. *)
Definition mergeScan_step (maps : list VoxelMap) (st : option nat * list (nat * nat))
    (i : nat) : option nat * list (nat * nat) :=
  if map_is_empty (map_at maps i) then st
  else
    match fst st with
    | None => (Some i, snd st)
    | Some mergeTarget =>
        let mergeSource := i in
        let '(mergeTarget, mergeSource) :=
          if (size (map_at maps mergeTarget) <? size (map_at maps mergeSource))%nat
          then (mergeSource, mergeTarget) else (mergeTarget, mergeSource) in
        (None, snd st ++ [(mergeTarget, mergeSource)])
    end.

(** One pass over the threads. *)
Definition mergeScan (maps : list VoxelMap) : option nat * list (nat * nat) :=
  fold_left (mergeScan_step maps) (seq 0 (length maps)) (None, []).

(** Modelled from the spec: [Voxelizer::merge(target, source)], "for each
    (pos, color) in source, combine into target under the strategy"; the keys
    of a map are unique, so that the order of the iteration does not matter. *)
Definition merge (strategy : ColorStrategy) (target source : VoxelMap) : VoxelMap :=
  union_with (fun incumbent c => Some (combine strategy incumbent c)) target source.

(** What a worker does with a [MERGE_MAPS] command: the merge, then
    [source->clear()]. *)
Definition run_merge (strategy : ColorStrategy) (maps : list VoxelMap) (c : nat * nat)
  : list VoxelMap :=
  <[snd c := ∅]> (<[fst c := merge strategy (map_at maps (fst c)) (map_at maps (snd c))]> maps).

(** [mergeVoxelMaps]: the passes of the [while (true)] loop, each followed by
    [waitForCompletion()], after which the commands of the pass have run;
    [fuel] bounds the number of passes. *)
Fixpoint mergeVoxelMaps (fuel : nat) (strategy : ColorStrategy) (maps : list VoxelMap)
  : option VoxelMap :=
  match fuel with
  | O => None
  | S fuel' =>
      let '(mergeTarget, commands) := mergeScan maps in
      let commandsIssued := length commands in
      if (commandsIssued =? 0)%nat then
        Some (match mergeTarget with None => ∅ | Some t => map_at maps t end)
      else mergeVoxelMaps fuel' strategy (fold_left (run_merge strategy) commands maps)
  end.

(** ** Vocabulary of the merge *)

(** The maps that a pass has dealt with: those named by a command, and the
    pending target. *)
Definition paired (commands : list (nat * nat)) : list nat :=
  flat_map (fun c => [fst c; snd c]) commands.

Definition pending (mergeTarget : option nat) : list nat :=
  match mergeTarget with Some t => [t] | None => [] end.

(** The number of maps that are not empty. *)
Definition nonempty_count (maps : list VoxelMap) : nat :=
  list_sum (map (fun m => if map_is_empty m then 0%nat else 1%nat) maps).

(** Some worker's map has a voxel at [pos]. *)
Definition covers (maps : list VoxelMap) (pos : Vec3u) : Prop :=
  exists i, (i < length maps)%nat /\ is_Some (map_at maps i !! pos).

(** The maps of four workers, the third one empty. *)
Definition four_maps : list VoxelMap :=
  [out_with_origin; out_with_origin; ∅; out_with_origin].

(** ** The names of the colour strategies (voxelization.hpp, lines 31 to 48) *)

Module ColorStrategyNames.
Import String.

Definition nameOf (strategy : ColorStrategy) : string :=
  match strategy with MAX => "MAX" | BLEND => "BLEND" end.

(** [parseColorStrategy(str, out)]: the flag it returns, and [out] after the
    call. *)
Definition parseColorStrategy (str : string) (out : ColorStrategy) : bool * ColorStrategy :=
  if String.eqb str "MAX" then (true, MAX)
  else if String.eqb str "BLEND" then (true, BLEND)
  else (false, out).

End ColorStrategyNames.

(** ** Vocabulary of the driver *)

(** The main thread has called [issue(c)] on a queue without workers. *)
Definition issued_without_workers (c : WorkerCommand) : System :=
  mkSystem (mkQueue initial_ring (counter_incr 0)) (InIssue c) [] 1 0.

(** ** The plane-distance test as a switch *)




(** ** Vocabulary of the whole triangle *)

(** The voxel at [pos] gets a colour from the sub-triangle: it is in the
    integer bounding box, passes the cull, and its weight is not zero. *)
Definition reaches (inputTriangle : VisualTriangle) (subTriangle : TexturedTriangle)
    (pos : Vec3u) : bool :=
  in_box (voxelMin subTriangle) (voxelMax subTriangle) pos
  && contributes inputTriangle subTriangle pos.

(** ** The command-line front end (main.cpp, lines 257 to 403) *)

Module Main.

Section Conversion.

(** Absent from the sources: the list writers of voxelio.  [Writer] is the
    state of the writer with its canvas set, [insert_palette] is
    [palette().insert(color.toColor32())], [make_voxel] builds the
    [Voxel32] of a map entry (with the palette index of its colour or with
    the colour itself), and [writer_write] is [write(buffer, n)]: whether the
    result code is good, and the writer after the call. *)
Variable Voxel32 : Type.
Variable Writer : Type.
Variable insert_palette : WeightedColor -> Writer -> Writer.
Variable make_voxel : bool -> Writer -> Vec3u * WeightedColor -> Voxel32.
Variable writer_write : list Voxel32 -> Writer -> bool * Writer.
Variable VOXEL_BUFFER_32_SIZE : nat.






End Conversion.

End Main.


(** Every colour that the map holds has a positive weight and the value [c]. *)
Definition uniform_colour (c : Vec3r) (m : gmap Vec3u WeightedColor) : Prop :=
  forall pos col, m !! pos = Some col -> (0 < weight col)%R /\ value col = c.



(** * Theorems *)

(** ** Comparisons on [Q] *)

Lemma Qltb_lt (x y : Q) : Qltb x y = true <-> (x < y)%Q.
Proof.
  unfold Qltb. rewrite negb_true_iff. split.
  - intros H. apply Qnot_le_lt. intros Hle. apply Qle_bool_iff in Hle. congruence.
  - intros H. destruct (Qle_bool y x) eqn:E; [|reflexivity].
    apply Qle_bool_iff in E. exfalso. exact (Qlt_not_le _ _ H E).
Qed.

Lemma Qltb_ge (x y : Q) : Qltb x y = false <-> (y <= x)%Q.
Proof.
  unfold Qltb. rewrite negb_false_iff. apply Qle_bool_iff.
Qed.

Lemma Qle_bool_gt (x y : Q) : Qle_bool x y = false <-> (y < x)%Q.
Proof.
  split.
  - intros H. apply Qnot_le_lt. intros Hle. apply Qle_bool_iff in Hle. congruence.
  - intros H. destruct (Qle_bool x y) eqn:E; [|reflexivity].
    apply Qle_bool_iff in E. exfalso. exact (Qlt_not_le _ _ H E).
Qed.

(** The classification in the spec's words. *)
Lemma classify_spec (axis : nat) (plane : N) (v : Vec3) :
  let x := vidx v axis in
  let k := real_of_unsigned plane in
  match classify axis plane v with
  | Planar => (Qabs (x - k) < EPSILON)%Q
  | Lo => (EPSILON <= Qabs (x - k))%Q /\ (x <= k)%Q
  | Hi => (EPSILON <= Qabs (x - k))%Q /\ (k < x)%Q
  end.
Proof.
  unfold classify. cbv zeta.
  destruct (Qltb _ EPSILON) eqn:E1.
  - now apply Qltb_lt.
  - apply Qltb_ge in E1.
    destruct (Qle_bool _ _) eqn:E2.
    + split; [exact E1 | now apply Qle_bool_iff].
    + split; [exact E1 | now apply Qle_bool_gt].
Qed.



(** ** Areas of the pieces of a split *)

Lemma area_area3 t : area t = area3 (tv0 t) (tv1 t) (tv2 t).
Proof. reflexivity. Qed.

Lemma n2_rot1 a b c : (n2 b c a == n2 a b c)%Q.
Proof. unfold n2, dotq, cross, vsub; cbn. ring. Qed.

Lemma n2_rot2 a b c : (n2 c a b == n2 a b c)%Q.
Proof. unfold n2, dotq, cross, vsub; cbn. ring. Qed.

Lemma n2_iso V A B s u :
  (n2 V (mix3 V A s) (mix3 V B u) == (s * u) * (s * u) * n2 V A B)%Q.
Proof. unfold n2, dotq, cross, vsub, mix3, mixq; cbn. ring. Qed.

Lemma n2_quad1 V A B s :
  (n2 (mix3 V A s) A B == (1 - s) * (1 - s) * n2 V A B)%Q.
Proof. unfold n2, dotq, cross, vsub, mix3, mixq; cbn. ring. Qed.

Lemma n2_quad2 V A B s u :
  (n2 (mix3 V A s) (mix3 V B u) B == (s * (1 - u)) * (s * (1 - u)) * n2 V A B)%Q.
Proof. unfold n2, dotq, cross, vsub, mix3, mixq; cbn. ring. Qed.

Lemma n2_fan1 P A B s :
  (n2 P A (mix3 A B s) == s * s * n2 P A B)%Q.
Proof. unfold n2, dotq, cross, vsub, mix3, mixq; cbn. ring. Qed.

Lemma n2_fan2 P A B s :
  (n2 P (mix3 A B s) B == (1 - s) * (1 - s) * n2 P A B)%Q.
Proof. unfold n2, dotq, cross, vsub, mix3, mixq; cbn. ring. Qed.

Lemma area3_scale X Y Z V A B (l : Q) :
  (n2 X Y Z == l * l * n2 V A B)%Q -> (0 <= l)%Q ->
  area3 X Y Z = (Q2R l * area3 V A B)%R.
Proof.
  intros E Hl. unfold area3. rewrite (Qeq_eqR _ _ E), !Q2R_mult.
  assert (0 <= Q2R l)%R by (rewrite <- RMicromega.Q2R_0; now apply Qle_Rle).
  rewrite sqrt_mult_alt by nra.
  rewrite sqrt_square by assumption. lra.
Qed.

Lemma area3_rot1 a b c : area3 b c a = area3 a b c.
Proof. unfold area3. now rewrite (Qeq_eqR _ _ (n2_rot1 a b c)). Qed.

Lemma area3_rot2 a b c : area3 c a b = area3 a b c.
Proof. unfold area3. now rewrite (Qeq_eqR _ _ (n2_rot2 a b c)). Qed.

Lemma regular_split_area V A B s u :
  (0 <= s <= 1)%Q -> (0 <= u <= 1)%Q ->
  (area3 V (mix3 V A s) (mix3 V B u) + area3 (mix3 V A s) A B
   + area3 (mix3 V A s) (mix3 V B u) B = area3 V A B)%R.
Proof.
  intros [Hs0 Hs1] [Hu0 Hu1].
  rewrite (area3_scale _ _ _ _ _ _ _ (n2_iso V A B s u)) by nra.
  rewrite (area3_scale _ _ _ _ _ _ _ (n2_quad1 V A B s)) by lra.
  rewrite (area3_scale _ _ _ _ _ _ _ (n2_quad2 V A B s u)) by nra.
  rewrite !Q2R_mult, !Q2R_minus. rewrite RMicromega.Q2R_1. ring.
Qed.

Lemma fan_split_area P A B s :
  (0 <= s <= 1)%Q ->
  (area3 P A (mix3 A B s) + area3 P (mix3 A B s) B = area3 P A B)%R.
Proof.
  intros [Hs0 Hs1].
  rewrite (area3_scale _ _ _ _ _ _ _ (n2_fan1 P A B s)) by lra.
  rewrite (area3_scale _ _ _ _ _ _ _ (n2_fan2 P A B s)) by lra.
  rewrite !Q2R_minus. rewrite RMicromega.Q2R_1. ring.
Qed.

Lemma vidx_vsub a b i : vidx (vsub a b) i = (vidx a i - vidx b i)%Q.
Proof. destruct i as [|[|i]]; reflexivity. Qed.

Lemma vidx_mix3 a b s i : vidx (mix3 a b s) i = mixq (vidx a i) (vidx b i) s.
Proof. destruct i as [|[|i]]; reflexivity. Qed.

Lemma nonplanar_lo (x k : Q) : (EPSILON <= Qabs (x - k))%Q -> (x <= k)%Q -> (x <= k - EPSILON)%Q.
Proof.
  intros H Hle. rewrite Qabs_neg in H by lra. lra.
Qed.

Lemma nonplanar_hi (x k : Q) : (EPSILON <= Qabs (x - k))%Q -> (k < x)%Q -> (k + EPSILON <= x)%Q.
Proof.
  intros H Hlt. rewrite Qabs_pos in H by lra. lra.
Qed.

Lemma intersect_between (V A : Vec3) (axis : nat) (plane : N) :
  let x := vidx V axis in
  let y := vidx A axis in
  let k := real_of_unsigned plane in
  let s := intersect_ray_axisPlane V (vsub A V) axis plane in
  ((x <= k - EPSILON /\ k + EPSILON <= y) \/ (k + EPSILON <= x /\ y <= k - EPSILON))%Q ->
  (0 <= s <= 1)%Q /\ (vidx (mix3 V A s) axis == k)%Q.
Proof.
  intros x y k s H. subst s. unfold intersect_ray_axisPlane.
  rewrite vidx_vsub, vidx_mix3. fold x y k.
  assert (He : (0 < EPSILON)%Q) by reflexivity.
  assert (Hz : isZero (- (y - x)) = false).
  { unfold isZero. apply Qltb_ge.
    destruct H as [[H1 H2]|[H1 H2]].
    - rewrite Qabs_neg by lra. lra.
    - rewrite Qabs_pos by lra. lra. }
  rewrite Hz.
  set (s := ((x - k) / - (y - x))%Q).
  assert (Hs : (s * (x - y) == x - k)%Q).
  { subst s. field. destruct H as [[H1 H2]|[H1 H2]]; lra. }
  unfold mixq.
  destruct H as [[H1 H2]|[H1 H2]]; (split; [split|]); nra.
Qed.

Lemma area_mk a b c ta tb tc : area (mkTT a b c ta tb tc) = area3 a b c.
Proof. reflexivity. Qed.

Ltac side_facts :=
  repeat match goal with
  | H : Qltb _ _ = true |- _ => apply Qltb_lt in H; apply Qabs_Qlt_condition in H
  | H : Qltb _ _ = false |- _ => apply Qltb_ge in H
  | H : Qle_bool _ _ = true |- _ => apply Qle_bool_iff in H
  | H : Qle_bool _ _ = false |- _ => apply Qle_bool_gt in H
  end;
  repeat match goal with
  | H : (EPSILON <= Qabs (?x - ?k))%Q, H' : (?x <= ?k)%Q |- _ =>
      pose proof (nonplanar_lo _ _ H H'); clear H
  | H : (EPSILON <= Qabs (?x - ?k))%Q, H' : (?k < ?x)%Q |- _ =>
      pose proof (nonplanar_hi _ _ H H'); clear H
  end.

(** The pieces of a split without discarding add up to the triangle, exactly,
    and lie on their side of the plane up to [EPSILON]. *)
Lemma split_exact (t : TexturedTriangle) (axis : nat) (plane : N) :
  let s := splitTriangle NONE axis plane t Buf1 Buf2 empty_buffers in
  let k := real_of_unsigned plane in
  sum_area (buf1 s ++ buf2 s) = area t
  /\ (forall f, In f (buf1 s) -> forall i, (vidx (vertex f i) axis <= k + EPSILON)%Q)
  /\ (forall f, In f (buf2 s) -> forall i, (k - EPSILON <= vidx (vertex f i) axis)%Q).
Proof.
  cbv beta iota zeta delta
    [splitTriangle splitTriangle_body eq_plane isZero vertex texture].
  destruct (Qltb (Qabs (vidx (tv0 t) axis - real_of_unsigned plane)) EPSILON) eqn:P0;
  destruct (Qltb (Qabs (vidx (tv1 t) axis - real_of_unsigned plane)) EPSILON) eqn:P1;
  destruct (Qltb (Qabs (vidx (tv2 t) axis - real_of_unsigned plane)) EPSILON) eqn:P2;
  destruct (Qle_bool (vidx (tv0 t) axis) (real_of_unsigned plane)) eqn:L0;
  destruct (Qle_bool (vidx (tv1 t) axis) (real_of_unsigned plane)) eqn:L1;
  destruct (Qle_bool (vidx (tv2 t) axis) (real_of_unsigned plane)) eqn:L2;
  cbn -[area mix3 mix2 intersect_ray_axisPlane vsub Qle Qlt Qplus Qminus real_of_unsigned EPSILON];
  rewrite ?L0, ?L1, ?L2;
  cbn -[area mix3 mix2 intersect_ray_axisPlane vsub Qle Qlt Qplus Qminus real_of_unsigned EPSILON].
  all: side_facts.
  all: repeat match goal with
       | |- context [mix3 ?V ?A (intersect_ray_axisPlane ?V (vsub ?A ?V) ?ax ?pl)] =>
           let Hi := fresh "Hi" in
           pose proof (intersect_between V A ax pl) as Hi; cbv zeta in Hi;
           let H := fresh in
           match type of Hi with ?P -> _ => 
              assert (H : P) by (first [left; split; lra | right; split; lra]) end;
           specialize (Hi H);
           destruct Hi as [? ?];
           set (intersect_ray_axisPlane V (vsub A V) ax pl) in *
       end.
  all: split; [|split].
  all: try (rewrite ?area_mk, (area_area3 t);
            try match goal with
                | |- context [area3 ?V (mix3 ?V ?A ?s) (mix3 ?V ?B ?u)] =>
                    pose proof (regular_split_area V A B s u ltac:(assumption) ltac:(assumption))
                | |- context [area3 ?P ?A (mix3 ?A ?B ?s)] =>
                    pose proof (fan_split_area P A B s ltac:(assumption))
                end;
            pose proof (area3_rot1 (tv0 t) (tv1 t) (tv2 t));
            pose proof (area3_rot2 (tv0 t) (tv1 t) (tv2 t));
            lra).
  all: assert (0 < EPSILON)%Q by reflexivity.
  all: intros f Hin i; repeat (destruct Hin as [<-|Hin]); try contradiction;
       destruct i as [|[|i]]; cbn [vertex tv0 tv1 tv2]; lra.
Qed.


(** ** Buffers *)

Lemma buf_get_set_eq r l s : buf_get r (buf_set r l s) = l.
Proof. destruct r; reflexivity. Qed.

Lemma buf_get_set_ne r r' l s : r <> r' -> buf_get r (buf_set r' l s) = buf_get r s.
Proof. destruct r, r'; intros H; try reflexivity; now contradiction H. Qed.

Lemma buf_set_set r l l' s : buf_set r l (buf_set r l' s) = buf_set r l s.
Proof. destruct r; reflexivity. Qed.

Lemma buf_set_get r s : buf_set r (buf_get r s) s = s.
Proof. destruct r, s; reflexivity. Qed.

Lemma buf_set_comm r r' l l' s :
  r <> r' -> buf_set r l (buf_set r' l' s) = buf_set r' l' (buf_set r l s).
Proof. destruct r, r'; intros H; try reflexivity; now contradiction H. Qed.

(** ** The splitter as a sequence of pushes *)

Lemma splitTriangle_body_calls {S : Type} (push : TexturedTriangle -> bool -> S -> S)
    (axis : nat) (plane : N) (t : TexturedTriangle) (s : S) :
  splitTriangle_body push axis plane t s
  = fold_left (fun s' c => push (fst c) (snd c) s') (splitCalls axis plane t) s.
Proof.
  unfold splitCalls, splitTriangle_body.
  repeat match goal with
         | |- context [if ?c then _ else _] =>
             match c with
             | context [if _ then _ else _] => fail 1
             | _ => destruct c
             end
         end; reflexivity.
Qed.

Lemma push_aliased mode r f lo s :
  pushLoIfTrueElseHi mode r r f lo s
  = buf_set r (buf_get r s ++ (if keeps mode lo then [f] else [])) s.
Proof.
  unfold pushLoIfTrueElseHi, push_back, keeps.
  destruct mode, lo; cbn; rewrite ?app_nil_r, ?buf_set_get; reflexivity.
Qed.

Lemma pushes_aliased mode r calls s :
  fold_left (fun s' c => pushLoIfTrueElseHi mode r r (fst c) (snd c) s') calls s
  = buf_set r (buf_get r s
               ++ flat_map (fun c => if keeps mode (snd c) then [fst c] else []) calls) s.
Proof.
  revert s. induction calls as [|c calls IH]; intros s; cbn [fold_left flat_map].
  - now rewrite app_nil_r, buf_set_get.
  - rewrite IH, push_aliased, buf_get_set_eq, buf_set_set, <- app_assoc. reflexivity.
Qed.

Lemma splitTriangle_aliased mode axis plane t r s :
  splitTriangle mode axis plane t r r s
  = buf_set r (buf_get r s ++ splitInto mode axis plane t) s.
Proof.
  unfold splitInto, splitTriangle.
  rewrite !splitTriangle_body_calls, !pushes_aliased, buf_get_set_eq. reflexivity.
Qed.

Lemma split_all_aliased mode axis plane A r s :
  fold_left (fun s' t => splitTriangle mode axis plane t r r s') A s
  = buf_set r (buf_get r s ++ flat_map (splitInto mode axis plane) A) s.
Proof.
  revert s. induction A as [|t A IH]; intros s; cbn [fold_left flat_map].
  - now rewrite app_nil_r, buf_set_get.
  - rewrite IH, splitTriangle_aliased, buf_get_set_eq, buf_set_set, <- app_assoc. reflexivity.
Qed.

(** ** Separate output vectors *)

Lemma pushes_separate (outLo outHi : BufId) (calls : list (TexturedTriangle * bool))
    (s : Buffers) :
  outLo <> outHi ->
  let s' := fold_left (fun s' c => pushLoIfTrueElseHi NONE outLo outHi (fst c) (snd c) s')
                      calls s in
  buf_get outLo s' = buf_get outLo s ++ sorted_lo calls
  /\ buf_get outHi s' = buf_get outHi s ++ sorted_hi calls.
Proof.
  intros Hne. revert s. induction calls as [|[f lo] calls IH]; intros s; cbn zeta.
  - cbn. now rewrite !app_nil_r.
  - cbn [fold_left fst snd]. destruct (IH (pushLoIfTrueElseHi NONE outLo outHi f lo s)) as [H1 H2].
    rewrite H1, H2. unfold pushLoIfTrueElseHi, push_back, sorted_lo, sorted_hi.
    destruct lo; cbn [List.filter snd negb map fst].
    + rewrite buf_get_set_eq, buf_get_set_ne by congruence.
      now rewrite <- app_assoc.
    + rewrite buf_get_set_eq, buf_get_set_ne by congruence.
      now rewrite <- app_assoc.
Qed.

Lemma splitTriangle_separate (axis : nat) (plane : N) (t : TexturedTriangle)
    (outLo outHi : BufId) (s : Buffers) :
  outLo <> outHi ->
  let s' := splitTriangle NONE axis plane t outLo outHi s in
  buf_get outLo s' = buf_get outLo s ++ sorted_lo (splitCalls axis plane t)
  /\ buf_get outHi s' = buf_get outHi s ++ sorted_hi (splitCalls axis plane t).
Proof.
  intros Hne. unfold splitTriangle. rewrite splitTriangle_body_calls.
  now apply pushes_separate.
Qed.

Lemma split_exact_calls (t : TexturedTriangle) (axis : nat) (plane : N) :
  let lo := sorted_lo (splitCalls axis plane t) in
  let hi := sorted_hi (splitCalls axis plane t) in
  let k := real_of_unsigned plane in
  sum_area (lo ++ hi) = area t
  /\ (forall f, In f lo -> forall i, (vidx (vertex f i) axis <= k + EPSILON)%Q)
  /\ (forall f, In f hi -> forall i, (k - EPSILON <= vidx (vertex f i) axis)%Q).
Proof.
  destruct (splitTriangle_separate axis plane t Buf1 Buf2 empty_buffers) as [H1 H2];
    [discriminate|].
  cbn [buf_get empty_buffers buf1 buf2 app] in H1, H2.
  pose proof (split_exact t axis plane) as H. cbv zeta in H.
  rewrite H1, H2 in H. exact H.
Qed.



(** ** The rounds of [voxelizeVoxel] *)

Lemma voxelizeVoxel_rounds_clip rounds pos pre post s :
  pre <> post -> buf_get post s = [] ->
  voxelizeVoxel_rounds rounds pos pre post s
  = match clip splittingFunction pos rounds (buf_get pre s) with
    | None => inl (cleared pre post s)
    | Some fragments =>
        let '(pre', post') := if Nat.even (length rounds) then (pre, post) else (post, pre) in
        inr (pre', post', buf_set pre' fragments (cleared pre post s))
    end.
Proof.
  revert pre post s. induction rounds as [|[hi axis] rounds IH]; intros pre post s Hne Hpost.
  - destruct pre, post, s; cbn in *; subst; try reflexivity; now contradiction Hne.
  - cbn [voxelizeVoxel_rounds clip].
    rewrite split_all_aliased, Hpost, app_nil_l.
    rewrite (buf_get_set_ne post pre) by congruence.
    rewrite buf_get_set_eq.
    destruct (flat_map _ (buf_get pre s)) as [|b B] eqn:EB.
    + f_equal. unfold cleared. apply buf_set_comm. congruence.
    + rewrite IH; [|congruence|].
      2:{ now rewrite buf_get_set_eq. }
      rewrite (buf_get_set_ne post pre) by congruence.
      rewrite buf_get_set_eq.
      assert (Hc : cleared post pre (buf_set pre [] (buf_set post (b :: B) s))
                   = cleared pre post s).
      { unfold cleared. destruct pre, post, s; try reflexivity; now contradiction Hne. }
      rewrite Hc.
      destruct (clip _ _ rounds (b :: B)); [|reflexivity].
      cbn [length]. rewrite Nat.even_succ, <- Nat.negb_even.
      destruct (Nat.even (length rounds)); reflexivity.
Qed.

Lemma weight_accumulate_from input fragments acc :
  weight (fold_left (fun result t =>
                       mix result (mkWC (area (vt_triangle input))
                                        (colorAt_f input (textureCenter t))))
                    fragments acc)
  = (weight acc + INR (length fragments) * area (vt_triangle input))%R.
Proof.
  revert acc. induction fragments as [|f fragments IH]; intros acc.
  - cbn. lra.
  - cbn [fold_left]. rewrite IH. cbn [length mix weight]. rewrite S_INR. lra.
Qed.

Lemma weight_accumulate input fragments :
  weight (accumulate input fragments)
  = (INR (length fragments) * area (vt_triangle input))%R.
Proof.
  unfold accumulate. rewrite weight_accumulate_from. cbn. lra.
Qed.

(** [voxelizeVoxel] on distinct scratch vectors, the second one empty: the
    six cuts of the pure [clip], then the accumulation; both vectors end empty. *)
Lemma voxelizeVoxel_clip
    (inputTriangle : VisualTriangle) (pos : Vec3u) (preSplitBuffer postSplitBuffer : BufId)
    (s : Buffers) :
  preSplitBuffer <> postSplitBuffer ->
  buf_get postSplitBuffer s = [] ->
  voxelizeVoxel inputTriangle pos preSplitBuffer postSplitBuffer s
  = (clipResult select_far_side inputTriangle pos (buf_get preSplitBuffer s),
     cleared preSplitBuffer postSplitBuffer s).
Proof.
  intros Hne Hpost. unfold voxelizeVoxel, clipResult.
  rewrite voxelizeVoxel_rounds_clip by assumption.
  change clipRounds with sixPlanes.
  change splittingFunction with select_far_side.
  destruct (clip select_far_side pos sixPlanes (buf_get preSplitBuffer s)) as [fragments|];
    [|reflexivity].
  cbn [length sixPlanes Nat.even]. rewrite buf_get_set_eq, buf_set_set.
  f_equal. unfold cleared.
  rewrite (buf_set_comm preSplitBuffer postSplitBuffer) by assumption.
  now rewrite buf_set_set.
Qed.

(** ** The clipper at a concrete voxel *)

Lemma area_of_square (t : TexturedTriangle) (r : Q) :
  (0 <= r)%Q -> (n2 (tv0 t) (tv1 t) (tv2 t) == r * r)%Q -> area t = (Q2R r / 2)%R.
Proof.
  intros Hr E. change (area t) with (sqrt (Q2R (n2 (tv0 t) (tv1 t) (tv2 t))) / 2)%R.
  rewrite (Qeq_eqR _ _ E), Q2R_mult, sqrt_square; [reflexivity|].
  rewrite <- RMicromega.Q2R_0. now apply Qle_Rle.
Qed.

Lemma area_tri_2x2 : area tri_2x2 = 2%R.
Proof.
  rewrite (area_of_square tri_2x2 4); [| discriminate | reflexivity].
  unfold Q2R; cbn. lra.
Qed.

Lemma clip_tri_2x2 :
  clip select_far_side (0, 0, 0)%N sixPlanes [tri_2x2] = Some square_fragments.
Proof. vm_compute. reflexivity. Qed.

Lemma sum_area_square_fragments : sum_area square_fragments = 1%R.
Proof.
  unfold square_fragments, sum_area, fold_right.
  rewrite !(area_of_square _ 1); try discriminate; try reflexivity.
  unfold Q2R; cbn. lra.
Qed.

Lemma weight_origin_call : weight (fst origin_call) = 4%R.
Proof.
  unfold origin_call.
  rewrite voxelizeVoxel_clip; [| discriminate | reflexivity].
  cbn [fst]. unfold clipResult.
  change (buf_get Buf1 (push_back Buf1 tri_2x2 empty_buffers)) with [tri_2x2].
  rewrite clip_tri_2x2, weight_accumulate.
  change (vt_triangle red_2x2) with tri_2x2. rewrite area_tri_2x2.
  cbn. lra.
Qed.

(** C1, at the failing input.  The triangle [tri_2x2] meets the unit cube at
    the origin in the unit square: the surviving fragments have total area 1,
    and the weight that [voxelizeVoxel] returns is 4, the area of the whole
    input triangle once per fragment. *)
Theorem voxelizeVoxel_weight_is_not_clipped_area :
  clip select_far_side (0, 0, 0)%N sixPlanes [tri_2x2] = Some square_fragments
  /\ sum_area square_fragments = 1%R
  /\ weight (fst origin_call) = 4%R.
Proof.
  split; [exact clip_tri_2x2|]. split; [exact sum_area_square_fragments|].
  exact weight_origin_call.
Qed.

(** What the source computes in general: every surviving fragment adds the
    area of the whole input triangle. *)
Lemma voxelizeVoxel_weight (inputTriangle : VisualTriangle) (pos : Vec3u) (pre post : BufId)
    (s : Buffers) (fragments : list TexturedTriangle) :
  pre <> post -> buf_get post s = [] ->
  clip select_far_side pos sixPlanes (buf_get pre s) = Some fragments ->
  weight (fst (voxelizeVoxel inputTriangle pos pre post s))
  = (INR (length fragments) * area (vt_triangle inputTriangle))%R.
Proof.
  intros Hne Hpost Hclip. rewrite voxelizeVoxel_clip by assumption.
  cbn [fst]. unfold clipResult. rewrite Hclip. apply weight_accumulate.
Qed.

Lemma clip_claimed_tri_2x2 :
  clip select_claimed (0, 0, 0)%N sixPlanes [tri_2x2] = None.
Proof. vm_compute. reflexivity. Qed.

(** C2, as the claim words it: with [DISCARD_LO] at the high planes and
    [DISCARD_HI] at the low planes the first cut already discards
    [tri_2x2], and the result would be the zero colour; the source returns
    weight 4. *)
Lemma voxelizeVoxel_claimed_selection_fails :
  fst origin_call <> clipResult select_claimed red_2x2 (0, 0, 0)%N [tri_2x2].
Proof.
  intros E. apply (f_equal weight) in E.
  rewrite weight_origin_call in E. unfold clipResult in E.
  rewrite clip_claimed_tri_2x2 in E. cbn in E. lra.
Qed.

(** C2, amended.  On distinct scratch vectors of which the second is empty,
    [voxelizeVoxel] cuts the content of the first with the six planes
    [pos[a] + side], side low before side high and the axes in order, with
    [DISCARD_LO] at the low planes and [DISCARD_HI] at the high planes; when
    a cut leaves nothing it returns the zero colour, otherwise the colour
    accumulated over the surviving fragments. *)
Theorem voxelizeVoxel_six_plane_clip
    (inputTriangle : VisualTriangle) (pos : Vec3u) (preSplitBuffer postSplitBuffer : BufId)
    (s : Buffers) :
  preSplitBuffer <> postSplitBuffer ->
  buf_get postSplitBuffer s = [] ->
  select_far_side 0 = DISCARD_LO /\ select_far_side 1 = DISCARD_HI
  /\ fst (voxelizeVoxel inputTriangle pos preSplitBuffer postSplitBuffer s)
     = match clip select_far_side pos sixPlanes (buf_get preSplitBuffer s) with
       | None => WC_zero
       | Some fragments => accumulate inputTriangle fragments
       end.
Proof.
  intros Hne Hpost. split; [reflexivity|]. split; [reflexivity|].
  now rewrite voxelizeVoxel_clip.
Qed.

Lemma voxelizeVoxel_six_plane_clip_witness :
  Buf1 <> Buf2
  /\ buf_get Buf2 (push_back Buf1 tri_2x2 empty_buffers) = []
  /\ fst origin_call = accumulate red_2x2 square_fragments.
Proof.
  split; [discriminate|]. split; [reflexivity|].
  destruct (voxelizeVoxel_six_plane_clip red_2x2 (0, 0, 0)%N Buf1 Buf2
              (push_back Buf1 tri_2x2 empty_buffers)) as (_ & _ & H);
    [discriminate | reflexivity |].
  unfold origin_call. rewrite H.
  change (buf_get Buf1 (push_back Buf1 tri_2x2 empty_buffers)) with [tri_2x2].
  now rewrite clip_tri_2x2.
Defined.

(** ** One sub-triangle *)

Lemma cleared_push_empty pre post sub s :
  pre <> post -> buf_get pre s = [] -> buf_get post s = [] ->
  cleared pre post (push_back pre sub s) = s.
Proof.
  intros Hne Hpre Hpost.
  destruct pre, post, s; cbn in *; subst; try reflexivity; now contradiction Hne.
Qed.

Lemma voxelizeSubTriangle_step_spec input sub pre post s out pos :
  pre <> post -> buf_get pre s = [] -> buf_get post s = [] ->
  voxelizeSubTriangle_step input sub pre post (s, out) pos
  = (s, if contributes input sub pos
        then insertColor BLEND out pos (voxelColor input sub pos) else out).
Proof.
  intros Hne Hpre Hpost. unfold voxelizeSubTriangle_step, contributes.
  destruct (tooFar sub pos); [reflexivity|].
  rewrite voxelizeVoxel_clip; [|assumption|].
  2:{ unfold push_back. rewrite buf_get_set_ne by congruence. assumption. }
  rewrite cleared_push_empty by assumption.
  unfold push_back. rewrite buf_get_set_eq, Hpre. cbn [app].
  fold (voxelColor input sub pos).
  destruct (eqExactly (weight (voxelColor input sub pos)) 0); reflexivity.
Qed.

Lemma voxelizeSubTriangle_fold input sub pre post s out positions :
  pre <> post -> buf_get pre s = [] -> buf_get post s = [] ->
  fold_left (voxelizeSubTriangle_step input sub pre post) positions (s, out)
  = (s, fold_left (fun m pos => insertColor BLEND m pos (voxelColor input sub pos))
                  (List.filter (contributes input sub) positions) out).
Proof.
  intros Hne Hpre Hpost. revert out.
  induction positions as [|pos positions IH]; intros out; [reflexivity|].
  cbn [fold_left List.filter].
  rewrite voxelizeSubTriangle_step_spec by assumption.
  rewrite IH. destruct (contributes input sub pos); reflexivity.
Qed.

Lemma voxelizeSubTriangle_spec input sub pre post s out :
  pre <> post -> buf_get pre s = [] -> buf_get post s = [] ->
  voxelizeSubTriangle input sub pre post s out
  = (s, insertContributions BLEND input sub out).
Proof.
  intros. unfold voxelizeSubTriangle. now apply voxelizeSubTriangle_fold.
Qed.

Lemma insertColor_lookup_ne (strategy : ColorStrategy) (m : gmap Vec3u WeightedColor)
    (q : Vec3u) (c : WeightedColor) (p : Vec3u) :
  p <> q -> insertColor strategy m q c !! p = m !! p.
Proof.
  intros Hne. unfold insertColor.
  destruct (m !! q); now rewrite lookup_insert_ne by congruence.
Qed.

Lemma insertColor_lookup_eq (strategy : ColorStrategy) (m : gmap Vec3u WeightedColor)
    (p : Vec3u) (c : WeightedColor) :
  insertColor strategy m p c !! p
  = Some (match m !! p with None => c | Some incumbent => combine strategy incumbent c end).
Proof.
  unfold insertColor. destruct (m !! p); now rewrite lookup_insert_eq.
Qed.

Lemma fold_insertColor_lookup_notin (strategy : ColorStrategy)
    (c : Vec3u -> WeightedColor) (l : list Vec3u) (m : gmap Vec3u WeightedColor)
    (p : Vec3u) :
  ~ In p l ->
  fold_left (fun m' q => insertColor strategy m' q (c q)) l m !! p = m !! p.
Proof.
  revert m. induction l as [|q l IH]; intros m Hnin; [reflexivity|].
  cbn [fold_left]. rewrite IH by (intros H; apply Hnin; now right).
  apply insertColor_lookup_ne. intros ->. apply Hnin. now left.
Qed.

(** ** One sub-triangle at a concrete input *)












(** ** Extents under midpoint subdivision *)

Ltac qcases :=
  repeat match goal with
         | |- context [Qle_bool ?a ?b] =>
             lazymatch a with context [Qle_bool] => fail | _ => idtac end;
             lazymatch b with context [Qle_bool] => fail | _ => idtac end;
             let E := fresh "E" in
             destruct (Qle_bool a b) eqn:E;
             [apply Qle_bool_iff in E | apply Qle_bool_gt in E]
         end.

Lemma qmin_le_l a b : (qmin a b <= a)%Q.
Proof. unfold qmin. qcases; lra. Qed.
Lemma qmin_le_r a b : (qmin a b <= b)%Q.
Proof. unfold qmin. qcases; lra. Qed.
Lemma qmax_ge_l a b : (a <= qmax a b)%Q.
Proof. unfold qmax. qcases; lra. Qed.
Lemma qmax_ge_r a b : (b <= qmax a b)%Q.
Proof. unfold qmax. qcases; lra. Qed.
Lemma qmax_lub a b c : (a <= c)%Q -> (b <= c)%Q -> (qmax a b <= c)%Q.
Proof. unfold qmax. qcases; lra. Qed.

Lemma extent_subdivide4 (t sub : TexturedTriangle) (i : nat) :
  In sub (subdivide4 t) -> (extent sub i <= (1 # 2) * extent t i)%Q.
Proof.
  unfold subdivide4. cbn [In]. intros [<-|[<-|[<-|[<-|[]]]]];
    unfold extent, tri_max, tri_min; cbn [tv0 tv1 tv2]; unfold mid3;
    rewrite ?vidx_mix3; unfold mixq;
    generalize (vidx (tv0 t) i) (vidx (tv1 t) i) (vidx (tv2 t) i); intros a b c;
    unfold qmax, qmin; qcases; lra.
Qed.

Lemma max_extent_ge (t : TexturedTriangle) (i : nat) : (extent t i <= max_extent t)%Q.
Proof.
  unfold max_extent.
  assert (H : forall j, extent t (S (S j)) = extent t 2) by reflexivity.
  destruct i as [|[|i]]; rewrite ?H.
  - eapply Qle_trans; [apply qmax_ge_l|apply qmax_ge_l].
  - eapply Qle_trans; [apply qmax_ge_r|apply qmax_ge_l].
  - apply qmax_ge_r.
Qed.

Lemma max_extent_subdivide4 (t sub : TexturedTriangle) :
  In sub (subdivide4 t) -> (max_extent sub <= (1 # 2) * max_extent t)%Q.
Proof.
  intros Hin. unfold max_extent at 1.
  repeat apply qmax_lub;
    (eapply Qle_trans; [apply (extent_subdivide4 t sub _ Hin)|]);
    match goal with |- ((1 # 2) * extent t ?i <= _)%Q => pose proof (max_extent_ge t i) end;
    lra.
Qed.

(** ** Levels *)

Lemma Qceiling_le_iff (x : Q) (z : Z) : (Qceiling x <= z)%Z <-> (x <= inject_Z z)%Q.
Proof.
  split; intros H.
  - eapply Qle_trans; [apply Qle_ceiling|]. now rewrite <- Zle_Qle.
  - pose proof (Qceiling_lt x) as Hlt.
    assert (Hq : (inject_Z (Qceiling x - 1) < inject_Z z)%Q) by (eapply Qlt_le_trans; eauto).
    rewrite <- Zlt_Qlt in Hq. lia.
Qed.

Lemma level_le_iff (t : TexturedTriangle) (n : nat) :
  (level t <= n)%nat <-> (max_extent t <= 6 * inject_Z (2 ^ Z.of_nat n))%Q.
Proof.
  unfold level.
  assert (Hpow : (0 < 2 ^ Z.of_nat n)%Z) by (apply Z.pow_pos_nonneg; lia).
  assert (Hiff : (Qceiling (max_extent t / 6) <= 2 ^ Z.of_nat n)%Z
                 <-> (max_extent t <= 6 * inject_Z (2 ^ Z.of_nat n))%Q).
  { rewrite Qceiling_le_iff.
    assert (E : (max_extent t / 6 == (1 # 6) * max_extent t)%Q) by field.
    rewrite E. split; intros H; lra. }
  rewrite <- Hiff.
  destruct (Z_lt_le_dec 0 (Qceiling (max_extent t / 6))) as [Hpos|Hnp].
  - rewrite (Z.log2_up_le_pow2 _ (Z.of_nat n) Hpos).
    pose proof (Z.log2_up_nonneg (Qceiling (max_extent t / 6))). lia.
  - rewrite Z.log2_up_nonpos by assumption. cbn. lia.
Qed.

Lemma level_subdivide4 (t sub : TexturedTriangle) (n : nat) :
  In sub (subdivide4 t) -> level t = S n -> (level sub <= n)%nat.
Proof.
  intros Hin Hl.
  assert (Ht : (level t <= S n)%nat) by lia.
  apply level_le_iff in Ht. apply level_le_iff.
  rewrite Nat2Z.inj_succ, Z.pow_succ_r, inject_Z_mult in Ht by lia.
  pose proof (max_extent_subdivide4 t sub Hin) as Hs.
  change (inject_Z 2) with 2%Q in Ht. lra.
Qed.

(** ** Small triangles have a small bounding box *)

Lemma umul_le (a b : N) : (umul a b <= a * b)%N.
Proof. unfold umul. apply N.Div0.mod_le. Qed.

Lemma tri_min_le_max (t : TexturedTriangle) (i : nat) : (tri_min t i <= tri_max t i)%Q.
Proof.
  unfold tri_min, tri_max.
  eapply Qle_trans; [apply qmin_le_r|apply qmax_ge_r].
Qed.

Lemma box_size (t : TexturedTriangle) (i : nat) :
  (extent t i <= 6)%Q ->
  (usub (to_unsigned (Qceiling (tri_max t i))) (to_unsigned (Qfloor (tri_min t i))) <= 7)%N.
Proof.
  intros He. unfold extent in He.
  pose proof (tri_min_le_max t i) as Hmm.
  pose proof (Qfloor_le (tri_min t i)) as Hf1.
  pose proof (Qlt_floor (tri_min t i)) as Hf2.
  pose proof (Qle_ceiling (tri_max t i)) as Hc1.
  pose proof (Qceiling_lt (tri_max t i)) as Hc2.
  set (a := Qceiling (tri_max t i)) in *. set (b := Qfloor (tri_min t i)) in *.
  assert (H0 : (0 <= a - b)%Z).
  { assert (Hq : (inject_Z b <= inject_Z a)%Q) by lra. rewrite <- Zle_Qle in Hq. lia. }
  assert (H7 : (a - b <= 7)%Z).
  { rewrite inject_Z_plus in Hf2.
    replace (a - 1)%Z with (a + -1)%Z in Hc2 by lia. rewrite inject_Z_plus in Hc2.
    change (inject_Z 1) with 1%Q in *. change (inject_Z (-1)) with (-1)%Q in *.
    assert (Hq : (inject_Z a < inject_Z (b + 8))%Q).
    { rewrite inject_Z_plus. change (inject_Z 8) with 8%Q. lra. }
    rewrite <- Zlt_Qlt in Hq. lia. }
  unfold usub, to_unsigned.
  assert (HM : (0 < Z.of_N UINT_MOD)%Z) by reflexivity.
  rewrite !Z2N.id by (apply Z.mod_pos_bound; assumption).
  rewrite <- Zminus_mod.
  rewrite Z.mod_small.
  - lia.
  - split; [assumption|]. change (Z.of_N UINT_MOD) with 4294967296%Z. lia.
Qed.

Lemma umul3_small (s0 s1 s2 : N) :
  (s0 <= 7)%N -> (s1 <= 7)%N -> (s2 <= 7)%N -> (umul (umul s0 s1) s2 < 512)%N.
Proof.
  intros H0 H1 H2.
  pose proof (umul_le (umul s0 s1) s2) as Ha.
  pose proof (umul_le s0 s1) as Hb.
  pose proof (N.mul_le_mono _ _ _ _ H0 H1) as Hc.
  assert (Hd : (umul s0 s1 <= 49)%N) by (change 49%N with (7 * 7)%N; lia).
  pose proof (N.mul_le_mono _ _ _ _ Hd H2) as He.
  change (49 * 7)%N with 343%N in He. lia.
Qed.

Lemma level_0_small (t : TexturedTriangle) : level t = O -> small t.
Proof.
  intros Hl.
  assert (Hle : (level t <= 0)%nat) by lia.
  apply level_le_iff in Hle. change (inject_Z (2 ^ Z.of_nat 0)) with 1%Q in Hle.
  assert (He : forall i, (extent t i <= 6)%Q).
  { intros i. pose proof (max_extent_ge t i). lra. }
  unfold small, volume, voxelMax, voxelMin, ux, uy, uz, volumeLimit. cbn [fst snd].
  apply umul3_small; apply box_size; apply He.
Qed.

Lemma large_level (t : TexturedTriangle) :
  (volume t <? volumeLimit)%N = false -> exists n, level t = S n.
Proof.
  intros Hv. destruct (level t) as [|n] eqn:E; [|now exists n].
  apply level_0_small in E. unfold small in E.
  apply N.ltb_ge in Hv. lia.
Qed.

(** ** The work-list loop terminates *)

Lemma cost_pos (n : nat) : (1 <= cost n)%nat.
Proof. destruct n; cbn; lia. Qed.

Lemma cost_mono (n m : nat) : (n <= m)%nat -> (cost n <= cost m)%nat.
Proof.
  induction 1 as [|m _ IH]; [lia|]. cbn [cost]. lia.
Qed.

Lemma list_sum_cons (x : nat) (l : list nat) : list_sum (x :: l) = (x + list_sum l)%nat.
Proof. reflexivity. Qed.

Lemma subdivide4_shape (t : TexturedTriangle) :
  exists s0 s1 s2 s3, subdivide4 t = [s0; s1; s2; s3].
Proof. unfold subdivide4. eauto. Qed.

Lemma subdivide_loop_terminates (fuel : nat) :
  forall (i : nat) (out : list TexturedTriangle),
    (potential i out < fuel)%nat ->
    exists out', subdivide_loop fuel i out = Some out'
                 /\ Forall small (drop i out') /\ take i out' = take i out.
Proof.
  induction fuel as [|fuel IH]; intros i out Hp; [lia|].
  cbn [subdivide_loop]. destruct (out !! i) as [t|] eqn:Et.
  2:{ exists out. split; [reflexivity|]. split; [|reflexivity].
      rewrite drop_ge; [constructor | now apply lookup_ge_None]. }
  assert (Hi : (i < length out)%nat) by (eapply lookup_lt_Some; eauto).
  unfold potential in Hp. rewrite (drop_S _ _ _ Et), map_cons, list_sum_cons in Hp.
  destruct (volume t <? volumeLimit)%N eqn:Ev.
  - destruct (IH (S i) out) as (out' & Hr & Hs & Ht).
    { unfold potential. pose proof (cost_pos (level t)). lia. }
    exists out'. split; [exact Hr|].
    assert (Hl : out' !! i = Some t).
    { rewrite <- (lookup_take_lt out' (S i) i) by lia.
      rewrite Ht, lookup_take_lt by lia. exact Et. }
    split.
    + rewrite (drop_S _ _ _ Hl). constructor; [now apply N.ltb_lt | exact Hs].
    + apply (f_equal (take i)) in Ht. rewrite !take_take in Ht.
      replace (i `min` S i)%nat with i in Ht by lia. exact Ht.
  - destruct (large_level t Ev) as [n Hn].
    destruct (subdivide4_shape t) as (s0 & s1 & s2 & s3 & Es). rewrite Es.
    assert (Hsub : forall s, In s [s0; s1; s2; s3] -> (cost (level s) <= cost n)%nat).
    { intros s Hs. apply cost_mono. apply (level_subdivide4 t); [now rewrite Es | exact Hn]. }
    assert (Hd : drop i (<[i := s0]> out ++ [s1; s2; s3])
                 = s0 :: drop (S i) out ++ [s1; s2; s3]).
    { rewrite drop_app_le by (rewrite length_insert; lia).
      rewrite (drop_S _ s0 i) by (now apply list_lookup_insert_eq).
      rewrite drop_insert_lt by lia. reflexivity. }
    destruct (IH i (<[i := s0]> out ++ [s1; s2; s3])) as (out' & Hr & Hs & Ht).
    { unfold potential.
      rewrite Hd, map_cons, map_app, list_sum_cons, list_sum_app, !map_cons, !list_sum_cons.
      change (list_sum (map _ [])) with 0%nat.
      pose proof (Hsub s0 ltac:(cbn; tauto)). pose proof (Hsub s1 ltac:(cbn; tauto)).
      pose proof (Hsub s2 ltac:(cbn; tauto)). pose proof (Hsub s3 ltac:(cbn; tauto)).
      rewrite Hn in Hp. cbn [cost] in Hp. lia. }
    exists out'. split; [exact Hr|]. split; [exact Hs|].
    rewrite Ht, take_app_le by (rewrite length_insert; lia).
    now rewrite take_insert_ge by lia.
Qed.

(** ** The subdivider as a whole *)

Lemma subdivide_returns (t : TexturedTriangle) (fuel : nat) :
  (potential 0 [t] < fuel)%nat ->
  exists out, subdivideLargeVolumeTriangles fuel t [] = Some out
              /\ (nearAxisAligned t = false -> Forall small out).
Proof.
  intros Hf. unfold subdivideLargeVolumeTriangles. cbn [app].
  destruct (nearAxisAligned t).
  - exists [t]. split; [reflexivity|]. discriminate.
  - destruct (subdivide_loop_terminates fuel 0 [t] Hf) as (out & Hr & Hs & _).
    exists out. split; [exact Hr|]. intros _. now rewrite drop_0 in Hs.
Qed.

(** ** One input triangle *)

Lemma voxelize_fold (input : VisualTriangle) (subs rest : list TexturedTriangle)
    (m : gmap Vec3u WeightedColor) :
  fold_left (fun st sub => voxelizeSubTriangle input sub Buf1 Buf2 (fst st) (snd st))
            rest (mkBuffers subs [] [], m)
  = (mkBuffers subs [] [],
     fold_left (fun m' sub => insertContributions BLEND input sub m') rest m).
Proof.
  revert m. induction rest as [|sub rest IH]; intros m; [reflexivity|].
  cbn [fold_left fst snd].
  rewrite voxelizeSubTriangle_spec; [| discriminate | reflexivity | reflexivity].
  apply IH.
Qed.

Lemma voxelize_spec (fuel : nat) (input : VisualTriangle) (buffers : Buffers)
    (out : gmap Vec3u WeightedColor) :
  voxelize fuel input buffers out
  = match subdivideLargeVolumeTriangles fuel (vt_triangle input) [] with
    | None => None
    | Some subs => Some (mkBuffers subs [] [], contributions input subs)
    end.
Proof.
  unfold voxelize. destruct buffers as [b0 b1 b2]. cbn [buf_set buf_get buf0 buf1 buf2].
  destruct (subdivideLargeVolumeTriangles fuel (vt_triangle input) []) as [subs|];
    [|reflexivity].
  f_equal. apply voxelize_fold.
Qed.



(** C10. [voxelize] clears the three scratch vectors and the output map on
    entry: with enough fuel for the subdivider it returns, and what it
    returns does not depend on the vectors and the map it was given; the
    map holds the contributions of the sub-triangles of this input triangle,
    inserted into an empty map, and nothing else. *)
Theorem voxelize_resets_output (inputTriangle : VisualTriangle) (fuel : nat) :
  (potential 0 [vt_triangle inputTriangle] < fuel)%nat ->
  exists subs,
    subdivideLargeVolumeTriangles fuel (vt_triangle inputTriangle) [] = Some subs
    /\ forall (buffers : Buffers) (out : gmap Vec3u WeightedColor),
         voxelize fuel inputTriangle buffers out
         = Some (mkBuffers subs [] [], contributions inputTriangle subs).
Proof.
  intros Hf. destruct (subdivide_returns _ _ Hf) as (subs & Hs & _).
  exists subs. split; [exact Hs|]. intros buffers out.
  now rewrite voxelize_spec, Hs.
Qed.

Lemma voxelize_resets_output_witness :
  exists subs,
    subdivideLargeVolumeTriangles 2 tri_2x2 [] = Some subs
    /\ forall (buffers : Buffers) (out : gmap Vec3u WeightedColor),
         voxelize 2 red_2x2 buffers out
         = Some (mkBuffers subs [] [], contributions red_2x2 subs).
Proof.
  apply (voxelize_resets_output red_2x2 2). vm_compute. lia.
Defined.

(** ** The early return of the subdivider *)

Lemma Q2R_of (q : Q) (z : Z) : (q == inject_Z z)%Q -> Q2R q = IZR z.
Proof.
  intros H. rewrite (Qeq_eqR _ _ H). unfold Q2R, inject_Z; cbn.
  now rewrite Rinv_1, Rmult_1_r.
Qed.

Lemma sqrt3_lower : (1 < sqrt 3)%R.
Proof. rewrite <- sqrt_1 at 1. apply sqrt_lt_1; lra. Qed.

Lemma sqrtThird_bounds : (0 < sqrtThird < 1)%R.
Proof.
  unfold sqrtThird. pose proof sqrt3_lower as H1.
  split.
  - apply Rinv_0_lt_compat. lra.
  - rewrite <- Rinv_1. apply Rinv_lt_contravar; lra.
Qed.

Lemma sqrt2_lower : (141 / 100 <= sqrt 2)%R.
Proof.
  rewrite <- (sqrt_square (141 / 100)) by lra. apply sqrt_le_1; lra.
Qed.

Lemma sqrt3_upper : (sqrt 3 <= 174 / 100)%R.
Proof.
  rewrite <- (sqrt_square (174 / 100)) by lra. apply sqrt_le_1; lra.
Qed.

Lemma normalize_some (v : Vec3) :
  Qeq_bool (dotq v v) 0 = false ->
  normalize v = Some (mkVec3r (Q2R (v3x v) / length3 v) (Q2R (v3y v) / length3 v)
                              (Q2R (v3z v) / length3 v)).
Proof. intros H. unfold normalize. now rewrite H. Qed.

(** [tri_2x2] is parallel to the x-y plane: its diagonality is 0. *)
Lemma diagonality01_tri_2x2 : diagonality01 tri_2x2 = Some 0%R.
Proof.
  unfold diagonality01. rewrite normalize_some by reflexivity.
  f_equal. unfold dotr, diagonal3. cbn [rx ry rz].
  assert (Hl : length3 (vabs (normal tri_2x2)) = 4%R).
  { unfold length3. rewrite (Q2R_of _ 16) by reflexivity.
    replace 16%R with (4 * 4)%R by lra. apply sqrt_square. lra. }
  rewrite Hl.
  rewrite (Q2R_of (v3x _) 0), (Q2R_of (v3y _) 0), (Q2R_of (v3z _) 4) by reflexivity.
  pose proof sqrtThird_bounds. field. lra.
Qed.

Lemma diagonality01_tri_skew :
  exists d, diagonality01 tri_skew = Some d /\ (1 / 2 <= d)%R.
Proof.
  unfold diagonality01. rewrite normalize_some by reflexivity.
  eexists. split; [reflexivity|].
  unfold dotr, diagonal3. cbn [rx ry rz].
  assert (Hl : length3 (vabs (normal tri_skew)) = (100 * sqrt 2)%R).
  { unfold length3. rewrite (Q2R_of _ 20000) by reflexivity.
    replace 20000%R with ((100 * 100) * 2)%R by lra.
    rewrite sqrt_mult by lra. rewrite sqrt_square by lra. reflexivity. }
  rewrite Hl.
  rewrite (Q2R_of (v3x _) 100), (Q2R_of (v3y _) 100), (Q2R_of (v3z _) 0) by reflexivity.
  pose proof sqrtThird_bounds as [Hs0 Hs1].
  pose proof sqrt2_lower as H2. pose proof sqrt3_upper as H3.
  pose proof sqrt3_lower as H3'.
  assert (Hq2 : (sqrt 2 * sqrt 2 = 2)%R) by (apply sqrt_sqrt; lra).
  assert (Hq3 : (sqrt 3 * sqrt 3 = 3)%R) by (apply sqrt_sqrt; lra).
  assert (Hs : (sqrtThird * sqrt 3 = 1)%R).
  { unfold sqrtThird. apply Rinv_l. lra. }
  assert (He : (100 / (100 * sqrt 2) = sqrt 2 / 2)%R) by (field_simplify_eq; lra).
  rewrite He.
  apply Rmult_le_reg_r with (1 - sqrtThird)%R; [lra|].
  unfold Rdiv at 2. rewrite Rmult_assoc, Rinv_l, Rmult_1_r by lra.
  (* sqrt 2 * s - s >= (1 - s) / 2, from s * sqrt 3 = 1 *)
  apply Rmult_le_reg_r with (sqrt 3); [lra|].
  replace ((sqrt 2 / 2 * sqrtThird + sqrt 2 / 2 * sqrtThird + 0 / (100 * sqrt 2) * sqrtThird
            - sqrtThird) * sqrt 3)%R
    with ((sqrt 2 - 1) * (sqrtThird * sqrt 3))%R by (unfold Rdiv; field; lra).
  replace (1 / 2 * (1 - sqrtThird) * sqrt 3)%R
    with (1 / 2 * (sqrt 3 - sqrtThird * sqrt 3))%R by ring.
  rewrite Hs. lra.
Qed.

Lemma diagonality01_claimed_tri_skew :
  exists d, diagonality01_claimed tri_skew = Some d /\ (d < 1 / 2)%R.
Proof.
  unfold diagonality01_claimed. rewrite normalize_some by reflexivity.
  eexists. split; [reflexivity|].
  unfold dotr, diagonal3. cbn [rx ry rz].
  rewrite (Q2R_of (v3x _) 100), (Q2R_of (v3y _) (-100)), (Q2R_of (v3z _) 0) by reflexivity.
  pose proof sqrtThird_bounds as [Hs0 Hs1].
  match goal with
  | |- context [Rabs ?e] => replace e with 0%R by (unfold Rdiv; ring)
  end.
  rewrite Rabs_R0.
  apply Rmult_lt_reg_r with (1 - sqrtThird)%R; [lra|].
  unfold Rdiv at 1. rewrite Rmult_assoc, Rinv_l, Rmult_1_r by lra. lra.
Qed.

Lemma nearAxisAligned_tri_skew : nearAxisAligned tri_skew = false.
Proof.
  unfold nearAxisAligned. destruct diagonality01_tri_skew as (d & -> & Hd).
  destruct (Rlt_dec d (1 / 2)); [lra|reflexivity].
Qed.

Lemma subdivide_loop_length (fuel i : nat) (out out' : list TexturedTriangle) :
  subdivide_loop fuel i out = Some out' -> (length out <= length out')%nat.
Proof.
  revert i out. induction fuel as [|fuel IH]; intros i out; [discriminate|].
  cbn [subdivide_loop]. destruct (out !! i) as [t|].
  - destruct (volume t <? volumeLimit)%N; [apply IH|].
    destruct (subdivide4_shape t) as (s0 & s1 & s2 & s3 & ->).
    intros H. apply IH in H. rewrite length_app, length_insert in H. lia.
  - intros [= ->]. lia.
Qed.

Lemma subdivide_tri_skew (fuel : nat) :
  subdivideLargeVolumeTriangles fuel tri_skew [] <> Some [tri_skew].
Proof.
  unfold subdivideLargeVolumeTriangles. rewrite nearAxisAligned_tri_skew. cbn [app].
  destruct fuel as [|fuel]; [discriminate|].
  cbn [subdivide_loop lookup list_lookup].
  change (volume tri_skew <? volumeLimit)%N with false. cbv iota.
  destruct (subdivide4_shape tri_skew) as (s0 & s1 & s2 & s3 & ->).
  intros H. apply subdivide_loop_length in H. cbn in H. lia.
Qed.

(** C4, as the claim words it: the unit normal of [tri_skew] is orthogonal to
    the diagonal, so the diagonality of the claim is below 0.5; the source
    takes the component-wise absolute value of the normal first, does not
    return early, and subdivides the triangle. *)
Lemma subdivide_claimed_diagonality_fails :
  (exists d, diagonality01_claimed tri_skew = Some d /\ (d < 1 / 2)%R)
  /\ (forall fuel, subdivideLargeVolumeTriangles fuel tri_skew [] <> Some [tri_skew])
  /\ (exists out, subdivideLargeVolumeTriangles 6 tri_skew [] = Some out
                  /\ length out = 4%nat).
Proof.
  split; [exact diagonality01_claimed_tri_skew|].
  split; [exact subdivide_tri_skew|].
  unfold subdivideLargeVolumeTriangles. rewrite nearAxisAligned_tri_skew.
  eexists. split; [vm_compute; reflexivity | reflexivity].
Qed.

(** C4, amended.  When the diagonality that the source computes, the dot
    product of the normalised component-wise absolute value of the normal
    with (1/sqrt 3, 1/sqrt 3, 1/sqrt 3), normalised to [0, 1] by
    (d - 1/sqrt 3) / (1 - 1/sqrt 3), is below 0.5, the subdivider returns the
    vector that holds the input triangle, unmodified, and nothing else. *)
Theorem subdivideLargeVolumeTriangles_early_return
    (t : TexturedTriangle) (fuel : nat) (d : R) :
  diagonality01 t = Some d -> (d < 1 / 2)%R ->
  subdivideLargeVolumeTriangles fuel t [] = Some [t].
Proof.
  intros Hd Hlt. unfold subdivideLargeVolumeTriangles, nearAxisAligned.
  rewrite Hd. destruct (Rlt_dec d (1 / 2)); [reflexivity | contradiction].
Qed.

Lemma subdivideLargeVolumeTriangles_early_return_witness :
  subdivideLargeVolumeTriangles 0 tri_2x2 [] = Some [tri_2x2].
Proof.
  apply (subdivideLargeVolumeTriangles_early_return tri_2x2 0 0%R).
  - exact diagonality01_tri_2x2.
  - lra.
Defined.
(** ** The completion counter *)

Lemma busy_cons (w : WorkerPc) (ws : list WorkerPc) :
  busy (w :: ws) = (b2n (holds_command w) + busy ws)%nat.
Proof.
  unfold busy. rewrite filter_cons. destruct (holds_command w) eqn:E.
  - rewrite decide_True by reflexivity. reflexivity.
  - rewrite decide_False by discriminate. reflexivity.
Qed.

Lemma busy_le_length (ws : list WorkerPc) : (busy ws <= length ws)%nat.
Proof.
  induction ws as [|w ws IH]; [reflexivity|].
  rewrite busy_cons. cbn [length]. destruct (holds_command w); cbn [b2n]; lia.
Qed.

Lemma busy_insert (ws : list WorkerPc) (k : nat) (w w' : WorkerPc) :
  ws !! k = Some w ->
  (busy (<[k := w']> ws) + b2n (holds_command w)
   = busy ws + b2n (holds_command w'))%nat.
Proof.
  revert k. induction ws as [|x ws IH]; intros k Hk; [discriminate|].
  destruct k as [|k]; cbn in Hk.
  - injection Hk as ->.
    change (<[0%nat := w']> (w :: ws)) with (w' :: ws). rewrite !busy_cons. lia.
  - change (<[S k := w']> (x :: ws)) with (x :: <[k := w']> ws).
    rewrite !busy_cons. specialize (IH k Hk). lia.
Qed.

Lemma unfinished_bound (threadCount : nat) (s : System) :
  length (workers s) = threadCount ->
  (avail (buffer (queue s)) <= QUEUE_CAPACITY)%nat ->
  (unfinished s <= 129 + threadCount)%nat.
Proof.
  intros Hl Ha. unfold unfinished.
  pose proof (busy_le_length (workers s)) as Hb. unfold busy in Hb.
  unfold QUEUE_CAPACITY in Ha. destruct (mainpc s); cbn [pending_push]; lia.
Qed.

Lemma counter_incr_small (c : N) :
  (c + 1 < UMAX_MOD)%N -> counter_incr c = (c + 1)%N.
Proof. intros H. unfold counter_incr. now apply N.mod_small. Qed.

Lemma counter_decr_pos (c : N) :
  (0 < c)%N -> (c < UMAX_MOD)%N -> counter_decr c = (c - 1)%N.
Proof.
  intros H0 H1. unfold counter_decr.
  replace (c + UMAX_MOD - 1)%N with ((c - 1) + 1 * UMAX_MOD)%N by lia.
  rewrite N.Div0.mod_add. apply N.mod_small. lia.
Qed.

Lemma counter_invariant_step (threadCount : nat) (s s' : System) :
  (Z.of_nat threadCount + 130 < 2 ^ 64)%Z ->
  counter_invariant threadCount s -> step s s' -> counter_invariant threadCount s'.
Proof.
  intros Hn (Hl & Ha & Hc & Hi) Hstep.
  pose proof (unfinished_bound threadCount s Hl Ha) as Hb.
  assert (HM : UMAX_MOD = 18446744073709551616%N) by reflexivity.
  assert (HZ : (2 ^ 64 = 18446744073709551616)%Z) by reflexivity.
  destruct Hstep; unfold counter_invariant, unfinished in *;
    cbn [workers queue buffer commandCounter mainpc issued finished pending_push
         rb_push rb_pop avail snd fst] in *.
  - (* issue: increment *)
    repeat split; try assumption; try lia.
    rewrite Hc, counter_incr_small by lia. lia.
  - (* issue: push *)
    apply Nat.eqb_neq in H. repeat split; try assumption; try lia.
  - repeat split; assumption.
  - repeat split; assumption.
  - (* receive *)
    apply Nat.eqb_neq in H0.
    pose proof (busy_insert ws k _ (AtSwitch (nth ((rb_r (buffer q) + 1)
                  mod QUEUE_CAPACITY) (content (buffer q)) EXIT)) H) as Hbi.
    unfold busy in Hbi. cbn [holds_command b2n] in Hbi.
    rewrite length_insert.
    repeat split; try assumption; try lia.
  - (* run *)
    pose proof (busy_insert ws k _ (AtComplete c) H) as Hbi.
    unfold busy in Hbi. cbn [holds_command b2n] in Hbi.
    rewrite length_insert.
    repeat split; try assumption; try lia.
  - (* complete *)
    pose proof (busy_insert ws k _ (after_complete c) H) as Hbi.
    unfold busy in Hbi.
    assert (Hac : holds_command (after_complete c) = false) by (destruct c; reflexivity).
    rewrite Hac in Hbi. cbn [holds_command b2n] in Hbi.
    rewrite length_insert.
    repeat split; try assumption; try lia.
    rewrite Hc, counter_decr_pos by lia. lia.
Qed.

Lemma counter_invariant_reachable (threadCount : nat) (s : System) :
  (Z.of_nat threadCount + 130 < 2 ^ 64)%Z ->
  reachable threadCount s -> counter_invariant threadCount s.
Proof.
  intros Hn Hr. induction Hr as [|s s' _ IH Hstep].
  - assert (H : filter (fun w => holds_command w = true) (repeat AtReceive threadCount) = []).
    { clear Hn. induction threadCount as [|n IHn]; [reflexivity|].
      cbn [repeat]. rewrite filter_cons, decide_False by discriminate. apply IHn. }
    unfold counter_invariant, initial, unfinished, QUEUE_CAPACITY.
    cbn [workers queue buffer commandCounter mainpc issued finished pending_push
         initial_ring avail].
    rewrite H, repeat_length. cbn. repeat split; lia.
  - eapply counter_invariant_step; eauto.
Qed.

(** C9. In every reachable state of the command queue with its threads, the
    completion counter is the number of calls of [issue] minus the number of
    commands whose execution has finished, and that difference counts the
    commands that are unfinished: the one being pushed, those in the buffer
    and those that a worker has popped and not yet completed.  The counter
    is decremented only by a worker that has already run its command.  So
    [waitForCompletion] returns only when no issued command is unfinished. *)
Theorem completion_counter_discipline (threadCount : nat) (s : System) :
  (Z.of_nat threadCount + 130 < 2 ^ 64)%Z ->
  reachable threadCount s ->
  Z.of_N (commandCounter (queue s)) = (Z.of_nat (issued s) - Z.of_nat (finished s))%Z
  /\ issued s = (finished s + unfinished s)%nat
  /\ (forall s', step s s' -> finished s' <> finished s ->
                 exists k c, workers s !! k = Some (AtComplete c)
                             /\ finished s' = S (finished s)
                             /\ commandCounter (queue s')
                                = counter_decr (commandCounter (queue s)))
  /\ (forall s', step s s' -> mainpc s = InWait -> mainpc s' = MainRunning ->
                 unfinished s = 0%nat /\ issued s = finished s).
Proof.
  intros Hn Hr.
  destruct (counter_invariant_reachable threadCount s Hn Hr) as (Hl & Ha & Hc & Hi).
  split; [rewrite Hc; lia|]. split; [exact Hi|]. split.
  - intros s' Hstep Hf. destruct Hstep; cbn [finished] in Hf; try congruence.
    exists k, c. cbn. auto.
  - intros s' Hstep Hw Hm.
    destruct Hstep; cbn [mainpc] in Hw, Hm; try congruence.
    cbn [queue] in Hc. rewrite H in Hc. lia.
Qed.

Lemma completion_counter_discipline_witness :
  Z.of_N (commandCounter (queue exit_being_issued))
  = (Z.of_nat (issued exit_being_issued) - Z.of_nat (finished exit_being_issued))%Z.
Proof.
  apply (completion_counter_discipline 2 exit_being_issued).
  - reflexivity.
  - apply (reachable_step 2 (initial 2)); [apply reachable_initial|].
    apply (step_issue_incr (mkQueue initial_ring 0) (repeat AtReceive 2) 0 0 EXIT).
Defined.

(** ** The driver and its arguments *)

Section DriverFacts.

Variable AffineTransform : Type.
Variable computeTransform : Vec3 -> Vec3 -> N -> Vec3u -> AffineTransform.
Variable hardware_concurrency : nat.
Variable Voxel32 : Type.
Variable run_workers :
  list (AffineTransform * ColorStrategy) -> list VisualTriangle -> list Voxel32.
Variable downscale_map : list Voxel32 -> ColorStrategy -> list Voxel32.
Variable VoxelSink : Type.
Variable canWrite : VoxelSink -> bool.
Variable write : Voxel32 -> VoxelSink -> VoxelSink.
Variable flush : VoxelSink -> VoxelSink.

Lemma write_all_false (voxels : list Voxel32) (sink : VoxelSink) :
  fst (FileVoxelization.write_all Voxel32 VoxelSink canWrite write voxels sink) = false ->
  canWrite (snd (FileVoxelization.write_all Voxel32 VoxelSink canWrite write voxels sink))
  = false.
Proof.
  revert sink. induction voxels as [|v voxels IH]; intros sink; cbn.
  - discriminate.
  - destruct (canWrite sink) eqn:E; [apply IH | intros _; exact E].
Qed.

(** C5, amended.  The driver does not look at the resolution or at the
    permutation: for a stream without vertices it spawns no worker, for any
    other stream it spawns one worker per hardware thread, whatever the
    arguments are; and it reports failure only when the sink has stopped
    being writable. *)
Theorem voxelize_does_not_validate_args
    (args : FileVoxelization.VoxelizationArgs) (stream : FileVoxelization.ITriangleStream)
    (sink : VoxelSink) :
  let outcome :=
    FileVoxelization.voxelize AffineTransform computeTransform hardware_concurrency
      Voxel32 run_workers downscale_map VoxelSink canWrite write flush args stream sink in
  length (FileVoxelization.spawned _ _ outcome)
  = (if (FileVoxelization.vertexCount stream =? 0)%N then 0%nat else hardware_concurrency)
  /\ (FileVoxelization.returned _ _ outcome = false ->
      canWrite (FileVoxelization.sink_after _ _ outcome) = false).
Proof.
  intros outcome. subst outcome. unfold FileVoxelization.voxelize.
  destruct (FileVoxelization.vertexCount stream =? 0)%N.
  - split; [reflexivity | discriminate].
  - destruct (FileVoxelization.findBoundaries _ _) as [meshMin meshMax].
    match goal with
    | |- context [FileVoxelization.write_all _ _ _ _ ?v ?s] =>
        pose proof (write_all_false v s) as Hw;
        destruct (FileVoxelization.write_all Voxel32 VoxelSink canWrite write v s) as [ok sink']
    end.
    cbn in *. split; [apply repeat_length | exact Hw].
Qed.

End DriverFacts.

(** C5, as the claim words it: with resolution 0 and the triple (0, 0, 0) the
    driver spawns four workers on a machine with four hardware threads and
    reports success, for a stream with a triangle as for an empty one. *)
Lemma voxelize_accepts_invalid_args :
  FileVoxelization.valid_args invalid_args = false
  /\ length (FileVoxelization.spawned _ _
               (driver_on_4_threads true [] invalid_args one_triangle_stream)) = 4%nat
  /\ FileVoxelization.returned _ _
       (driver_on_4_threads true [] invalid_args one_triangle_stream) = true
  /\ FileVoxelization.returned _ _
       (driver_on_4_threads true [] invalid_args empty_stream) = true.
Proof. repeat split. Qed.

Lemma voxelize_does_not_validate_args_witness :
  FileVoxelization.returned _ _
    (driver_on_4_threads false [tt] invalid_args one_triangle_stream) = false
  /\ fst (FileVoxelization.sink_after _ _
            (driver_on_4_threads false [tt] invalid_args one_triangle_stream)) = false.
Proof.
  split; [reflexivity|].
  apply (voxelize_does_not_validate_args unit (fun _ _ _ _ => tt) 4 unit
           (fun _ _ => [tt]) (fun l _ => l) (bool * nat) fst
           (fun _ sink => (fst sink, S (snd sink))) (fun sink => sink)
           invalid_args one_triangle_stream (false, 0%nat)).
  reflexivity.
Defined.

(** ** Interpolation *)

Lemma interpolated_v0 t : interpolated t (tv0 t) (tt0 t).
Proof.
  exists 1%Q, 0%Q, 0%Q. repeat split; cbn; try lra; try ring.
Qed.

Lemma interpolated_v1 t : interpolated t (tv1 t) (tt1 t).
Proof.
  exists 0%Q, 1%Q, 0%Q. repeat split; cbn; try lra; try ring.
Qed.

Lemma interpolated_v2 t : interpolated t (tv2 t) (tt2 t).
Proof.
  exists 0%Q, 0%Q, 1%Q. repeat split; cbn; try lra; try ring.
Qed.

Lemma interpolated_mix (t : TexturedTriangle) (A B : Vec3) (ta tb : Vec2) (s : Q) :
  interpolated t A ta -> interpolated t B tb -> (0 <= s <= 1)%Q ->
  interpolated t (mix3 A B s) (mix2 ta tb s).
Proof.
  intros (a & b & c & (Ha & Hb & Hc & Hs) & (X1 & Y1 & Z1) & (U1 & V1))
         (a' & b' & c' & (Ha' & Hb' & Hc' & Hs') & (X2 & Y2 & Z2) & (U2 & V2)) [Hs0 Hs1].
  exists ((1 - s) * a + s * a')%Q, ((1 - s) * b + s * b')%Q, ((1 - s) * c + s * c')%Q.
  split; [|split].
  - repeat split; try nra.
  - unfold veq3, bary3, mix3, mixq in *. cbn [v3x v3y v3z] in *.
    rewrite X1, Y1, Z1, X2, Y2, Z2. repeat split; ring.
  - unfold veq2, bary2, mix2, mixq in *. cbn [v2x v2y] in *.
    rewrite U1, V1, U2, V2. repeat split; ring.
Qed.

(** Every triangle that [splitTriangle] hands to [pushLoIfTrueElseHi] has
    its corners in [t], with the UVs interpolated. *)
Lemma splitCalls_fragment_of (t : TexturedTriangle) (axis : nat) (plane : N) :
  Forall (fun c => fragment_of t (fst c)) (splitCalls axis plane t).
Proof.
  cbv beta iota zeta delta
    [splitCalls splitTriangle_body eq_plane isZero vertex texture].
  destruct (Qltb (Qabs (vidx (tv0 t) axis - real_of_unsigned plane)) EPSILON) eqn:P0;
  destruct (Qltb (Qabs (vidx (tv1 t) axis - real_of_unsigned plane)) EPSILON) eqn:P1;
  destruct (Qltb (Qabs (vidx (tv2 t) axis - real_of_unsigned plane)) EPSILON) eqn:P2;
  destruct (Qle_bool (vidx (tv0 t) axis) (real_of_unsigned plane)) eqn:L0;
  destruct (Qle_bool (vidx (tv1 t) axis) (real_of_unsigned plane)) eqn:L1;
  destruct (Qle_bool (vidx (tv2 t) axis) (real_of_unsigned plane)) eqn:L2;
  cbn -[mix3 mix2 intersect_ray_axisPlane vsub Qle Qlt Qplus Qminus real_of_unsigned EPSILON];
  rewrite ?L0, ?L1, ?L2;
  cbn -[mix3 mix2 intersect_ray_axisPlane vsub Qle Qlt Qplus Qminus real_of_unsigned EPSILON].
  all: side_facts.
  all: assert (0 < EPSILON)%Q by reflexivity.
  all: repeat match goal with
       | |- context [mix3 ?V ?A (intersect_ray_axisPlane ?V (vsub ?A ?V) ?ax ?pl)] =>
           let Hi := fresh "Hi" in
           pose proof (intersect_between V A ax pl) as Hi; cbv zeta in Hi;
           let H := fresh in
           match type of Hi with ?P -> _ =>
              assert (H : P) by (first [left; split; lra | right; split; lra]) end;
           specialize (Hi H);
           destruct Hi as [? ?];
           set (intersect_ray_axisPlane V (vsub A V) ax pl) in *
       end.
  all: repeat constructor.
  all: intros i; destruct i as [|[|i]]; cbn [fst vertex texture tv0 tv1 tv2 tt0 tt1 tt2].
  all: repeat first [ apply interpolated_v0 | apply interpolated_v1 | apply interpolated_v2
                    | apply interpolated_mix; [| |assumption] ].
Qed.

Lemma fragment_of_refl (t : TexturedTriangle) : fragment_of t t.
Proof.
  intros [|[|i]]; cbn [vertex texture];
    [apply interpolated_v0 | apply interpolated_v1 | apply interpolated_v2].
Qed.

Lemma interpolated_trans (t f : TexturedTriangle) (P : Vec3) (p : Vec2) :
  fragment_of t f -> interpolated f P p -> interpolated t P p.
Proof.
  intros Hf (a & b & c & (Ha & Hb & Hc & Hs) & (X & Y & Z) & (U & V)).
  destruct (Hf 0%nat) as (a0 & b0 & c0 & (Ha0 & Hb0 & Hc0 & Hs0) & (X0 & Y0 & Z0) & (U0 & V0)).
  destruct (Hf 1%nat) as (a1 & b1 & c1 & (Ha1 & Hb1 & Hc1 & Hs1) & (X1 & Y1 & Z1) & (U1 & V1)).
  destruct (Hf 2%nat) as (a2 & b2 & c2 & (Ha2 & Hb2 & Hc2 & Hs2) & (X2 & Y2 & Z2) & (U2 & V2)).
  cbn [vertex texture] in *.
  exists (a * a0 + b * a1 + c * a2)%Q, (a * b0 + b * b1 + c * b2)%Q,
         (a * c0 + b * c1 + c * c2)%Q.
  split; [|split].
  - repeat split; try nra.
  - unfold veq3, bary3 in *. cbn [v3x v3y v3z] in *.
    rewrite X, Y, Z, X0, Y0, Z0, X1, Y1, Z1, X2, Y2, Z2. repeat split; ring.
  - unfold veq2, bary2 in *. cbn [v2x v2y] in *.
    rewrite U, V, U0, V0, U1, V1, U2, V2. repeat split; ring.
Qed.

Lemma fragment_of_trans (t f g : TexturedTriangle) :
  fragment_of t f -> fragment_of f g -> fragment_of t g.
Proof.
  intros Hf Hg i. apply (interpolated_trans t f); [assumption|apply Hg].
Qed.





(** ** What one split appends *)

Lemma splitInto_calls (mode : DiscardMode) (axis : nat) (plane : N) (t : TexturedTriangle) :
  splitInto mode axis plane t
  = flat_map (fun c => if keeps mode (snd c) then [fst c] else []) (splitCalls axis plane t).
Proof.
  unfold splitInto, splitTriangle.
  rewrite splitTriangle_body_calls, pushes_aliased, buf_get_set_eq. reflexivity.
Qed.

Lemma kept_DISCARD_LO (calls : list (TexturedTriangle * bool)) :
  flat_map (fun c => if keeps DISCARD_LO (snd c) then [fst c] else []) calls = sorted_hi calls.
Proof.
  unfold sorted_hi. induction calls as [|[f lo] calls IH]; [reflexivity|].
  destruct lo; simpl; rewrite <- IH; reflexivity.
Qed.

Lemma kept_DISCARD_HI (calls : list (TexturedTriangle * bool)) :
  flat_map (fun c => if keeps DISCARD_HI (snd c) then [fst c] else []) calls = sorted_lo calls.
Proof.
  unfold sorted_lo. induction calls as [|[f lo] calls IH]; [reflexivity|].
  destruct lo; simpl; rewrite <- IH; reflexivity.
Qed.






Lemma splitCalls_length (t : TexturedTriangle) (axis : nat) (plane : N) :
  (1 <= length (splitCalls axis plane t) <= 3)%nat.
Proof.
  unfold splitCalls, splitTriangle_body.
  repeat match goal with
         | |- context [if ?c then _ else _] =>
             match c with
             | context [if _ then _ else _] => fail 1
             | _ => destruct c
             end
         end; cbn [length app]; lia.
Qed.

Lemma splitCalls_shape (t : TexturedTriangle) (axis : nat) (plane : N) :
  (exists f b, splitCalls axis plane t = [(f, b)])
  \/ (exists f0 f1 b, splitCalls axis plane t = [(f0, b); (f1, negb b)])
  \/ (exists f0 f1 f2 b, splitCalls axis plane t = [(f0, b); (f1, negb b); (f2, negb b)]).
Proof.
  unfold splitCalls, splitTriangle_body.
  repeat match goal with
         | |- context [if ?c then _ else _] =>
             match c with
             | context [if _ then _ else _] => fail 1
             | _ => destruct c
             end
         end; cbn [app];
    first [ left; eexists _, _; reflexivity
          | right; left; eexists _, _, _; reflexivity
          | right; right; eexists _, _, _, _; reflexivity ].
Qed.

(** The state after a sequence of pushes to two different vectors. *)
Lemma pushes_state (mode : DiscardMode) (outLo outHi : BufId)
    (calls : list (TexturedTriangle * bool)) (s : Buffers) :
  outLo <> outHi ->
  fold_left (fun s' c => pushLoIfTrueElseHi mode outLo outHi (fst c) (snd c) s') calls s
  = buf_set outHi (buf_get outHi s ++ (if keeps mode false then sorted_hi calls else []))
      (buf_set outLo (buf_get outLo s ++ (if keeps mode true then sorted_lo calls else [])) s).
Proof.
  intros Hne. revert s. induction calls as [|[f lo] calls IH]; intros s.
  - cbn [fold_left]. unfold sorted_hi, sorted_lo. cbn [List.filter map].
    destruct (keeps mode false), (keeps mode true);
      rewrite ?app_nil_r, !buf_set_get; reflexivity.
  - cbn [fold_left fst snd]. rewrite IH.
    unfold sorted_hi, sorted_lo.
    destruct outLo, outHi; try (now contradiction Hne);
      destruct mode, lo, s; cbn; rewrite <- ?app_assoc; reflexivity.
Qed.

Lemma sorted_length (calls : list (TexturedTriangle * bool)) :
  (length (sorted_lo calls) + length (sorted_hi calls) = length calls)%nat.
Proof.
  unfold sorted_lo, sorted_hi. induction calls as [|[f lo] calls IH]; [reflexivity|].
  destruct lo; cbn [List.filter snd negb map length]; lia.
Qed.

Lemma push_subset (mode : DiscardMode) (outLo outHi r : BufId) (f g : TexturedTriangle)
    (lo : bool) (s : Buffers) :
  In g (buf_get r (pushLoIfTrueElseHi mode outLo outHi f lo s)) ->
  In g (buf_get r s) \/ g = f.
Proof.
  assert (Hpush : forall q, In g (buf_get r (push_back q f s)) -> In g (buf_get r s) \/ g = f).
  { intros q. unfold push_back. destruct r, q; cbn; rewrite ?in_app_iff; cbn; intuition. }
  unfold pushLoIfTrueElseHi. destruct mode, lo; cbn [negb]; eauto.
Qed.

(** ** The six cuts *)












(** X1. With two different output vectors, the discarding instantiations of
    [splitTriangle] are the one without discarding with one side left out:
    [DISCARD_LO] appends to [outHi] what [NONE] appends to it and leaves
    [outLo] as it was, and [DISCARD_HI] the other way round; the third vector
    is never touched. *)
Theorem splitTriangle_discard_modes (axis : nat) (plane : N) (t : TexturedTriangle)
    (outLo outHi : BufId) (s : Buffers) :
  outLo <> outHi ->
  let full := splitTriangle NONE axis plane t outLo outHi s in
  splitTriangle DISCARD_LO axis plane t outLo outHi s = buf_set outLo (buf_get outLo s) full
  /\ splitTriangle DISCARD_HI axis plane t outLo outHi s = buf_set outHi (buf_get outHi s) full
  /\ forall r, r <> outLo -> r <> outHi -> buf_get r full = buf_get r s.
Proof.
  intros Hne full. subst full. unfold splitTriangle.
  rewrite !splitTriangle_body_calls, !pushes_state by assumption.
  cbn [keeps negb]. rewrite !app_nil_r.
  split; [|split].
  - destruct outLo, outHi, s; try reflexivity; now contradiction Hne.
  - destruct outLo, outHi, s; try reflexivity; now contradiction Hne.
  - intros r H1 H2. now rewrite !buf_get_set_ne by assumption.
Qed.

Lemma splitTriangle_discard_modes_witness :
  let full := splitTriangle NONE 0 1 tri_2x2 Buf1 Buf2 empty_buffers in
  splitTriangle DISCARD_LO 0 1 tri_2x2 Buf1 Buf2 empty_buffers
  = buf_set Buf1 (buf_get Buf1 empty_buffers) full
  /\ splitTriangle DISCARD_HI 0 1 tri_2x2 Buf1 Buf2 empty_buffers
     = buf_set Buf2 (buf_get Buf2 empty_buffers) full
  /\ forall r, r <> Buf1 -> r <> Buf2 -> buf_get r full = buf_get r empty_buffers.
Proof.
  apply (splitTriangle_discard_modes 0 1 tri_2x2 Buf1 Buf2 empty_buffers). discriminate.
Defined.

(** X2. Whatever the discard mode and the output vectors, every triangle that
    [splitTriangle] adds to a vector has its three corners in the triangle
    [t], and the UV of each corner is the linear interpolation of the UVs of
    [t] with the same barycentric weights: no geometry is invented and the
    texture stays attached to the surface. *)
Theorem splitTriangle_emits_interpolated (mode : DiscardMode) (axis : nat) (plane : N)
    (t : TexturedTriangle) (outLo outHi r : BufId) (s : Buffers) :
  Forall (fun f => In f (buf_get r s) \/ fragment_of t f)
         (buf_get r (splitTriangle mode axis plane t outLo outHi s)).
Proof.
  unfold splitTriangle. rewrite splitTriangle_body_calls.
  pose proof (splitCalls_fragment_of t axis plane) as HF.
  assert (Hs : Forall (fun f => In f (buf_get r s) \/ fragment_of t f) (buf_get r s)).
  { rewrite List.Forall_forall. intros f Hf. now left. }
  revert Hs. generalize s at 2 4 as s'.
  induction HF as [|c calls Hc HF IH]; intros s' Hs'; [exact Hs'|].
  cbn [fold_left]. apply IH.
  rewrite List.Forall_forall in *. intros g Hg.
  apply push_subset in Hg. destruct Hg as [Hg| ->]; [now apply Hs'|now right].
Qed.

(** X3. Without discarding and with two different output vectors,
    [splitTriangle] only appends; it appends the triangle itself to one
    vector, or two or three pieces with at least one piece on each side. *)
Theorem splitTriangle_appends_one_to_three (axis : nat) (plane : N) (t : TexturedTriangle)
    (outLo outHi : BufId) (s : Buffers) :
  outLo <> outHi ->
  exists lo hi : list TexturedTriangle,
    splitTriangle NONE axis plane t outLo outHi s
    = buf_set outHi (buf_get outHi s ++ hi) (buf_set outLo (buf_get outLo s ++ lo) s)
    /\ ((lo = [t] /\ hi = []) \/ (lo = [] /\ hi = [t])
        \/ ((1 <= length lo)%nat /\ (1 <= length hi)%nat
            /\ (length lo + length hi <= 3)%nat)).
Proof.
  intros Hne.
  exists (sorted_lo (splitCalls axis plane t)), (sorted_hi (splitCalls axis plane t)).
  split.
  - unfold splitTriangle. rewrite splitTriangle_body_calls, pushes_state by assumption.
    reflexivity.
  - pose proof (splitCalls_fragment_of t axis plane) as HF.
    destruct (splitCalls_shape t axis plane)
      as [(f & b & E)|[(f0 & f1 & b & E)|(f0 & f1 & f2 & b & E)]]; rewrite E.
    + assert (Hf : f = t).
      { revert E. unfold splitCalls, splitTriangle_body.
        repeat match goal with
               | |- context [if ?c then _ else _] =>
                   match c with
                   | context [if _ then _ else _] => fail 1
                   | _ => destruct c
                   end
               end; cbn [app]; intros E; now inversion E. }
      subst f. destruct b; [left|right; left]; split; reflexivity.
    + right; right. destruct b; cbn; lia.
    + right; right. destruct b; cbn; lia.
Qed.

Lemma splitTriangle_appends_one_to_three_witness :
  exists lo hi : list TexturedTriangle,
    splitTriangle NONE 0 1 tri_2x2 Buf1 Buf2 empty_buffers
    = buf_set Buf2 (buf_get Buf2 empty_buffers ++ hi)
        (buf_set Buf1 (buf_get Buf1 empty_buffers ++ lo) empty_buffers)
    /\ ((lo = [tri_2x2] /\ hi = []) \/ (lo = [] /\ hi = [tri_2x2])
        \/ ((1 <= length lo)%nat /\ (1 <= length hi)%nat
            /\ (length lo + length hi <= 3)%nat)).
Proof.
  apply (splitTriangle_appends_one_to_three 0 1 tri_2x2 Buf1 Buf2 empty_buffers). discriminate.
Defined.





(** ** The positions that the voxel loops visit *)

Lemma in_urange (x lo hi : N) : In x (urange lo hi) <-> (lo <= x < hi)%N.
Proof.
  unfold urange. rewrite in_map_iff. split.
  - intros (k & <- & Hk). apply in_seq in Hk. lia.
  - intros H. exists (N.to_nat x). split; [apply N2Nat.id|]. apply in_seq. lia.
Qed.

Lemma NoDup_map_injective {A B : Type} (f : A -> B) (l : list A) :
  (forall x y, f x = f y -> x = y) -> List.NoDup l -> List.NoDup (map f l).
Proof.
  intros Hf Hl. induction Hl as [|x l Hx Hl IH]; cbn [map]; constructor; [|exact IH].
  intros Hin. apply in_map_iff in Hin. destruct Hin as (y & Hy & Hin).
  apply Hf in Hy. subst y. now apply Hx.
Qed.

Lemma NoDup_urange (lo hi : N) : List.NoDup (urange lo hi).
Proof.
  unfold urange. apply NoDup_map_injective; [apply Nat2N.inj|apply seq_NoDup].
Qed.

Lemma NoDup_flat_map_disjoint {A B : Type} (f : A -> list B) (l : list A) :
  List.NoDup l -> (forall x, In x l -> List.NoDup (f x)) ->
  (forall x y b, In x l -> In y l -> In b (f x) -> In b (f y) -> x = y) ->
  List.NoDup (flat_map f l).
Proof.
  intros Hl. induction Hl as [|x l Hx Hl IH]; intros Hf Hd; cbn [flat_map]; [constructor|].
  apply List.NoDup_app.
  - apply Hf. now left.
  - apply IH.
    + intros y Hy. apply Hf. now right.
    + intros y z b Hy Hz. apply Hd; now right.
  - intros b Hb Hb'.
    apply in_flat_map in Hb'. destruct Hb' as (y & Hy & Hb').
    assert (x = y) by (apply (Hd x y b); auto using in_eq, in_cons).
    subst y. now apply Hx.
Qed.

Lemma in_voxelPositions (vmin vmax pos : Vec3u) :
  In pos (voxelPositions vmin vmax) <-> in_box vmin vmax pos = true.
Proof.
  unfold voxelPositions, in_box. destruct pos as [[x y] z]. cbn [ux uy uz fst snd].
  rewrite !andb_true_iff, !N.leb_le, !N.ltb_lt.
  rewrite in_flat_map. setoid_rewrite in_flat_map. setoid_rewrite in_urange.
  setoid_rewrite in_map_iff. setoid_rewrite in_urange. split.
  - intros (z' & Hz & y' & Hy & x' & E & Hx). inversion E; subst. lia.
  - intros H. exists z. split; [lia|]. exists y. split; [lia|]. exists x. split; [reflexivity|lia].
Qed.

Lemma NoDup_voxelPositions (vmin vmax : Vec3u) : List.NoDup (voxelPositions vmin vmax).
Proof.
  unfold voxelPositions.
  apply NoDup_flat_map_disjoint; [apply NoDup_urange| |].
  - intros z _. apply NoDup_flat_map_disjoint; [apply NoDup_urange| |].
    + intros y _. apply NoDup_map_injective; [|apply NoDup_urange].
      intros x x' E. now inversion E.
    + intros y y' b _ _ Hb Hb'. apply in_map_iff in Hb, Hb'.
      destruct Hb as (x & <- & _). destruct Hb' as (x' & E & _). now inversion E.
  - intros z z' b _ _ Hb Hb'. apply in_flat_map in Hb, Hb'.
    destruct Hb as (y & _ & Hb). destruct Hb' as (y' & _ & Hb').
    apply in_map_iff in Hb, Hb'.
    destruct Hb as (x & <- & _). destruct Hb' as (x' & E & _). now inversion E.
Qed.

Lemma fold_insertColor_lookup_in (strategy : ColorStrategy)
    (c : Vec3u -> WeightedColor) (l : list Vec3u) (m : gmap Vec3u WeightedColor)
    (p : Vec3u) :
  List.NoDup l -> In p l ->
  fold_left (fun m' q => insertColor strategy m' q (c q)) l m !! p
  = Some (match m !! p with None => c p | Some incumbent => combine strategy incumbent (c p) end).
Proof.
  intros Hl. revert m. induction Hl as [|q l Hq Hl IH]; intros m Hin; [contradiction|].
  cbn [fold_left]. destruct Hin as [->|Hin].
  - rewrite fold_insertColor_lookup_notin by assumption.
    apply insertColor_lookup_eq.
  - rewrite IH by assumption.
    rewrite insertColor_lookup_ne; [reflexivity|]. intros ->. now apply Hq.
Qed.

(** X6. [voxelizeSubTriangle], called with two different, empty scratch
    vectors, leaves the scratch vectors as they were and changes the map at
    one kind of cell only: a voxel of the integer bounding box of the
    sub-triangle that passes the distance cull and gets a weight other than
    zero.  Such a cell is written exactly once; it holds the voxel's colour
    if it was empty and the blend of the old colour with it otherwise.  Every
    other cell, inside or outside the box, keeps what it had. *)
Theorem voxelizeSubTriangle_lookup (inputTriangle : VisualTriangle)
    (subTriangle : TexturedTriangle) (preSplitBuffer postSplitBuffer : BufId)
    (s : Buffers) (out : gmap Vec3u WeightedColor) :
  preSplitBuffer <> postSplitBuffer ->
  buf_get preSplitBuffer s = [] -> buf_get postSplitBuffer s = [] ->
  let r := voxelizeSubTriangle inputTriangle subTriangle preSplitBuffer postSplitBuffer s out in
  fst r = s
  /\ forall pos : Vec3u,
       snd r !! pos
       = if in_box (voxelMin subTriangle) (voxelMax subTriangle) pos
            && contributes inputTriangle subTriangle pos
         then Some (blended (out !! pos) (voxelColor inputTriangle subTriangle pos))
         else out !! pos.
Proof.
  intros Hne Hpre Hpost r. subst r.
  rewrite voxelizeSubTriangle_spec by assumption. cbn [fst snd].
  split; [reflexivity|]. intros pos.
  unfold insertContributions, contributing_positions.
  destruct (in_box _ _ pos && contributes inputTriangle subTriangle pos) eqn:E.
  - apply andb_true_iff in E. destruct E as [Hbox Hc].
    rewrite fold_insertColor_lookup_in.
    + unfold blended. now destruct (out !! pos).
    + apply List.NoDup_filter, NoDup_voxelPositions.
    + apply filter_In. split; [now apply in_voxelPositions|assumption].
  - apply fold_insertColor_lookup_notin.
    intros Hin. apply filter_In in Hin. destruct Hin as [Hin Hc].
    apply in_voxelPositions in Hin. rewrite Hin, Hc in E. discriminate.
Qed.

Lemma voxelizeSubTriangle_lookup_witness :
  let r := voxelizeSubTriangle red_2x2 tri_2x2 Buf1 Buf2 empty_buffers out_with_origin in
  fst r = empty_buffers
  /\ forall pos : Vec3u,
       snd r !! pos
       = if in_box (voxelMin tri_2x2) (voxelMax tri_2x2) pos && contributes red_2x2 tri_2x2 pos
         then Some (blended (out_with_origin !! pos) (voxelColor red_2x2 tri_2x2 pos))
         else out_with_origin !! pos.
Proof.
  apply (voxelizeSubTriangle_lookup red_2x2 tri_2x2 Buf1 Buf2 empty_buffers out_with_origin).
  - discriminate.
  - reflexivity.
  - reflexivity.
Defined.

(** ** The weights that one input triangle leaves *)

Lemma weight_voxelColor (input : VisualTriangle) (sub : TexturedTriangle) (pos : Vec3u) :
  exists n : nat,
    weight (voxelColor input sub pos) = (INR n * area (vt_triangle input))%R.
Proof.
  unfold voxelColor, clipResult.
  destruct (clip _ _ _ _) as [fragments|].
  - exists (length fragments). apply weight_accumulate.
  - exists 0%nat. cbn. lra.
Qed.

Lemma area_nonneg (t : TexturedTriangle) : (0 <= area t)%R.
Proof.
  unfold area, length3. pose proof (sqrt_pos (Q2R (dotq (normal t) (normal t)))). lra.
Qed.

Lemma insertColor_whole_weights (a : R) (m : gmap Vec3u WeightedColor) (p : Vec3u)
    (c : WeightedColor) :
  whole_weights a m -> (0 < weight c)%R -> (exists n : nat, weight c = (INR n * a)%R) ->
  whole_weights a (insertColor BLEND m p c).
Proof.
  intros Hm Hc (n & Hn) pos c' Hl.
  destruct (decide (pos = p)) as [->|Hne].
  - rewrite insertColor_lookup_eq in Hl. inversion Hl; subst c'. clear Hl.
    destruct (m !! p) as [old|] eqn:E.
    + destruct (Hm p old E) as (Hold & k & Hk).
      cbn [combine mix weight]. split; [lra|].
      exists (k + n)%nat. rewrite plus_INR. lra.
    + split; [assumption|]. now exists n.
  - rewrite insertColor_lookup_ne in Hl by assumption. exact (Hm pos c' Hl).
Qed.

Lemma contributes_weight (input : VisualTriangle) (sub : TexturedTriangle) (pos : Vec3u) :
  contributes input sub pos = true -> (0 < weight (voxelColor input sub pos))%R.
Proof.
  unfold contributes, eqExactly. intros H. apply andb_true_iff in H. destruct H as [_ H].
  destruct (Req_dec_T _ 0) as [|Hne]; [discriminate|].
  destruct (weight_voxelColor input sub pos) as (n & Hn).
  pose proof (pos_INR n). pose proof (area_nonneg (vt_triangle input)).
  assert (0 <= weight (voxelColor input sub pos))%R by (rewrite Hn; nra).
  lra.
Qed.

Lemma insertContributions_whole_weights (input : VisualTriangle) (sub : TexturedTriangle)
    (m : gmap Vec3u WeightedColor) :
  whole_weights (area (vt_triangle input)) m ->
  whole_weights (area (vt_triangle input)) (insertContributions BLEND input sub m).
Proof.
  unfold insertContributions, contributing_positions.
  generalize (voxelPositions (voxelMin sub) (voxelMax sub)) as l.
  intros l. revert m. induction l as [|p l IH]; intros m Hm; [exact Hm|].
  cbn [List.filter]. destruct (contributes input sub p) eqn:E; [|now apply IH].
  cbn [fold_left]. apply IH. apply insertColor_whole_weights.
  - assumption.
  - now apply contributes_weight.
  - apply weight_voxelColor.
Qed.

Lemma contributions_whole_weights (input : VisualTriangle) (subs : list TexturedTriangle) :
  whole_weights (area (vt_triangle input)) (contributions input subs).
Proof.
  unfold contributions.
  assert (H0 : whole_weights (area (vt_triangle input)) (∅ : gmap Vec3u WeightedColor)).
  { intros pos c Hl. rewrite lookup_empty in Hl. discriminate. }
  revert H0. generalize (∅ : gmap Vec3u WeightedColor) as m.
  induction subs as [|sub subs IH]; intros m Hm; [exact Hm|].
  cbn [fold_left]. apply IH. now apply insertContributions_whole_weights.
Qed.

(** X7. With enough fuel for the subdivider, [voxelize] returns a map in which
    no cell has the weight zero: every stored weight is positive, and it is a
    whole multiple of the area of the input triangle, since each surviving
    fragment adds that area, whatever its own size. *)
Theorem voxelize_weights (inputTriangle : VisualTriangle) (fuel : nat)
    (buffers : Buffers) (out : gmap Vec3u WeightedColor) :
  (potential 0 [vt_triangle inputTriangle] < fuel)%nat ->
  exists buffers' out',
    voxelize fuel inputTriangle buffers out = Some (buffers', out')
    /\ forall pos c, out' !! pos = Some c ->
         (0 < weight c)%R
         /\ exists n : nat, weight c = (INR n * area (vt_triangle inputTriangle))%R.
Proof.
  intros Hf. destruct (subdivide_returns _ _ Hf) as (subs & Hs & _).
  exists (mkBuffers subs [] []), (contributions inputTriangle subs).
  split; [now rewrite voxelize_spec, Hs|].
  apply contributions_whole_weights.
Qed.

Lemma voxelize_weights_witness :
  exists buffers' out',
    voxelize 2 red_2x2 empty_buffers ∅ = Some (buffers', out')
    /\ forall pos c, out' !! pos = Some c ->
         (0 < weight c)%R
         /\ exists n : nat, weight c = (INR n * area (vt_triangle red_2x2))%R.
Proof.
  apply (voxelize_weights red_2x2 2 empty_buffers ∅). vm_compute. lia.
Defined.

(** ** The range of the diagonality *)

Lemma Qabs_square (x : Q) : (Qabs x * Qabs x == x * x)%Q.
Proof.
  rewrite <- Qabs_Qmult. apply Qabs_pos. nra.
Qed.

Lemma dotq_vabs (v : Vec3) : (dotq (vabs v) (vabs v) == dotq v v)%Q.
Proof.
  unfold dotq, vabs. cbn [v3x v3y v3z]. now rewrite !Qabs_square.
Qed.

Lemma sqrtThird_square : (sqrtThird * sqrtThird * 3 = 1)%R.
Proof.
  unfold sqrtThird. pose proof sqrt3_lower as H.
  assert (Hs : (sqrt 3 * sqrt 3 = 3)%R) by (apply sqrt_sqrt; lra).
  field_simplify; [|lra]. rewrite <- Hs at 1. field. lra.
Qed.

(** The normalised dot product of a vector without negative components with
    the diagonal lies between that of an axis and that of the diagonal. *)
Lemma diagonality_bounds (A B C L s : R) :
  (0 <= A)%R -> (0 <= B)%R -> (0 <= C)%R -> (0 < L)%R ->
  (L * L = A * A + B * B + C * C)%R ->
  (0 < s < 1)%R -> (s * s * 3 = 1)%R ->
  (0 <= (A / L * s + B / L * s + C / L * s - s) / (1 - s) <= 1)%R.
Proof.
  intros HA HB HC HL HLL [Hs0 Hs1] Hss.
  set (u := ((A + B + C) / L)%R).
  assert (Hu : (u * L = A + B + C)%R) by (subst u; field; lra).
  assert (H1 : (L <= A + B + C)%R) by nra.
  assert (H2 : ((A + B + C) * s <= L)%R).
  { destruct (Rle_lt_dec ((A + B + C) * s) L) as [|Hgt]; [assumption|exfalso].
    assert (H3 : (L * L < (A + B + C) * s * ((A + B + C) * s))%R) by nra.
    replace ((A + B + C) * s * ((A + B + C) * s))%R
      with ((A + B + C) * (A + B + C) * (s * s * 3) / 3)%R in H3 by field.
    rewrite Hss in H3.
    pose proof (Rle_0_sqr (A - B)) as S1. pose proof (Rle_0_sqr (B - C)) as S2.
    pose proof (Rle_0_sqr (C - A)) as S3. unfold Rsqr in *. lra. }
  assert (Hu1 : (1 <= u)%R) by nra.
  assert (Hu2 : (u * s <= 1)%R) by nra.
  replace (A / L * s + B / L * s + C / L * s - s)%R with (u * s - s)%R
    by (subst u; field; lra).
  set (i := (/ (1 - s))%R).
  assert (Hi : (0 < i)%R) by (apply Rinv_0_lt_compat; lra).
  assert (Hi1 : (i * (1 - s) = 1)%R) by (subst i; field; lra).
  unfold Rdiv. fold i. split; nra.
Qed.

(** X8. The diagonality that [subdivideLargeVolumeTriangles] compares with
    1/2 is a number between 0 (the normal along an axis) and 1 (the normal
    along the main diagonal) for every triangle with a normal other than
    zero; it is undefined (the division by the zero length) exactly for the
    triangles whose normal is the zero vector. *)
Theorem diagonality01_range (t : TexturedTriangle) :
  match diagonality01 t with
  | Some d => (0 <= d <= 1)%R /\ ~ (dotq (normal t) (normal t) == 0)%Q
  | None => (dotq (normal t) (normal t) == 0)%Q
  end.
Proof.
  unfold diagonality01, normalize.
  destruct (Qeq_bool (dotq (vabs (normal t)) (vabs (normal t))) 0) eqn:E.
  - apply Qeq_bool_iff in E. now rewrite dotq_vabs in E.
  - assert (Hn : ~ (dotq (vabs (normal t)) (vabs (normal t)) == 0)%Q).
    { intros H. apply Qeq_bool_iff in H. congruence. }
    split; [|now rewrite dotq_vabs in Hn].
    set (v := vabs (normal t)) in *.
    unfold dotr, diagonal3. cbn [rx ry rz].
    assert (HA : (0 <= Q2R (v3x v))%R).
    { rewrite <- RMicromega.Q2R_0. apply Qle_Rle. apply Qabs_nonneg. }
    assert (HB : (0 <= Q2R (v3y v))%R).
    { rewrite <- RMicromega.Q2R_0. apply Qle_Rle. apply Qabs_nonneg. }
    assert (HC : (0 <= Q2R (v3z v))%R).
    { rewrite <- RMicromega.Q2R_0. apply Qle_Rle. apply Qabs_nonneg. }
    assert (HQ : Q2R (dotq v v)
                 = (Q2R (v3x v) * Q2R (v3x v) + Q2R (v3y v) * Q2R (v3y v)
                    + Q2R (v3z v) * Q2R (v3z v))%R).
    { unfold dotq. now rewrite !Q2R_plus, !Q2R_mult. }
    assert (Hpos : (0 < Q2R (dotq v v))%R).
    { assert (Q2R (dotq v v) <> 0)%R.
      { intros H0. apply Hn. apply eqR_Qeq. now rewrite RMicromega.Q2R_0. }
      rewrite HQ in *. nra. }
    apply diagonality_bounds; try assumption.
    + unfold length3. now apply sqrt_lt_R0.
    + unfold length3. rewrite sqrt_sqrt by lra. exact HQ.
    + apply sqrtThird_bounds.
    + apply sqrtThird_square.
Qed.

(** ** The ring buffer as a queue *)

Section RingBufferFacts.
Context {T : Type}.
Variable capacity : nat.

Lemma mod_shift_ne (a j n : nat) :
  (j < n)%nat -> (n < capacity)%nat ->
  ((a + j) mod capacity)%nat <> ((a + n) mod capacity)%nat.
Proof.
  intros Hj Hn E.
  assert (Hc : capacity <> 0%nat) by lia.
  rewrite <- (Nat.Div0.add_mod_idemp_l a j), <- (Nat.Div0.add_mod_idemp_l a n) in E.
  pose proof (Nat.mod_upper_bound a capacity Hc) as Hm.
  set (m := (a mod capacity)%nat) in *.
  destruct (Nat.lt_ge_cases (m + n) capacity) as [H1|H1].
  - rewrite (Nat.mod_small (m + n)), (Nat.mod_small (m + j)) in E by lia. lia.
  - replace (m + n)%nat with ((m + n - capacity) + 1 * capacity)%nat in E by lia.
    rewrite Nat.Div0.mod_add, (Nat.mod_small (m + n - capacity)) in E by lia.
    destruct (Nat.lt_ge_cases (m + j) capacity) as [H2|H2].
    + rewrite (Nat.mod_small (m + j)) in E by lia. lia.
    + replace (m + j)%nat with ((m + j - capacity) + 1 * capacity)%nat in E by lia.
      rewrite Nat.Div0.mod_add, (Nat.mod_small (m + j - capacity)) in E by lia. lia.
Qed.

Lemma rb_queue_length (d : T) (b : RingBuffer T) :
  length (rb_queue capacity d b) = rb_size b.
Proof. unfold rb_queue, rb_size. now rewrite length_map, length_seq. Qed.

Lemma rb_push_queue (d x : T) (b : RingBuffer T) :
  rb_wf capacity b -> rb_full capacity b = false ->
  rb_wf capacity (rb_push capacity x b)
  /\ rb_queue capacity d (rb_push capacity x b) = rb_queue capacity d b ++ [x].
Proof.
  intros (Hc & Hlen & Hav & Hr & Hw) Hfull.
  apply Nat.eqb_neq in Hfull.
  assert (Hc' : capacity <> 0%nat) by lia.
  assert (Hslot : ((rb_w b + 1) mod capacity)%nat = rb_slot capacity b (avail b)).
  { unfold rb_slot. rewrite Hw, Nat.Div0.add_mod_idemp_l. f_equal. lia. }
  split.
  - unfold rb_wf, rb_push. cbn [content rb_r rb_w avail].
    rewrite length_insert. repeat split; try assumption; try lia.
    rewrite Hw, Nat.Div0.add_mod_idemp_l. f_equal. lia.
  - unfold rb_queue, rb_push. cbn [content rb_r rb_w avail].
    rewrite (Nat.add_1_r (avail b)), seq_S, map_app. cbn [map Nat.add]. f_equal.
    + apply map_ext_in. intros j Hj. apply in_seq in Hj.
      change (rb_slot capacity (mkRing (<[((rb_w b + 1) mod capacity)%nat := x]> (content b))
                                  (rb_r b) ((rb_w b + 1) mod capacity)%nat (S (avail b))) j)
        with (rb_slot capacity b j).
      rewrite !nth_lookup, list_lookup_insert_ne; [reflexivity|].
      rewrite Hslot. unfold rb_slot. intros E. symmetry in E. revert E.
      apply mod_shift_ne; lia.
    + f_equal.
      change (rb_slot capacity (mkRing (<[((rb_w b + 1) mod capacity)%nat := x]> (content b))
                                  (rb_r b) ((rb_w b + 1) mod capacity)%nat (S (avail b)))
                      (avail b))
        with (rb_slot capacity b (avail b)).
      rewrite Hslot, nth_lookup, list_lookup_insert_eq; [reflexivity|].
      rewrite Hlen. unfold rb_slot. now apply Nat.mod_upper_bound.
Qed.

Lemma rb_pop_queue (d : T) (b : RingBuffer T) :
  rb_wf capacity b -> rb_empty b = false ->
  rb_wf capacity (snd (rb_pop capacity d b))
  /\ rb_queue capacity d b
     = fst (rb_pop capacity d b) :: rb_queue capacity d (snd (rb_pop capacity d b)).
Proof.
  intros (Hc & Hlen & Hav & Hr & Hw) Hempty.
  apply Nat.eqb_neq in Hempty.
  assert (Hc' : capacity <> 0%nat) by lia.
  split.
  - unfold rb_wf, rb_pop. cbn [snd content rb_r rb_w avail].
    repeat split; try assumption; try lia.
    + now apply Nat.mod_upper_bound.
    + rewrite Hw, Nat.Div0.add_mod_idemp_l. f_equal. lia.
  - unfold rb_queue, rb_pop. cbn [fst snd content rb_r rb_w avail].
    destruct (avail b) as [|a] eqn:Ea; [contradiction|].
    cbn [seq map]. f_equal.
    + unfold rb_slot. cbn [rb_r]. f_equal. f_equal. lia.
    + rewrite Nat.sub_succ, Nat.sub_0_r, <- seq_shift, map_map.
      apply map_ext. intros j. unfold rb_slot. cbn [rb_r].
      rewrite <- (Nat.add_assoc ((rb_r b + 1) mod capacity)%nat), Nat.Div0.add_mod_idemp_l.
      f_equal; f_equal; lia.
Qed.

Lemma rb_clear_queue (d : T) (b : RingBuffer T) :
  rb_wf capacity b -> rb_wf capacity (rb_clear b) /\ rb_queue capacity d (rb_clear b) = [].
Proof.
  intros (Hc & Hlen & Hav & Hr & Hw). split; [|reflexivity].
  unfold rb_wf, rb_clear. cbn [content rb_r rb_w avail].
  repeat split; try assumption; try lia.
  rewrite Nat.add_0_r. symmetry. now apply Nat.mod_small.
Qed.

(** X9. [RingBuffer<T, N>] is a first-in, first-out queue of at most [N]
    elements.  On a buffer whose indices are consistent, [size()] is the
    number of elements held; [push] on a buffer that is not full appends its
    argument behind them; [pop] on a buffer that is not empty removes and
    returns the least recently pushed one; [tryPop] leaves [out] and the
    buffer alone when there is nothing to pop; [clear] empties the buffer;
    and all of them keep the indices consistent. *)
Theorem RingBuffer_is_fifo (d x : T) (b : RingBuffer T) :
  rb_wf capacity b ->
  length (rb_queue capacity d b) = rb_size b
  /\ (rb_full capacity b = false ->
      rb_wf capacity (rb_push capacity x b)
      /\ rb_queue capacity d (rb_push capacity x b) = rb_queue capacity d b ++ [x])
  /\ (rb_empty b = false ->
      rb_wf capacity (snd (rb_pop capacity d b))
      /\ rb_queue capacity d b
         = fst (rb_pop capacity d b) :: rb_queue capacity d (snd (rb_pop capacity d b)))
  /\ match rb_queue capacity d b with
     | [] => rb_tryPop capacity d b = (false, d, b)
     | y :: rest =>
         exists b', rb_tryPop capacity d b = (true, y, b')
                    /\ rb_wf capacity b' /\ rb_queue capacity d b' = rest
     end
  /\ (rb_wf capacity (rb_clear b) /\ rb_queue capacity d (rb_clear b) = []).
Proof.
  intros Hwf. split; [apply rb_queue_length|].
  split; [now apply rb_push_queue|].
  split; [now apply rb_pop_queue|].
  split; [|now apply rb_clear_queue].
  unfold rb_tryPop. destruct (rb_empty b) eqn:E.
  - apply Nat.eqb_eq in E. unfold rb_queue. now rewrite E.
  - destruct (rb_pop_queue d b Hwf E) as [Hwf' Hq]. rewrite Hq.
    eexists. split; [reflexivity|]. split; [exact Hwf'|reflexivity].
Qed.

(** X10. [peek], documented as returning the least recently pushed element,
    reads the slot at the read index, which is the slot of the element that
    was popped last: after a [pop] it returns the element that [pop] just
    removed, not the head of what remains; and a [push] that does not fill
    the buffer leaves the value it returns as it was. *)
Theorem RingBuffer_peek_is_stale (d x y : T) (rest : list T) (b : RingBuffer T) :
  rb_wf capacity b ->
  rb_queue capacity d b = x :: rest ->
  (avail b + 1 < capacity)%nat ->
  fst (rb_pop capacity d b) = x
  /\ rb_queue capacity d (snd (rb_pop capacity d b)) = rest
  /\ rb_peek d (snd (rb_pop capacity d b)) = x
  /\ rb_peek d (rb_push capacity y b) = rb_peek d b.
Proof.
  intros Hwf Hq Hroom.
  assert (E : rb_empty b = false).
  { unfold rb_empty. apply Nat.eqb_neq. intros E.
    unfold rb_queue in Hq. rewrite E in Hq. discriminate. }
  destruct (rb_pop_queue d b Hwf E) as [_ Hq']. rewrite Hq in Hq'.
  inversion Hq' as [[Hx Hrest]].
  split; [reflexivity|]. split; [reflexivity|]. split; [reflexivity|].
  destruct Hwf as (Hc & Hlen & Hav & Hr & Hw).
  unfold rb_peek, rb_push. cbn [content rb_r].
  rewrite !nth_lookup, list_lookup_insert_ne; [reflexivity|].
  rewrite Hw, Nat.Div0.add_mod_idemp_l, <- Nat.add_assoc.
  rewrite <- (Nat.mod_small (rb_r b) capacity) at 2 by assumption.
  rewrite <- (Nat.add_0_r (rb_r b)) at 2.
  intros E'. symmetry in E'. revert E'. apply mod_shift_ne; lia.
Qed.

End RingBufferFacts.

Lemma RingBuffer_is_fifo_witness :
  length (rb_queue 4 0%nat ring_7_8) = rb_size ring_7_8
  /\ (rb_full 4 ring_7_8 = false ->
      rb_wf 4 (rb_push 4 9%nat ring_7_8)
      /\ rb_queue 4 0%nat (rb_push 4 9%nat ring_7_8) = rb_queue 4 0%nat ring_7_8 ++ [9%nat])
  /\ (rb_empty ring_7_8 = false ->
      rb_wf 4 (snd (rb_pop 4 0%nat ring_7_8))
      /\ rb_queue 4 0%nat ring_7_8
         = fst (rb_pop 4 0%nat ring_7_8) :: rb_queue 4 0%nat (snd (rb_pop 4 0%nat ring_7_8)))
  /\ match rb_queue 4 0%nat ring_7_8 with
     | [] => rb_tryPop 4 0%nat ring_7_8 = (false, 0%nat, ring_7_8)
     | y :: rest =>
         exists b', rb_tryPop 4 0%nat ring_7_8 = (true, y, b')
                    /\ rb_wf 4 b' /\ rb_queue 4 0%nat b' = rest
     end
  /\ (rb_wf 4 (rb_clear ring_7_8) /\ rb_queue 4 0%nat (rb_clear ring_7_8) = []).
Proof.
  apply (RingBuffer_is_fifo 4 0%nat 9%nat ring_7_8).
  unfold rb_wf, ring_7_8. cbn. repeat split; lia.
Defined.

Lemma RingBuffer_peek_is_stale_witness :
  fst (rb_pop 4 0%nat ring_7_8) = 7%nat
  /\ rb_queue 4 0%nat (snd (rb_pop 4 0%nat ring_7_8)) = [8%nat]
  /\ rb_peek 0%nat (snd (rb_pop 4 0%nat ring_7_8)) = 7%nat
  /\ rb_peek 0%nat (rb_push 4 9%nat ring_7_8) = rb_peek 0%nat ring_7_8.
Proof.
  apply (RingBuffer_peek_is_stale 4 0%nat 7%nat 9%nat [8%nat] ring_7_8).
  - unfold rb_wf, ring_7_8. cbn. repeat split; lia.
  - reflexivity.
  - cbn. lia.
Defined.

(** ** The counter *)

(** X11. [++count] and [--count] of [Counter<uintmax_t>] undo each other for
    every value of the counter, also across the wrap-around between
    [2^64 - 1] and 0; and neither leaves the range of the type. *)
Theorem Counter_incr_decr (c : N) :
  (c < UMAX_MOD)%N ->
  counter_decr (counter_incr c) = c /\ counter_incr (counter_decr c) = c
  /\ (counter_incr c < UMAX_MOD)%N /\ (counter_decr c < UMAX_MOD)%N.
Proof.
  intros Hc. unfold counter_incr, counter_decr.
  assert (H0 : (UMAX_MOD <> 0)%N) by discriminate.
  assert (H1 : (1 < UMAX_MOD)%N) by reflexivity.
  repeat split; try (now apply N.mod_upper_bound).
  - destruct (N.eq_dec (c + 1)%N UMAX_MOD) as [E|E].
    + rewrite E, N.Div0.mod_same, N.add_0_l, N.mod_small by lia. lia.
    + rewrite (N.mod_small (c + 1)%N) by lia.
      replace (c + 1 + UMAX_MOD - 1)%N with (c + 1 * UMAX_MOD)%N by lia.
      rewrite N.Div0.mod_add. apply N.mod_small. lia.
  - destruct (N.eq_dec c 0%N) as [E|E].
    + subst c. rewrite N.add_0_l, (N.mod_small (UMAX_MOD - 1)%N) by lia.
      replace (UMAX_MOD - 1 + 1)%N with UMAX_MOD by lia. apply N.Div0.mod_same.
    + replace (c + UMAX_MOD - 1)%N with ((c - 1) + 1 * UMAX_MOD)%N by lia.
      rewrite N.Div0.mod_add, (N.mod_small (c - 1)%N) by lia.
      replace (c - 1 + 1)%N with c by lia. apply N.mod_small. lia.
Qed.

Lemma Counter_incr_decr_witness :
  counter_decr (counter_incr (UMAX_MOD - 1)) = (UMAX_MOD - 1)%N
  /\ counter_incr (counter_decr (UMAX_MOD - 1)) = (UMAX_MOD - 1)%N
  /\ (counter_incr (UMAX_MOD - 1) < UMAX_MOD)%N /\ (counter_decr (UMAX_MOD - 1) < UMAX_MOD)%N.
Proof.
  apply (Counter_incr_decr (UMAX_MOD - 1)). reflexivity.
Defined.

(** ** Commands go through the buffer in order *)


Lemma reachable_traced (threadCount : nat) (s : System) :
  reachable threadCount s -> exists h, traced threadCount s h.
Proof.
  intros Hr. induction Hr as [|s s' _ [h IH] Hstep].
  - eexists. apply traced_initial.
  - eexists. exact (traced_step threadCount s s' h IH Hstep).
Qed.

Lemma initial_ring_wf : rb_wf QUEUE_CAPACITY initial_ring.
Proof.
  unfold rb_wf, initial_ring, QUEUE_CAPACITY. cbn [content rb_r rb_w avail].
  rewrite repeat_length. repeat split; lia.
Qed.

Lemma pushed_by_same (q q' : CommandQueue) (m : MainPc) (ws ws' : list WorkerPc)
    (i i' f f' : nat) :
  pushed_by (mkSystem q m ws i f) (mkSystem q' m ws' i' f') = [].
Proof. unfold pushed_by. cbn [mainpc]. now destruct m. Qed.

Lemma received_by_same (b : RingBuffer WorkerCommand) (c c' : N) (m m' : MainPc)
    (ws ws' : list WorkerPc) (i i' f f' : nat) :
  received_by (mkSystem (mkQueue b c) m ws i f) (mkSystem (mkQueue b c') m' ws' i' f') = [].
Proof. unfold received_by. cbn [queue buffer]. now rewrite Nat.ltb_irrefl. Qed.

Lemma fifo_invariant (threadCount : nat) (s : System) (h : History) :
  traced threadCount s h ->
  rb_wf QUEUE_CAPACITY (buffer (queue s))
  /\ pushed h = received h ++ rb_queue QUEUE_CAPACITY EXIT (buffer (queue s)).
Proof.
  intros Ht. induction Ht as [|s s' h _ [Hwf Hq] Hstep].
  - split; [apply initial_ring_wf|reflexivity].
  - destruct Hstep; cbn [queue buffer] in *.
    + (* issue: increment *)
      destruct q as [b c']. cbn [buffer commandCounter].
      rewrite received_by_same. unfold pushed_by. cbn [mainpc pushed received].
      rewrite !app_nil_r. split; assumption.
    + (* issue: push *)
      destruct (rb_push_queue QUEUE_CAPACITY EXIT c (buffer q) Hwf H) as [Hwf' Hq'].
      split; [exact Hwf'|].
      unfold pushed_by, received_by.
      cbn [mainpc pushed received queue buffer rb_push avail].
      replace (avail (buffer q) + 1 <? avail (buffer q))%nat with false
        by (symmetry; apply Nat.ltb_ge; lia).
      rewrite app_nil_r, Hq', Hq, app_assoc. reflexivity.
    + destruct q as [b c']. rewrite received_by_same. unfold pushed_by.
      cbn [mainpc pushed received]. rewrite !app_nil_r. split; assumption.
    + destruct q as [b c']. rewrite received_by_same. unfold pushed_by.
      cbn [mainpc pushed received]. rewrite !app_nil_r. split; assumption.
    + (* receive *)
      destruct (rb_pop_queue QUEUE_CAPACITY EXIT (buffer q) Hwf H0) as [Hwf' Hq'].
      split; [exact Hwf'|].
      rewrite pushed_by_same. unfold received_by.
      cbn [pushed received queue buffer rb_pop snd avail].
      apply Nat.eqb_neq in H0.
      replace (avail (buffer q) - 1 <? avail (buffer q))%nat with true
        by (symmetry; apply Nat.ltb_lt; lia).
      rewrite app_nil_r, Hq, Hq', <- app_assoc. reflexivity.
    + destruct q as [b c']. rewrite received_by_same, pushed_by_same.
      cbn [pushed received]. rewrite !app_nil_r. split; assumption.
    + destruct q as [b c']. cbn [buffer commandCounter].
      rewrite received_by_same, pushed_by_same.
      cbn [pushed received]. rewrite !app_nil_r. split; assumption.
Qed.







(** X12. The workers receive the commands in the order in which the main
    thread has pushed them, each once: in every state of a run the sequence
    of the commands pushed is the sequence of the commands popped, followed
    by what the buffer holds, and the indices of the buffer are consistent
    (so that the assertions of [push] and [pop] hold). *)
Theorem commands_received_in_issue_order (threadCount : nat) (s : System) (h : History) :
  traced threadCount s h ->
  rb_wf QUEUE_CAPACITY (buffer (queue s))
  /\ pushed h = received h ++ rb_queue QUEUE_CAPACITY EXIT (buffer (queue s))
  /\ (length (pushed h) = length (received h) + rb_size (buffer (queue s)))%nat.
Proof.
  intros Ht. destruct (fifo_invariant threadCount s h Ht) as [Hwf Hq].
  split; [exact Hwf|]. split; [exact Hq|].
  rewrite Hq at 1. now rewrite length_app, rb_queue_length.
Qed.

Lemma commands_received_in_issue_order_witness :
  rb_wf QUEUE_CAPACITY (buffer (queue (one_issued EXIT)))
  /\ [EXIT] = [] ++ rb_queue QUEUE_CAPACITY EXIT (buffer (queue (one_issued EXIT)))
  /\ (length [EXIT] = length (@nil WorkerCommand) + rb_size (buffer (queue (one_issued EXIT))))%nat.
Proof.
  apply (commands_received_in_issue_order 1 (one_issued EXIT) (mkHistory [EXIT] [])).
  exact (traced_step 1 _ _ _
           (traced_step 1 _ _ _ (traced_initial 1)
              (step_issue_incr (mkQueue initial_ring 0) (repeat AtReceive 1) 0 0 EXIT))
           (step_issue_push (mkQueue initial_ring (counter_incr 0)) (repeat AtReceive 1)
              1 0 EXIT eq_refl)).
Defined.



(** ** One pass of the merge *)

Lemma NoDup_pair_after (l : list nat) (t a b n : nat) :
  List.NoDup (l ++ [t]) -> (forall i, In i (l ++ [t]) -> (i < n)%nat) ->
  (a = t /\ b = n) \/ (a = n /\ b = t) ->
  List.NoDup ((l ++ [a; b]) ++ []).
Proof.
  intros Hnd Hlt Hab. rewrite app_nil_r.
  apply List.NoDup_remove in Hnd. rewrite app_nil_r in Hnd. destruct Hnd as [Hl Ht].
  assert (Htn : (t < n)%nat) by (apply Hlt, in_or_app; right; now left).
  apply List.NoDup_app; [exact Hl| |].
  - destruct Hab as [[-> ->]|[-> ->]]; repeat constructor; cbn; lia.
  - intros x Hx Hx'.
    assert (Hxn : (x < n)%nat) by (apply Hlt, in_or_app; now left).
    destruct Hab as [[-> ->]|[-> ->]]; cbn in Hx'; intuition (subst; lia || auto).
Qed.

Lemma paired_app (l l' : list (nat * nat)) : paired (l ++ l') = paired l ++ paired l'.
Proof. unfold paired. apply flat_map_app. Qed.

Lemma nonempty_count_app (l l' : list VoxelMap) :
  nonempty_count (l ++ l') = (nonempty_count l + nonempty_count l')%nat.
Proof. unfold nonempty_count. now rewrite map_app, list_sum_app. Qed.

(** The state of the scan after the first [n] threads. *)
Lemma mergeScan_prefix (maps : list VoxelMap) (n : nat) :
  (n <= length maps)%nat ->
  let st := fold_left (mergeScan_step maps) (seq 0 n) (None, []) in
  let touched := paired (snd st) ++ pending (fst st) in
  List.NoDup touched
  /\ (forall i, In i touched <-> (i < n)%nat /\ map_is_empty (map_at maps i) = false)
  /\ Forall (fun c => (size (map_at maps (snd c)) <= size (map_at maps (fst c)))%nat) (snd st)
  /\ (2 * length (snd st) + length (pending (fst st)) = nonempty_count (take n maps))%nat.
Proof.
  induction n as [|n IH]; intros Hn; cbv zeta.
  - cbn. repeat split; try constructor; try lia; try contradiction.
  - rewrite seq_S, fold_left_app. cbn [fold_left Nat.add].
    specialize (IH ltac:(lia)). cbv zeta in IH.
    destruct (fold_left (mergeScan_step maps) (seq 0 n) (None, [])) as [tgt cmds].
    cbn [fst snd] in IH. destruct IH as (Hnd & Hin & Hsz & Hcnt).
    assert (Hlk : maps !! n = Some (map_at maps n)).
    { unfold map_at. destruct (nth_lookup_or_length maps n ∅) as [H|H]; [exact H|lia]. }
    rewrite (take_S_r _ _ _ Hlk), nonempty_count_app.
    assert (Hone : nonempty_count [map_at maps n]
                   = if map_is_empty (map_at maps n) then 0%nat else 1%nat).
    { unfold nonempty_count. cbn. lia. }
    rewrite Hone. clear Hone.
    unfold mergeScan_step. cbn [fst snd].
    destruct (map_is_empty (map_at maps n)) eqn:En.
    + cbn [fst snd]. split; [exact Hnd|]. split; [|split; [exact Hsz|lia]].
      intros i. rewrite Hin. split.
      * intros [H1 H2]. split; [lia|exact H2].
      * intros [H1 H2]. split; [|exact H2].
        destruct (Nat.eq_dec i n) as [->|]; [congruence|lia].
    + destruct tgt as [t|].
      * (* the second map of a pair *)
        assert (Hlt : forall i, In i (paired cmds ++ [t]) -> (i < n)%nat).
        { intros i Hi. now apply Hin in Hi. }
        assert (Hswap : exists a b,
                   (if (size (map_at maps t) <? size (map_at maps n))%nat
                    then (n, t) else (t, n)) = (a, b)
                   /\ ((a = t /\ b = n) \/ (a = n /\ b = t))
                   /\ (size (map_at maps b) <= size (map_at maps a))%nat).
        { destruct (size (map_at maps t) <? size (map_at maps n))%nat eqn:E.
          - apply Nat.ltb_lt in E. exists n, t. repeat split; [now right|lia].
          - apply Nat.ltb_ge in E. exists t, n. repeat split; [now left|lia]. }
        destruct Hswap as (a & b & -> & Hab & Hle).
        cbn [fst snd pending]. rewrite paired_app. cbn [paired flat_map fst snd app].
        split; [exact (NoDup_pair_after _ t a b n Hnd Hlt Hab)|].
        split; [|split].
        -- intros i. rewrite app_nil_r, in_app_iff. cbn [In].
           assert (Ht : (t < n)%nat /\ map_is_empty (map_at maps t) = false).
           { apply Hin. apply in_or_app. right. now left. }
           destruct Ht as [Ht1 Ht2].
           specialize (Hin i). rewrite in_app_iff in Hin. cbn [pending In] in Hin.
           split.
           ++ intros [H|[H|[H|[]]]].
              ** destruct Hin as [Hin _]. destruct (Hin (or_introl H)). split; [lia|assumption].
              ** subst i. destruct Hab as [[-> _]|[-> _]]; split; try lia; assumption.
              ** subst i. destruct Hab as [[_ ->]|[_ ->]]; split; try lia; assumption.
           ++ intros [H1 H2]. destruct (Nat.eq_dec i n) as [->|Hne].
              ** destruct Hab as [[_ ->]|[-> _]]; auto.
              ** destruct Hin as [_ Hin]. assert (Hi : (i < n)%nat) by lia.
                 destruct (Hin (conj Hi H2)) as [H|[H|[]]].
                 --- now left.
                 --- subst i. destruct Hab as [[-> _]|[_ ->]]; auto.
        -- apply Forall_app. split; [exact Hsz|]. constructor; [exact Hle|constructor].
        -- cbn [pending length] in *. rewrite length_app. cbn [length]. lia.
      * (* the first map of a pair *)
        cbn [fst snd pending] in *. rewrite app_nil_r in *. cbn [length] in Hcnt.
        split; [|split; [|split; [exact Hsz|cbn [length]; lia]]].
        -- apply List.NoDup_app; [exact Hnd|repeat constructor; intros []|].
           intros x Hx [<-|[]]. apply Hin in Hx. lia.
        -- intros i. rewrite in_app_iff. cbn [In]. rewrite Hin. split.
           ++ intros [[H1 H2]|[<-|[]]]; split; try lia; assumption.
           ++ intros [H1 H2]. destruct (Nat.eq_dec i n) as [->|]; [now right; left|].
              left. split; [lia|assumption].
Qed.

Lemma paired_distinct (commands : list (nat * nat)) :
  List.NoDup (paired commands) -> Forall (fun c => fst c <> snd c) commands.
Proof.
  induction commands as [|c commands IH]; intros Hnd; constructor.
  - cbn in Hnd. inversion Hnd as [|? ? Hn _]. intros E. apply Hn. left. now symmetry.
  - apply IH. cbn in Hnd. inversion Hnd as [|? ? _ Hnd']. now inversion Hnd'.
Qed.

(** X14. One pass of [mergeVoxelMaps] pairs the maps that are not empty:
    every such map is named by exactly one command of the pass or is the
    target left pending, no map is named twice, and no empty map is named at
    all; so the commands of a pass work on disjoint maps and their targets
    differ from their sources (the assertion of the constructor of the
    command).  The target of a command is never the smaller of the two.  With
    [k] maps that are not empty the pass issues [k / 2] commands. *)
Theorem mergeVoxelMaps_pass_pairs_maps (maps : list VoxelMap) :
  let mergeTarget := fst (mergeScan maps) in
  let commands := snd (mergeScan maps) in
  List.NoDup (paired commands ++ pending mergeTarget)
  /\ (forall i, In i (paired commands ++ pending mergeTarget)
                <-> (i < length maps)%nat /\ map_is_empty (map_at maps i) = false)
  /\ Forall (fun c => fst c <> snd c
                      /\ (size (map_at maps (snd c)) <= size (map_at maps (fst c)))%nat)
            commands
  /\ (2 * length commands + length (pending mergeTarget) = nonempty_count maps)%nat
  /\ (length (pending mergeTarget) <= 1)%nat.
Proof.
  pose proof (mergeScan_prefix maps (length maps) (Nat.le_refl _)) as H.
  cbv zeta in *. fold (mergeScan maps) in H. rewrite firstn_all in H.
  destruct H as (Hnd & Hin & Hsz & Hcnt).
  split; [exact Hnd|]. split; [exact Hin|]. split; [|split; [exact Hcnt|]].
  - apply List.NoDup_app_remove_r in Hnd. apply paired_distinct in Hnd.
    rewrite List.Forall_forall in *. intros c Hc. split; [now apply Hnd|now apply Hsz].
  - destruct (fst (mergeScan maps)); cbn; lia.
Qed.

(** ** The passes of the merge *)

Lemma list_sum_insert {A : Type} (f : A -> nat) (l : list A) (k : nat) (x y : A) :
  l !! k = Some x ->
  (list_sum (map f (<[k := y]> l)) + f x = list_sum (map f l) + f y)%nat.
Proof.
  revert k. induction l as [|z l IH]; intros k Hk; [discriminate|].
  destruct k as [|k]; cbn in Hk.
  - injection Hk as ->.
    change (<[0%nat := y]> (x :: l)) with (y :: l).
    rewrite !map_cons, !list_sum_cons. lia.
  - change (<[S k := y]> (z :: l)) with (z :: <[k := y]> l).
    rewrite !map_cons, !list_sum_cons. specialize (IH k Hk). lia.
Qed.

Lemma map_at_lookup (maps : list VoxelMap) (i : nat) :
  (i < length maps)%nat -> maps !! i = Some (map_at maps i).
Proof.
  intros Hi. unfold map_at. destruct (nth_lookup_or_length maps i ∅) as [H|H]; [exact H|lia].
Qed.

Lemma map_at_insert_eq (maps : list VoxelMap) (k : nat) (x : VoxelMap) :
  (k < length maps)%nat -> map_at (<[k := x]> maps) k = x.
Proof.
  intros Hk. unfold map_at. now rewrite nth_lookup, list_lookup_insert_eq.
Qed.

Lemma map_at_insert_ne (maps : list VoxelMap) (k j : nat) (x : VoxelMap) :
  k <> j -> map_at (<[k := x]> maps) j = map_at maps j.
Proof.
  intros Hk. unfold map_at. now rewrite !nth_lookup, list_lookup_insert_ne.
Qed.

Lemma merge_is_Some (strategy : ColorStrategy) (target source : VoxelMap) (pos : Vec3u) :
  is_Some (merge strategy target source !! pos)
  <-> is_Some (target !! pos) \/ is_Some (source !! pos).
Proof.
  unfold merge. rewrite lookup_union_with.
  destruct (target !! pos), (source !! pos); cbn; split;
    intros H; try (destruct H as [H|H]); eauto; try (now inversion H).
Qed.

Lemma map_is_empty_false (m : VoxelMap) :
  map_is_empty m = false <-> exists pos, is_Some (m !! pos).
Proof.
  unfold map_is_empty. rewrite Nat.eqb_neq. apply map_size_ne_0_lookup.
Qed.

Lemma map_is_empty_empty : map_is_empty ∅ = true.
Proof. unfold map_is_empty. now rewrite map_size_empty. Qed.

Lemma run_merge_facts (strategy : ColorStrategy) (maps : list VoxelMap) (t s : nat) :
  t <> s -> (t < length maps)%nat -> (s < length maps)%nat ->
  map_is_empty (map_at maps t) = false -> map_is_empty (map_at maps s) = false ->
  let maps' := run_merge strategy maps (t, s) in
  length maps' = length maps
  /\ (nonempty_count maps' + 1 = nonempty_count maps)%nat
  /\ (forall j, j <> t -> j <> s -> map_at maps' j = map_at maps j)
  /\ (forall pos, covers maps' pos <-> covers maps pos).
Proof.
  intros Hne Ht Hs Et Es maps'. subst maps'. unfold run_merge. cbn [fst snd].
  set (m := merge strategy (map_at maps t) (map_at maps s)).
  assert (Em : map_is_empty m = false).
  { apply map_is_empty_false. apply map_is_empty_false in Et. destruct Et as [pos Hp].
    exists pos. apply merge_is_Some. now left. }
  split; [now rewrite !length_insert|]. split; [|split].
  - unfold nonempty_count.
    pose proof (list_sum_insert (fun m => if map_is_empty m then 0%nat else 1%nat)
                  maps t _ m (map_at_lookup maps t Ht)) as H1.
    assert (Hs' : <[t := m]> maps !! s = Some (map_at maps s)).
    { rewrite list_lookup_insert_ne by assumption. now apply map_at_lookup. }
    pose proof (list_sum_insert (fun m => if map_is_empty m then 0%nat else 1%nat)
                  (<[t := m]> maps) s _ ∅ Hs') as H2.
    cbv beta in H1, H2. rewrite Et, Em in H1. rewrite Es, map_is_empty_empty in H2. lia.
  - intros j Hjt Hjs. now rewrite !map_at_insert_ne by congruence.
  - intros pos. unfold covers. rewrite !length_insert. split.
    + intros (i & Hi & Hp). destruct (Nat.eq_dec i s) as [->|His].
      * rewrite map_at_insert_eq in Hp by (now rewrite length_insert).
        rewrite lookup_empty in Hp. now destruct Hp.
      * rewrite map_at_insert_ne in Hp by congruence.
        destruct (Nat.eq_dec i t) as [->|Hit].
        -- rewrite map_at_insert_eq in Hp by assumption.
           apply merge_is_Some in Hp. destruct Hp as [Hp|Hp]; eauto.
        -- rewrite map_at_insert_ne in Hp by congruence. eauto.
    + intros (i & Hi & Hp).
      destruct (decide (i = s \/ i = t)) as [Hst|Hst].
      * exists t. split; [assumption|].
        rewrite map_at_insert_ne by congruence.
        rewrite map_at_insert_eq by assumption.
        apply merge_is_Some. destruct Hst as [->| ->]; auto.
      * exists i. split; [assumption|].
        rewrite !map_at_insert_ne by (intros E; apply Hst; subst; auto). exact Hp.
Qed.

Lemma run_merges_facts (strategy : ColorStrategy) (commands : list (nat * nat))
    (maps : list VoxelMap) :
  List.NoDup (paired commands) ->
  (forall i, In i (paired commands) ->
             (i < length maps)%nat /\ map_is_empty (map_at maps i) = false) ->
  let maps' := fold_left (run_merge strategy) commands maps in
  length maps' = length maps
  /\ (nonempty_count maps' + length commands = nonempty_count maps)%nat
  /\ (forall pos, covers maps' pos <-> covers maps pos).
Proof.
  revert maps. induction commands as [|[t s] commands IH]; intros maps Hnd Hin; cbv zeta.
  - cbn [fold_left length]. split; [reflexivity|]. split; [lia|]. intros pos. reflexivity.
  - cbn [fold_left]. cbn [paired flat_map fst snd app] in Hnd, Hin.
    fold (paired commands) in Hnd, Hin.
    inversion Hnd as [|? ? Ht Hnd']. subst. inversion Hnd' as [|? ? Hs Hnd'']. subst.
    assert (Hts : t <> s) by (intros ->; apply Ht; now left).
    destruct (Hin t (or_introl eq_refl)) as [Ht1 Ht2].
    destruct (Hin s (or_intror (or_introl eq_refl))) as [Hs1 Hs2].
    destruct (run_merge_facts strategy maps t s Hts Ht1 Hs1 Ht2 Hs2)
      as (Hlen & Hcnt & Hsame & Hcov).
    specialize (IH (run_merge strategy maps (t, s)) Hnd'').
    cbv zeta in IH. destruct IH as (Hlen' & Hcnt' & Hcov').
    + intros i Hi. rewrite Hlen.
      assert (Hit : i <> t) by (intros ->; apply Ht; now right).
      assert (His : i <> s) by (intros ->; now apply Hs).
      rewrite (Hsame i Hit His). apply Hin. right. now right.
    + split; [congruence|]. split; [cbn [length]; lia|].
      intros pos. now rewrite Hcov', Hcov.
Qed.

(** X15. [mergeVoxelMaps] terminates, and merging loses no voxel and invents
    none: with [k] maps that are not empty, [k + 1] passes are enough for
    it to return, and the map it returns has a voxel at a position exactly
    when the map of some worker had one there. *)
Theorem mergeVoxelMaps_returns_union (strategy : ColorStrategy) (maps : list VoxelMap)
    (extra : nat) :
  exists result,
    mergeVoxelMaps (S (nonempty_count maps) + extra) strategy maps = Some result
    /\ forall pos, is_Some (result !! pos) <-> covers maps pos.
Proof.
  remember (nonempty_count maps) as k eqn:Hk. symmetry in Hk.
  revert maps extra Hk.
  induction k as [k IH] using lt_wf_ind. intros maps extra Hk.
  pose proof (mergeScan_prefix maps (length maps) (Nat.le_refl _)) as H.
  cbv zeta in H. fold (mergeScan maps) in H. rewrite firstn_all in H.
  cbn [Nat.add mergeVoxelMaps].
  destruct (mergeScan maps) as [tgt cmds]. cbn [fst snd] in H.
  destruct H as (Hnd & Hin & _ & Hcnt).
  destruct cmds as [|c cmds].
  - cbn [length Nat.eqb]. eexists. split; [reflexivity|].
    cbn [paired flat_map app] in Hin. intros pos. unfold covers. split.
    + intros Hp. destruct tgt as [t|].
      * exists t. split; [|exact Hp]. apply (Hin t). now left.
      * rewrite lookup_empty in Hp. now destruct Hp.
    + intros (i & Hi & Hp).
      assert (Hi' : In i (pending tgt)).
      { apply Hin. split; [assumption|]. apply map_is_empty_false. eauto. }
      destruct tgt as [t|]; [|contradiction].
      destruct Hi' as [->|[]]. exact Hp.
  - cbn [length Nat.eqb].
    assert (Hnd' : List.NoDup (paired (c :: cmds))).
    { now apply List.NoDup_app_remove_r in Hnd. }
    assert (Hin' : forall i, In i (paired (c :: cmds)) ->
                     (i < length maps)%nat /\ map_is_empty (map_at maps i) = false).
    { intros i Hi. apply Hin. apply in_or_app. now left. }
    destruct (run_merges_facts strategy (c :: cmds) maps Hnd' Hin') as (Hlen & Hc & Hcov).
    set (maps' := fold_left (run_merge strategy) (c :: cmds) maps) in *.
    cbn [length] in Hc, Hcnt.
    assert (Hlt : (nonempty_count maps' < k)%nat) by lia.
    destruct (IH (nonempty_count maps') Hlt maps'
                (k + extra - S (nonempty_count maps'))%nat eq_refl) as (result & Hr & Hres).
    replace (S (nonempty_count maps') + (k + extra - S (nonempty_count maps')))%nat
      with (k + extra)%nat in Hr by lia.
    exists result. split; [exact Hr|].
    intros pos. now rewrite Hres, Hcov.
Qed.

Lemma run_merge_comm (strategy : ColorStrategy) (maps : list VoxelMap) (c c' : nat * nat) :
  fst c <> fst c' -> fst c <> snd c' -> snd c <> fst c' -> snd c <> snd c' ->
  run_merge strategy (run_merge strategy maps c) c'
  = run_merge strategy (run_merge strategy maps c') c.
Proof.
  destruct c as [a b], c' as [a' b']. cbn [fst snd]. intros H1 H2 H3 H4.
  unfold run_merge. cbn [fst snd].
  rewrite !map_at_insert_ne by congruence.
  set (m := merge strategy (map_at maps a) (map_at maps b)).
  set (m' := merge strategy (map_at maps a') (map_at maps b')).
  rewrite (list_insert_insert_ne _ a' b) by congruence.
  rewrite (list_insert_insert_ne _ a' a) by congruence.
  rewrite (list_insert_insert_ne _ b' b) by congruence.
  rewrite (list_insert_insert_ne _ b' a) by congruence.
  reflexivity.
Qed.

(** X16. The commands of one pass may be executed in any order: they name
    disjoint maps, so that two of them commute, and every order of execution
    by the workers leaves the same maps. *)
Theorem merge_commands_commute (strategy : ColorStrategy) (maps : list VoxelMap)
    (commands commands' : list (nat * nat)) :
  Permutation commands commands' ->
  List.NoDup (paired commands) ->
  fold_left (run_merge strategy) commands maps
  = fold_left (run_merge strategy) commands' maps.
Proof.
  intros Hp. revert maps.
  induction Hp as [|c l l' Hp IH|c c' l|l l' l'' Hp1 IH1 Hp2 IH2]; intros maps Hnd.
  - reflexivity.
  - cbn [fold_left]. apply IH. cbn in Hnd.
    inversion Hnd as [|? ? _ Hnd']. now inversion Hnd'.
  - cbn [fold_left]. f_equal. symmetry. cbn in Hnd.
    inversion Hnd as [|? ? Ha Hnd1]. subst. inversion Hnd1 as [|? ? Hb Hnd2]. subst.
    cbn [In] in Ha, Hb.
    apply run_merge_comm; intros E; rewrite E in *; tauto.
  - rewrite IH1 by assumption. apply IH2.
    assert (Hpp : Permutation (paired l) (paired l')).
    { unfold paired. now apply Permutation_flat_map. }
    exact (Permutation_NoDup Hpp Hnd).
Qed.

Lemma merge_commands_commute_witness :
  fold_left (run_merge BLEND) [(0, 1); (3, 2)]%nat four_maps
  = fold_left (run_merge BLEND) [(3, 2); (0, 1)]%nat four_maps.
Proof.
  apply (merge_commands_commute BLEND four_maps [(0, 1); (3, 2)]%nat [(3, 2); (0, 1)]%nat).
  - apply perm_swap.
  - cbn. repeat constructor; cbn; lia.
Defined.

(** ** The bounding box of the mesh *)

Lemma vidx_vmin3 (a b : Vec3) (i : nat) :
  vidx (FileVoxelization.vmin3 a b) i = qmin (vidx a i) (vidx b i).
Proof. destruct i as [|[|i]]; reflexivity. Qed.

Lemma vidx_vmax3 (a b : Vec3) (i : nat) :
  vidx (FileVoxelization.vmax3 a b) i = qmax (vidx a i) (vidx b i).
Proof. destruct i as [|[|i]]; reflexivity. Qed.

Lemma qmin_cases (a b : Q) : qmin a b = a \/ qmin a b = b.
Proof. unfold qmin. destruct (Qle_bool a b); auto. Qed.

Lemma qmax_cases (a b : Q) : qmax a b = a \/ qmax a b = b.
Proof. unfold qmax. destruct (Qle_bool a b); auto. Qed.

Lemma findBoundaries_fold (data : list Q) (l : list nat) (mn mx : Vec3) (axis : nat) :
  let r := fold_left (fun mm k =>
                        let p := FileVoxelization.vec_at data (3 * k) in
                        (FileVoxelization.vmin3 (fst mm) p, FileVoxelization.vmax3 (snd mm) p))
                     l (mn, mx) in
  (vidx (fst r) axis <= vidx mn axis)%Q /\ (vidx mx axis <= vidx (snd r) axis)%Q
  /\ (forall k, In k l ->
        (vidx (fst r) axis <= vidx (FileVoxelization.vec_at data (3 * k)) axis)%Q
        /\ (vidx (FileVoxelization.vec_at data (3 * k)) axis <= vidx (snd r) axis)%Q)
  /\ (vidx (fst r) axis = vidx mn axis
      \/ exists k, In k l /\ vidx (fst r) axis = vidx (FileVoxelization.vec_at data (3 * k)) axis)
  /\ (vidx (snd r) axis = vidx mx axis
      \/ exists k, In k l /\ vidx (snd r) axis = vidx (FileVoxelization.vec_at data (3 * k)) axis).
Proof.
  revert mn mx. induction l as [|k l IH]; intros mn mx; cbv zeta.
  - cbn [fold_left fst snd]. repeat split; try lra; try contradiction; now left.
  - cbn [fold_left fst snd].
    set (p := FileVoxelization.vec_at data (3 * k)).
    specialize (IH (FileVoxelization.vmin3 mn p) (FileVoxelization.vmax3 mx p)).
    cbv zeta in IH. destruct IH as (H1 & H2 & H3 & H4 & H5).
    rewrite vidx_vmin3 in H1, H4. rewrite vidx_vmax3 in H2, H5.
    pose proof (qmin_le_l (vidx mn axis) (vidx p axis)).
    pose proof (qmin_le_r (vidx mn axis) (vidx p axis)).
    pose proof (qmax_ge_l (vidx mx axis) (vidx p axis)).
    pose proof (qmax_ge_r (vidx mx axis) (vidx p axis)).
    split; [lra|]. split; [lra|]. split; [|split].
    + intros j [<-|Hj]; [fold p; split; lra|now apply H3].
    + destruct H4 as [H4|(j & Hj & H4)].
      * destruct (qmin_cases (vidx mn axis) (vidx p axis)) as [E|E]; rewrite E in H4.
        -- now left.
        -- right. exists k. split; [now left|exact H4].
      * right. exists j. split; [now right|exact H4].
    + destruct H5 as [H5|(j & Hj & H5)].
      * destruct (qmax_cases (vidx mx axis) (vidx p axis)) as [E|E]; rewrite E in H5.
        -- now left.
        -- right. exists k. split; [now left|exact H5].
      * right. exists j. split; [now right|exact H5].
Qed.

(** X17. [findBoundaries] returns the bounding box of the first
    [vertexCount] vertices of the buffer: on every axis each of these
    vertices lies between the two corners, and each corner coordinate is the
    coordinate of one of them (of vertex 0 when [vertexCount] is 0, which the
    function reads in any case). *)
Theorem findBoundaries_bounds (data : list Q) (vertexCount : N) (axis : nat) :
  let outMin := fst (FileVoxelization.findBoundaries data vertexCount) in
  let outMax := snd (FileVoxelization.findBoundaries data vertexCount) in
  let vertexAt k := FileVoxelization.vec_at data (3 * k) in
  (forall k, (k < N.to_nat vertexCount)%nat ->
     (vidx outMin axis <= vidx (vertexAt k) axis)%Q
     /\ (vidx (vertexAt k) axis <= vidx outMax axis)%Q)
  /\ (exists k, (k < Nat.max 1 (N.to_nat vertexCount))%nat
                /\ vidx outMin axis = vidx (vertexAt k) axis)
  /\ (exists k, (k < Nat.max 1 (N.to_nat vertexCount))%nat
                /\ vidx outMax axis = vidx (vertexAt k) axis)
  /\ (vidx outMin axis <= vidx outMax axis)%Q.
Proof.
  cbv zeta. unfold FileVoxelization.findBoundaries.
  pose proof (findBoundaries_fold data (seq 0 (N.to_nat vertexCount))
                (FileVoxelization.vec_at data 0) (FileVoxelization.vec_at data 0) axis) as H.
  cbv zeta in H. destruct H as (H1 & H2 & H3 & H4 & H5).
  split; [|split; [|split]].
  - intros k Hk. apply H3. apply in_seq. lia.
  - destruct H4 as [H4|(k & Hk & H4)].
    + exists 0%nat. split; [lia|exact H4].
    + exists k. apply in_seq in Hk. split; [lia|exact H4].
  - destruct H5 as [H5|(k & Hk & H5)].
    + exists 0%nat. split; [lia|exact H5].
    + exists k. apply in_seq in Hk. split; [lia|exact H5].
  - lra.
Qed.

(** ** The names of the colour strategies *)

Module ColorStrategyFacts.
Import String.
Import ColorStrategyNames.

(** X18. [parseColorStrategy] accepts the two names that [nameOf] produces
    and nothing else, and gives back the strategy that was named; when it
    rejects the string it leaves [out] as it was.  It is case sensitive:
    the lower-case names are rejected. *)
Theorem parseColorStrategy_nameOf (str : string) (strategy out : ColorStrategy) :
  parseColorStrategy (nameOf strategy) out = (true, strategy)
  /\ (fst (parseColorStrategy str out) = true
      <-> str = nameOf (snd (parseColorStrategy str out)))
  /\ (fst (parseColorStrategy str out) = false -> snd (parseColorStrategy str out) = out)
  /\ parseColorStrategy "max" out = (false, out)
  /\ parseColorStrategy "blend" out = (false, out).
Proof.
  split; [now destruct strategy|]. split; [|split; [|split; reflexivity]].
  - unfold parseColorStrategy.
    destruct (String.eqb str "MAX") eqn:E1.
    + apply String.eqb_eq in E1. subst. cbn. tauto.
    + destruct (String.eqb str "BLEND") eqn:E2.
      * apply String.eqb_eq in E2. subst. cbn. tauto.
      * apply String.eqb_neq in E1, E2. cbn [fst snd]. split; [discriminate|].
        intros ->. destruct out; cbn in *; congruence.
  - unfold parseColorStrategy.
    destruct (String.eqb str "MAX"); [discriminate|].
    destruct (String.eqb str "BLEND"); [discriminate|reflexivity].
Qed.

End ColorStrategyFacts.

(** ** The output loop of the driver *)

Section DriverOutput.

Variable AffineTransform : Type.
Variable computeTransform : Vec3 -> Vec3 -> N -> Vec3u -> AffineTransform.
Variable hardware_concurrency : nat.
Variable Voxel32 : Type.
Variable run_workers :
  list (AffineTransform * ColorStrategy) -> list VisualTriangle -> list Voxel32.
Variable downscale_map : list Voxel32 -> ColorStrategy -> list Voxel32.
Variable VoxelSink : Type.
Variable canWrite : VoxelSink -> bool.
Variable write : Voxel32 -> VoxelSink -> VoxelSink.
Variable flush : VoxelSink -> VoxelSink.



End DriverOutput.


(** ** A machine that reports no hardware thread *)

Lemma no_workers_invariant (s : System) :
  reachable 0 s -> workers s = [] /\ finished s = 0%nat.
Proof.
  intros Hr. induction Hr as [|s s' _ [Hw Hf] Hstep]; [split; reflexivity|].
  destruct Hstep; cbn [workers finished] in *; subst;
    try (split; reflexivity); discriminate.
Qed.

(** X20. The driver creates as many workers as [hardware_concurrency()]
    reports, and that may be 0.  Without workers no command is ever
    completed: once the main thread has called [issue], the completion
    counter is never 0 again, and a [waitForCompletion()] does not return. *)
Theorem no_workers_no_completion (s : System) :
  reachable 0 s ->
  finished s = 0%nat
  /\ (issued s <> 0%nat ->
      commandCounter (queue s) <> 0%N
      /\ forall s', step s s' -> mainpc s = InWait -> mainpc s' = InWait).
Proof.
  intros Hr. destruct (no_workers_invariant s Hr) as [Hw Hf].
  split; [exact Hf|]. intros Hi.
  destruct (counter_invariant_reachable 0 s ltac:(reflexivity) Hr) as (_ & _ & Hc & Hiu).
  assert (Hne : commandCounter (queue s) <> 0%N) by (rewrite Hc; lia).
  split; [exact Hne|].
  intros s' Hstep Hm. destruct Hstep; cbn [mainpc queue] in *; try congruence.
Qed.

Lemma no_workers_no_completion_witness :
  finished (issued_without_workers EXIT) = 0%nat
  /\ (issued (issued_without_workers EXIT) <> 0%nat ->
      commandCounter (queue (issued_without_workers EXIT)) <> 0%N
      /\ forall s', step (issued_without_workers EXIT) s' ->
                    mainpc (issued_without_workers EXIT) = InWait -> mainpc s' = InWait).
Proof.
  apply (no_workers_no_completion (issued_without_workers EXIT)).
  apply (reachable_step 0 (initial 0)); [apply reachable_initial|].
  apply (step_issue_incr (mkQueue initial_ring 0) [] 0 0 EXIT).
Defined.

(** ** The plane-distance test *)

Lemma clip_nonempty (select : N -> DiscardMode) (pos : Vec3u) (planes : list (N * nat))
    (A fragments : list TexturedTriangle) :
  clip select pos planes A = Some fragments -> A <> [] -> fragments <> [].
Proof.
  revert A. induction planes as [|[side a] planes IH]; intros A Hc HA.
  - cbn in Hc. now inversion Hc; subst.
  - cbn [clip] in Hc. destruct (flat_map _ A) as [|b B]; [discriminate|].
    apply (IH (b :: B)); [exact Hc|discriminate].
Qed.













(** ** The cells that one input triangle fills *)

Lemma insertContributions_lookup (input : VisualTriangle) (sub : TexturedTriangle)
    (m : gmap Vec3u WeightedColor) (pos : Vec3u) :
  insertContributions BLEND input sub m !! pos
  = if reaches input sub pos
    then Some (blended (m !! pos) (voxelColor input sub pos))
    else m !! pos.
Proof.
  unfold insertContributions, contributing_positions, reaches.
  destruct (in_box _ _ pos && contributes input sub pos) eqn:E.
  - apply andb_true_iff in E. destruct E as [Hbox Hc].
    rewrite fold_insertColor_lookup_in.
    + unfold blended. now destruct (m !! pos).
    + apply List.NoDup_filter, NoDup_voxelPositions.
    + apply filter_In. split; [now apply in_voxelPositions|assumption].
  - apply fold_insertColor_lookup_notin.
    intros Hin. apply filter_In in Hin. destruct Hin as [Hin Hc].
    apply in_voxelPositions in Hin. rewrite Hin, Hc in E. discriminate.
Qed.

Lemma contributions_from_is_Some (input : VisualTriangle) (subs : list TexturedTriangle)
    (m : gmap Vec3u WeightedColor) (pos : Vec3u) :
  is_Some (fold_left (fun m' sub => insertContributions BLEND input sub m') subs m !! pos)
  <-> is_Some (m !! pos) \/ exists sub, In sub subs /\ reaches input sub pos = true.
Proof.
  revert m. induction subs as [|sub subs IH]; intros m; cbn [fold_left].
  - split; [now left|]. intros [H|(sub & [] & _)]. exact H.
  - rewrite IH, insertContributions_lookup. split.
    + intros [H|(sub' & Hin & Hr)].
      * destruct (reaches input sub pos) eqn:E.
        -- right. exists sub. split; [now left|exact E].
        -- now left.
      * right. exists sub'. split; [now right|exact Hr].
    + intros [H|(sub' & [<-|Hin] & Hr)].
      * left. destruct (reaches input sub pos); [eauto|exact H].
      * left. rewrite Hr. eauto.
      * right. exists sub'. split; assumption.
Qed.

(** X22. With enough fuel for the subdivider, the map that [voxelize]
    returns has a colour at a position exactly when, for one of the
    sub-triangles that the subdivider produced, the position is in the
    integer bounding box of the sub-triangle, passes its plane-distance
    test, and gets a weight other than zero from [voxelizeVoxel]. *)
Theorem voxelize_filled_cells (inputTriangle : VisualTriangle) (fuel : nat)
    (buffers : Buffers) (out : gmap Vec3u WeightedColor) :
  (potential 0 [vt_triangle inputTriangle] < fuel)%nat ->
  exists subs buffers' out',
    subdivideLargeVolumeTriangles fuel (vt_triangle inputTriangle) [] = Some subs
    /\ voxelize fuel inputTriangle buffers out = Some (buffers', out')
    /\ forall pos,
         is_Some (out' !! pos)
         <-> exists sub, In sub subs /\ reaches inputTriangle sub pos = true.
Proof.
  intros Hf. destruct (subdivide_returns _ _ Hf) as (subs & Hs & _).
  exists subs, (mkBuffers subs [] []), (contributions inputTriangle subs).
  split; [exact Hs|]. split; [now rewrite voxelize_spec, Hs|].
  intros pos. unfold contributions. rewrite contributions_from_is_Some.
  rewrite lookup_empty. split.
  - intros [H|H]; [now destruct H|exact H].
  - intros H. now right.
Qed.

Lemma voxelize_filled_cells_witness :
  exists subs buffers' out',
    subdivideLargeVolumeTriangles 2 (vt_triangle red_2x2) [] = Some subs
    /\ voxelize 2 red_2x2 empty_buffers ∅ = Some (buffers', out')
    /\ forall pos,
         is_Some (out' !! pos)
         <-> exists sub, In sub subs /\ reaches red_2x2 sub pos = true.
Proof.
  apply (voxelize_filled_cells red_2x2 2 empty_buffers ∅). vm_compute. lia.
Defined.

(** ** The intersection parameter *)


(** ** What the subdivider keeps *)

Lemma subdivide4_fragment_of (t s : TexturedTriangle) :
  In s (subdivide4 t) -> fragment_of t s.
Proof.
  unfold subdivide4, mid3, mid2. intros Hin.
  assert (Hh : (0 <= 1 # 2 <= 1)%Q) by (split; discriminate).
  repeat (destruct Hin as [<-|Hin]); try contradiction;
    intros [|[|i]]; cbn [vertex texture tv0 tv1 tv2 tt0 tt1 tt2];
    repeat first [ apply interpolated_v0 | apply interpolated_v1 | apply interpolated_v2
                 | apply interpolated_mix; [| |exact Hh] ].
Qed.

Lemma quarter_area (X Y Z a b c : Vec3) :
  (n2 X Y Z == (1 # 4) * (1 # 4) * n2 a b c)%Q ->
  area3 X Y Z = (area3 a b c / 4)%R.
Proof.
  intros E. rewrite (area3_scale _ _ _ _ _ _ _ E) by discriminate.
  assert (H4 : Q2R (1 # 4) = (/ 4)%R) by (unfold Q2R; cbn [Qnum Qden]; lra).
  rewrite H4. lra.
Qed.

Lemma subdivide4_area (t : TexturedTriangle) : sum_area (subdivide4 t) = area t.
Proof.
  unfold subdivide4, sum_area. cbn [fold_right]. rewrite !area_mk, (area_area3 t).
  set (A := tv0 t). set (B := tv1 t). set (C := tv2 t).
  assert (E0 : area3 (mid3 A B) (mid3 B C) (mid3 C A) = (area3 A B C / 4)%R).
  { apply quarter_area. unfold n2, dotq, cross, vsub, mid3, mix3, mixq; cbn [v3x v3y v3z]. ring. }
  assert (E1 : area3 A (mid3 A B) (mid3 C A) = (area3 A B C / 4)%R).
  { apply quarter_area. unfold n2, dotq, cross, vsub, mid3, mix3, mixq; cbn [v3x v3y v3z]. ring. }
  assert (E2 : area3 (mid3 A B) B (mid3 B C) = (area3 A B C / 4)%R).
  { apply quarter_area. unfold n2, dotq, cross, vsub, mid3, mix3, mixq; cbn [v3x v3y v3z]. ring. }
  assert (E3 : area3 (mid3 C A) (mid3 B C) C = (area3 A B C / 4)%R).
  { apply quarter_area. unfold n2, dotq, cross, vsub, mid3, mix3, mixq; cbn [v3x v3y v3z]. ring. }
  rewrite E0, E1, E2, E3. lra.
Qed.

Lemma sum_area_app (l l' : list TexturedTriangle) :
  sum_area (l ++ l') = (sum_area l + sum_area l')%R.
Proof.
  unfold sum_area. induction l as [|x l IH]; cbn [app fold_right]; [lra|].
  rewrite IH. lra.
Qed.

Lemma sum_area_insert (l : list TexturedTriangle) (i : nat) (t x : TexturedTriangle) :
  l !! i = Some t ->
  sum_area (<[i := x]> l) = (sum_area l - area t + area x)%R.
Proof.
  revert i. induction l as [|y l IH]; intros i Hi; [discriminate|].
  destruct i as [|i]; cbn in Hi.
  - injection Hi as ->. change (<[0%nat := x]> (t :: l)) with (x :: l).
    unfold sum_area. cbn [fold_right]. lra.
  - change (<[S i := x]> (y :: l)) with (y :: <[i := x]> l).
    unfold sum_area in *. cbn [fold_right]. rewrite (IH i Hi). lra.
Qed.

Lemma in_list_insert (l : list TexturedTriangle) (i : nat) (x y : TexturedTriangle) :
  In y (<[i := x]> l) -> y = x \/ In y l.
Proof.
  revert i. induction l as [|z l IH]; intros i Hin; [contradiction|].
  destruct i as [|i].
  - change (<[0%nat := x]> (z :: l)) with (x :: l) in Hin.
    destruct Hin as [<-|Hin]; [now left|right; now right].
  - change (<[S i := x]> (z :: l)) with (z :: <[i := x]> l) in Hin.
    destruct Hin as [<-|Hin]; [right; now left|].
    destruct (IH i Hin) as [->|H]; [now left|right; now right].
Qed.

Lemma subdivide_loop_keeps (t0 : TexturedTriangle) (fuel : nat) :
  forall (i : nat) (out out' : list TexturedTriangle),
    subdivide_loop fuel i out = Some out' ->
    Forall (fragment_of t0) out ->
    Forall (fragment_of t0) out' /\ sum_area out' = sum_area out.
Proof.
  induction fuel as [|fuel IH]; intros i out out' Hr Hout; [discriminate|].
  cbn [subdivide_loop] in Hr. destruct (out !! i) as [t|] eqn:Et.
  2:{ inversion Hr; subst. split; [assumption|reflexivity]. }
  destruct (volume t <? volumeLimit)%N.
  - exact (IH _ _ _ Hr Hout).
  - pose proof (subdivide4_area t) as Ha.
    pose proof (subdivide4_fragment_of t) as Hfr.
    destruct (subdivide4 t) as [|s0 rest]; [discriminate|].
    assert (Ht : fragment_of t0 t).
    { rewrite List.Forall_forall in Hout. apply Hout.
      apply list_elem_of_In. eapply list_elem_of_lookup_2; eauto. }
    destruct (IH _ _ _ Hr) as [H1 H2].
    + rewrite List.Forall_forall in *. intros y Hy. apply in_app_or in Hy.
      destruct Hy as [Hy|Hy].
      * apply in_list_insert in Hy. destruct Hy as [->|Hy]; [|now apply Hout].
        apply (fragment_of_trans t0 t); [exact Ht|]. apply Hfr. now left.
      * apply (fragment_of_trans t0 t); [exact Ht|]. apply Hfr. now right.
    + split; [exact H1|]. rewrite H2, sum_area_app, (sum_area_insert _ _ t) by exact Et.
      change (sum_area (s0 :: rest)) with (area s0 + sum_area rest)%R in Ha. lra.
Qed.

(** X24. The subdivider changes neither the surface nor the texture
    mapping: with enough fuel it returns triangles each of which has its
    corners in the input triangle, with the UVs interpolated, and whose areas
    add up to the area of the input triangle. *)
Theorem subdivideLargeVolumeTriangles_keeps_surface (t : TexturedTriangle) (fuel : nat) :
  (potential 0 [t] < fuel)%nat ->
  exists out,
    subdivideLargeVolumeTriangles fuel t [] = Some out
    /\ Forall (fragment_of t) out
    /\ sum_area out = area t.
Proof.
  intros Hf. destruct (subdivide_returns t fuel Hf) as (out & Hr & _).
  exists out. split; [exact Hr|].
  assert (H0 : Forall (fragment_of t) [t]) by (repeat constructor; apply fragment_of_refl).
  assert (Ha : sum_area [t] = area t) by (unfold sum_area; cbn; lra).
  unfold subdivideLargeVolumeTriangles in Hr. cbn [app] in Hr.
  destruct (nearAxisAligned t).
  - inversion Hr; subst. split; assumption.
  - destruct (subdivide_loop_keeps t fuel 0 [t] out Hr H0) as [H1 H2].
    split; [exact H1|]. now rewrite H2.
Qed.

Lemma subdivideLargeVolumeTriangles_keeps_surface_witness :
  exists out,
    subdivideLargeVolumeTriangles 6 tri_skew [] = Some out
    /\ Forall (fragment_of tri_skew) out
    /\ sum_area out = area tri_skew.
Proof.
  apply (subdivideLargeVolumeTriangles_keeps_surface tri_skew 6). vm_compute. lia.
Defined.

(** ** The buffered output of the command-line front end *)

Section ConversionFacts.

Variable Voxel32 : Type.
Variable Writer : Type.
Variable insert_palette : WeightedColor -> Writer -> Writer.
Variable make_voxel : bool -> Writer -> Vec3u * WeightedColor -> Voxel32.
Variable writer_write : list Voxel32 -> Writer -> bool * Writer.
Variable VOXEL_BUFFER_32_SIZE : nat.




End ConversionFacts.



(** ** Triangles of one colour *)

Lemma mix_same_value (a b : WeightedColor) (c : Vec3r) :
  (0 <= weight a)%R -> (weight a = 0%R \/ value a = c) ->
  (0 < weight b)%R -> value b = c ->
  (0 < weight (mix a b))%R /\ value (mix a b) = c.
Proof.
  intros Ha Hva Hb Hvb. unfold mix. cbn [weight value]. split; [lra|].
  rewrite Hvb. destruct c as [cx cy cz]. cbn [rx ry rz].
  destruct Hva as [H0|Hv].
  - rewrite H0. f_equal; field; lra.
  - rewrite Hv. cbn [rx ry rz]. f_equal; field; lra.
Qed.

Lemma accumulate_uniform (input : VisualTriangle) (c : Vec3r)
    (fragments : list TexturedTriangle) :
  (forall uv, colorAt_f input uv = c) ->
  (0 < area (vt_triangle input))%R -> fragments <> [] ->
  (0 < weight (accumulate input fragments))%R /\ value (accumulate input fragments) = c.
Proof.
  intros Hc Ha Hne. unfold accumulate.
  assert (H : forall acc,
             (0 <= weight acc)%R -> (weight acc = 0%R \/ value acc = c) ->
             (weight acc = 0%R -> fragments <> []) ->
             let r := fold_left (fun result t =>
                                   mix result (mkWC (area (vt_triangle input))
                                                    (colorAt_f input (textureCenter t))))
                                fragments acc in
             (weight r = 0%R \/ value r = c) /\ (0 <= weight r)%R
             /\ (fragments <> [] -> (0 < weight r)%R /\ value r = c)).
  { clear Hne. induction fragments as [|f fragments IH]; intros acc H0 H1 H2; cbv zeta.
    - cbn [fold_left]. split; [exact H1|]. split; [exact H0|]. intros H. now contradiction H.
    - cbn [fold_left].
      destruct (mix_same_value acc (mkWC (area (vt_triangle input))
                                         (colorAt_f input (textureCenter f))) c H0 H1 Ha
                  (Hc _)) as [Hw Hv].
      specialize (IH (mix acc (mkWC (area (vt_triangle input))
                                    (colorAt_f input (textureCenter f))))
                     ltac:(lra) (or_intror Hv)).
      cbv zeta in IH. destruct IH as (I1 & I2 & I3); [intros E; lra|].
      split; [exact I1|]. split; [exact I2|]. intros _.
      destruct fragments as [|g fragments]; [cbn [fold_left]; split; assumption|].
      apply I3. discriminate. }
  destruct (H WC_zero) as (_ & _ & H3); cbn [WC_zero weight]; try lra; auto.
Qed.

Lemma voxelColor_uniform (input : VisualTriangle) (c : Vec3r) (sub : TexturedTriangle)
    (pos : Vec3u) :
  (forall uv, colorAt_f input uv = c) ->
  contributes input sub pos = true ->
  (0 < weight (voxelColor input sub pos))%R /\ value (voxelColor input sub pos) = c.
Proof.
  intros Hc Hcon. pose proof (contributes_weight input sub pos Hcon) as Hw.
  split; [exact Hw|].
  unfold voxelColor, clipResult in *.
  destruct (clip select_far_side pos sixPlanes [sub]) as [fragments|] eqn:E.
  - assert (Hne : fragments <> []) by (apply (clip_nonempty _ _ _ _ _ E); discriminate).
    rewrite weight_accumulate in Hw.
    assert (Ha : (0 < area (vt_triangle input))%R).
    { pose proof (area_nonneg (vt_triangle input)). pose proof (pos_INR (length fragments)).
      destruct (Req_dec (area (vt_triangle input)) 0) as [E0|E0]; [rewrite E0 in Hw|]; lra. }
    now apply accumulate_uniform.
  - cbn in Hw. lra.
Qed.

Lemma insertContributions_uniform (input : VisualTriangle) (c : Vec3r)
    (sub : TexturedTriangle) (m : gmap Vec3u WeightedColor) :
  (forall uv, colorAt_f input uv = c) ->
  uniform_colour c m -> uniform_colour c (insertContributions BLEND input sub m).
Proof.
  intros Hc Hm pos col Hl. rewrite insertContributions_lookup in Hl.
  destruct (reaches input sub pos) eqn:E; [|exact (Hm pos col Hl)].
  apply andb_true_iff in E. destruct E as [_ Hcon].
  destruct (voxelColor_uniform input c sub pos Hc Hcon) as [Hw Hv].
  inversion Hl; subst col. clear Hl. unfold blended.
  destruct (m !! pos) as [old|] eqn:Eo; [|split; assumption].
  destruct (Hm pos old Eo) as [Hwo Hvo].
  apply mix_same_value; try assumption; [lra|now right].
Qed.

(** X27. A triangle of one colour gives voxels of that colour: when
    [colorAt_f] of the input triangle returns the same colour everywhere (an
    untextured triangle), every cell of the map that [voxelize] returns holds
    exactly that colour, with a positive weight, however many fragments and
    sub-triangles were blended into the cell. *)
Theorem voxelize_uniform_colour (inputTriangle : VisualTriangle) (c : Vec3r) (fuel : nat)
    (buffers : Buffers) (out : gmap Vec3u WeightedColor) :
  (forall uv, colorAt_f inputTriangle uv = c) ->
  (potential 0 [vt_triangle inputTriangle] < fuel)%nat ->
  exists buffers' out',
    voxelize fuel inputTriangle buffers out = Some (buffers', out')
    /\ forall pos col, out' !! pos = Some col -> (0 < weight col)%R /\ value col = c.
Proof.
  intros Hc Hf. destruct (subdivide_returns _ _ Hf) as (subs & Hs & _).
  exists (mkBuffers subs [] []), (contributions inputTriangle subs).
  split; [now rewrite voxelize_spec, Hs|].
  unfold contributions.
  assert (H0 : uniform_colour c (∅ : gmap Vec3u WeightedColor)).
  { intros pos col Hl. rewrite lookup_empty in Hl. discriminate. }
  revert H0. generalize (∅ : gmap Vec3u WeightedColor) as m. clear Hs.
  induction subs as [|sub subs IH]; intros m Hm; [exact Hm|].
  cbn [fold_left]. apply IH. now apply insertContributions_uniform.
Qed.

Lemma voxelize_uniform_colour_witness :
  exists buffers' out',
    voxelize 2 red_2x2 empty_buffers ∅ = Some (buffers', out')
    /\ forall pos col, out' !! pos = Some col -> (0 < weight col)%R /\ value col = red.
Proof.
  apply (voxelize_uniform_colour red_2x2 red 2 empty_buffers ∅).
  - reflexivity.
  - vm_compute. lia.
Defined.

(** ** The area that the cuts leave *)

Lemma sum_area_nonneg (l : list TexturedTriangle) : (0 <= sum_area l)%R.
Proof.
  unfold sum_area. induction l as [|t l IH]; cbn [fold_right]; [lra|].
  pose proof (area_nonneg t). lra.
Qed.

Lemma splitInto_area (mode : DiscardMode) (axis : nat) (plane : N) (t : TexturedTriangle) :
  (sum_area (splitInto mode axis plane t) <= area t)%R.
Proof.
  destruct (split_exact_calls t axis plane) as (Ha & _ & _).
  rewrite sum_area_app in Ha.
  pose proof (sum_area_nonneg (sorted_lo (splitCalls axis plane t))).
  pose proof (sum_area_nonneg (sorted_hi (splitCalls axis plane t))).
  rewrite splitInto_calls. destruct mode.
  - assert (E : flat_map (fun c => if keeps NONE (snd c) then [fst c] else [])
                         (splitCalls axis plane t)
                = map fst (splitCalls axis plane t)).
    { generalize (splitCalls axis plane t) as l. induction l as [|c l IH]; [reflexivity|].
      simpl. now rewrite <- IH. }
    rewrite E.
    assert (Hs : forall l : list (TexturedTriangle * bool),
               sum_area (map fst l) = (sum_area (sorted_lo l) + sum_area (sorted_hi l))%R).
    { unfold sorted_lo, sorted_hi, sum_area.
      induction l as [|[f b] l IH]; cbn [map fst fold_right List.filter snd negb]; [lra|].
      rewrite IH. destruct b; cbn [map fst fold_right negb]; lra. }
    rewrite Hs. lra.
  - rewrite kept_DISCARD_LO. lra.
  - rewrite kept_DISCARD_HI. lra.
Qed.

Lemma split_all_area (mode : DiscardMode) (axis : nat) (plane : N)
    (A : list TexturedTriangle) :
  (sum_area (flat_map (splitInto mode axis plane) A) <= sum_area A)%R.
Proof.
  induction A as [|t A IH]; cbn [flat_map]; [lra|].
  rewrite sum_area_app. pose proof (splitInto_area mode axis plane t).
  change (sum_area (t :: A)) with (area t + sum_area A)%R. lra.
Qed.

Lemma clip_area (select : N -> DiscardMode) (pos : Vec3u) (planes : list (N * nat))
    (A fragments : list TexturedTriangle) :
  clip select pos planes A = Some fragments -> (sum_area fragments <= sum_area A)%R.
Proof.
  revert A. induction planes as [|[side a] planes IH]; intros A Hc.
  - cbn in Hc. inversion Hc; subst. lra.
  - cbn [clip] in Hc.
    pose proof (split_all_area (select side) a (uadd (uidx pos a) side) A) as Ha.
    destruct (flat_map _ A) as [|b B]; [discriminate|].
    specialize (IH _ Hc). lra.
Qed.

(** X28. The six cuts of [voxelizeVoxel] never add surface: when they leave
    fragments, the areas of the fragments add up to at most the area of the
    triangles that the call started from. *)
Theorem voxelizeVoxel_fragments_area (pos : Vec3u)
    (preSplitBuffer postSplitBuffer pre' post' : BufId) (s s' : Buffers) :
  preSplitBuffer <> postSplitBuffer ->
  buf_get postSplitBuffer s = [] ->
  voxelizeVoxel_rounds clipRounds pos preSplitBuffer postSplitBuffer s
  = inr (pre', post', s') ->
  (0 <= sum_area (buf_get pre' s') <= sum_area (buf_get preSplitBuffer s))%R.
Proof.
  intros Hne Hpost Hr.
  rewrite voxelizeVoxel_rounds_clip in Hr by assumption.
  destruct (clip splittingFunction pos clipRounds (buf_get preSplitBuffer s))
    as [fragments|] eqn:Hc; [|discriminate].
  cbn [length clipRounds flat_map map app Nat.even] in Hr. inversion Hr; subst. clear Hr.
  rewrite buf_get_set_eq. split; [apply sum_area_nonneg|].
  exact (clip_area _ _ _ _ _ Hc).
Qed.

Lemma voxelizeVoxel_fragments_area_witness :
  (0 <= sum_area (buf_get Buf1 (mkBuffers [] square_fragments []))
   <= sum_area (buf_get Buf1 (push_back Buf1 tri_2x2 empty_buffers)))%R.
Proof.
  apply (voxelizeVoxel_fragments_area (0, 0, 0)%N Buf1 Buf2 Buf1 Buf2
           (push_back Buf1 tri_2x2 empty_buffers) (mkBuffers [] square_fragments [])).
  - discriminate.
  - reflexivity.
  - vm_compute. reflexivity.
Defined.

(** ** A triangle inside one voxel *)





